(** * spx-synthetic-chart: the leverage simulator, the axis/scale engine,
      the viewport handlers and the data proxy, embedded in Rocq.

    Sources: [src/LiveSP500Canvas.jsx] (the chart component and its helpers)
    and [api/spx.js] (the serverless proxy).  Besides the four parts named
    above the model covers the client's fetcher, the start filter and the
    range policy of the component, the leverage presets and the demo
    series.

    Numbers.  A JavaScript number is modelled by [JS.number]: a real number,
    or one of the three special values NaN, +Infinity, -Infinity.  Sums,
    products and quotients of finite values are exact (no rounding, no
    overflow) and there is one zero; the special values follow IEEE 754 as
    JavaScript exposes it, and [Math.exp] leaves the finite range beyond
    its thresholds.  A property that needs its sums, products and
    quotients to stay within the range of the doubles says so in its
    hypotheses, by bounds on the magnitude of its inputs.  All comparisons
    return booleans, as the source's do. *)

From Stdlib Require Import String Ascii Reals Lra Lia ZArith Bool.
From Stdlib Require Import Decimal DecimalString DecimalNat Sorted List.
Import ListNotations.

(* ================================================================== *)
(** * Part I.  The model                                                *)
(* ================================================================== *)

(** ** JavaScript numbers and values *)

Module JS.

Inductive number : Type :=
| NaN
| Inf (negative : bool)
| Fin (r : R).

Definition PosInf : number := Inf false.
Definition NegInf : number := Inf true.

(** Sign test on a real: [true] when strictly below zero. *)
Definition Rneg (r : R) : bool := if Rlt_dec r 0 then true else false.
Definition Rzero (r : R) : bool := if Req_dec_T r 0 then true else false.

Definition neg (a : number) : number :=
  match a with
  | NaN => NaN
  | Inf s => Inf (negb s)
  | Fin r => Fin (- r)
  end.

(** [a + b].  On finite operands the sum is the exact one: the rounding
    and the overflow of the doubles are not modelled, here, in [mul] and in
    [div]. *)
Definition add (a b : number) : number :=
  match a, b with
  | NaN, _ | _, NaN => NaN
  | Inf s, Inf s' => if Bool.eqb s s' then Inf s else NaN
  | Inf s, Fin _ => Inf s
  | Fin _, Inf s => Inf s
  | Fin x, Fin y => Fin (x + y)
  end.

Definition sub (a b : number) : number := add a (neg b).

Definition mul (a b : number) : number :=
  match a, b with
  | NaN, _ | _, NaN => NaN
  | Inf s, Inf s' => Inf (xorb s s')
  | Inf s, Fin y => if Rzero y then NaN else Inf (xorb s (Rneg y))
  | Fin x, Inf s => if Rzero x then NaN else Inf (xorb (Rneg x) s)
  | Fin x, Fin y => Fin (x * y)
  end.

Definition div (a b : number) : number :=
  match a, b with
  | NaN, _ | _, NaN => NaN
  | Inf _, Inf _ => NaN
  | Inf s, Fin y => Inf (xorb s (Rneg y))
  | Fin _, Inf _ => Fin 0
  | Fin x, Fin y =>
      if Rzero y then (if Rzero x then NaN else Inf (Rneg x))
      else Fin (x / y)
  end.

(** [a < b]; false as soon as one side is NaN. *)
Definition lt (a b : number) : bool :=
  match a, b with
  | NaN, _ | _, NaN => false
  | Inf s, Inf s' => s && negb s'
  | Inf s, Fin _ => s
  | Fin _, Inf s => negb s
  | Fin x, Fin y => if Rlt_dec x y then true else false
  end.

(** [a === b] on numbers. *)
Definition strictEq (a b : number) : bool :=
  match a, b with
  | NaN, _ | _, NaN => false
  | Inf s, Inf s' => Bool.eqb s s'
  | Fin x, Fin y => if Req_dec_T x y then true else false
  | _, _ => false
  end.

Definition le (a b : number) : bool := lt a b || strictEq a b.
Definition gt (a b : number) : bool := lt b a.
Definition ge (a b : number) : bool := le b a.

(** [isFinite(x)] / [Number.isFinite(x)] on a number. *)
Definition isFinite (a : number) : bool :=
  match a with Fin _ => true | _ => false end.

Definition isNaN (a : number) : bool :=
  match a with NaN => true | _ => false end.

(** ToBoolean on a number: 0 and NaN are falsy. *)
Definition truthy (a : number) : bool :=
  match a with
  | NaN => false
  | Inf _ => true
  | Fin r => negb (Rzero r)
  end.

(** [Math.max(a, b)] and [Math.min(a, b)]: NaN when either argument is. *)
Definition Math_max (a b : number) : number :=
  match a, b with
  | NaN, _ | _, NaN => NaN
  | _, _ => if lt a b then b else a
  end.

Definition Math_min (a b : number) : number :=
  match a, b with
  | NaN, _ | _, NaN => NaN
  | _, _ => if lt b a then b else a
  end.

(** [Math.max.apply(null, xs)] and [Math.min.apply(null, xs)]: the empty
    list gives -Infinity and +Infinity. *)
Definition Math_max_apply (xs : list number) : number :=
  fold_left Math_max xs NegInf.

Definition Math_min_apply (xs : list number) : number :=
  fold_left Math_min xs PosInf.

Definition Math_abs (a : number) : number :=
  match a with
  | NaN => NaN
  | Inf _ => PosInf
  | Fin r => Fin (Rabs r)
  end.

Definition Math_log (a : number) : number :=
  match a with
  | NaN => NaN
  | Inf s => if s then NaN else PosInf
  | Fin r => if Rzero r then NegInf else if Rneg r then NaN else Fin (ln r)
  end.

(** [Math.exp(a)].  The exponential leaves the finite range: above
    709.78... the result is Infinity and below -745.13... it is 0.  The
    two constants separate the doubles on which the exponential of the
    runtime (fdlibm's, in the JavaScript engines) overflows, or is 0, from
    the other doubles: the first lies between the largest double with a
    finite exponential and the next double, the second between the least
    double with an exponential other than 0 and the one before. *)
Definition Math_exp (a : number) : number :=
  match a with
  | NaN => NaN
  | Inf s => if s then Fin 0 else PosInf
  | Fin r =>
      if Rlt_dec 709.78271289338402 r then PosInf
      else if Rlt_dec r (-745.13321910194116) then Fin 0
      else Fin (exp r)
  end.

(** The values a JavaScript variable may hold, as far as the sources
    distinguish them ([typeof], truthiness, [Number.isFinite]). *)
Inductive jsval : Type :=
| VUndefined
| VNull
| VBool (b : bool)
| VNumber (n : number)
| VString (s : string).

Definition typeof_is_number (v : jsval) : bool :=
  match v with VNumber _ => true | _ => false end.

(** [Number.isFinite(v)]: false for every value that is not a number. *)
Definition Number_isFinite (v : jsval) : bool :=
  match v with VNumber n => isFinite n | _ => false end.

End JS.

Declare Scope num_scope.
Delimit Scope num_scope with num.
Bind Scope num_scope with JS.number.
Notation "a + b" := (JS.add a b) : num_scope.
Notation "a - b" := (JS.sub a b) : num_scope.
Notation "a * b" := (JS.mul a b) : num_scope.
Notation "a / b" := (JS.div a b) : num_scope.
Notation "a <? b" := (JS.lt a b) (at level 70) : num_scope.
Notation "a <=? b" := (JS.le a b) (at level 70) : num_scope.
Notation "a >? b" := (JS.gt a b) (at level 70) : num_scope.
Notation "a >=? b" := (JS.ge a b) (at level 70) : num_scope.
Notation "a === b" := (JS.strictEq a b) (at level 70) : num_scope.
Notation "# r" := (JS.Fin r%R) (at level 1, r at level 0, format "# r") : num_scope.

Import JS.
Local Open Scope num_scope.

(** ** Data model *)

(** A point of a price series: [{ time, value }]. *)
Record PricePoint : Type := mkPoint { time : number; value : number }.

(** The visible window: [{ x0, x1 }]. *)
Record Domain : Type := mkDomain { x0 : number; x1 : number }.

(** ** The leverage simulator *)

Module Simulator.

(** The body of the [for] loop of [buildSyntheticSeries] for the indices
    [i >= 1]: [prevPoint] is [spx[i - 1]], [base] the running value, and
    [rest] the points [spx[i]], [spx[i + 1]], ... still to visit. *)
Fixpoint compound (leverage : number) (prevPoint : PricePoint) (base : number)
    (rest : list PricePoint) : list PricePoint :=
  match rest with
  | [] => []
  | p :: rest' =>
      let prev := value prevPoint in
      let curr := value p in
      let r := if truthy prev then (curr - prev) / prev else #0 in
      let base' := base * (#1 + leverage * r) in
      mkPoint (time p) base' :: compound leverage p base' rest'
  end.

(** [buildSyntheticSeries(spx, leverage, baseStart)]. *)
Definition buildSyntheticSeries (spx : list PricePoint) (leverage : number)
    (baseStart : jsval) : list PricePoint :=
  match spx with
  | [] => []
  | p0 :: rest =>
      let base :=
        match baseStart with
        | VNumber b => b
        | _ => #100
        end in
      mkPoint (time p0) base :: compound leverage p0 base rest
  end.

End Simulator.

(** ** The runtime's [Date] objects

    The chart helpers align timestamps through [Date] and its UTC getters
    and setters.  These are built-ins of the JavaScript runtime, modelled
    here after ECMA-262 (Date objects, time values and time range): a time
    value is an integral number of milliseconds since the epoch, within
    8.64e15 of it, or NaN for an invalid date. *)

Module DateObj.

Local Open Scope Z_scope.

Definition msPerDay : Z := 86400000.
Definition msPerHour : Z := 3600000.
Definition msPerMinute : Z := 60000.
Definition msPerSecond : Z := 1000.
Definition maxTime : Z := 8640000000000000.

Definition Day (t : Z) : Z := t / msPerDay.
Definition TimeWithinDay (t : Z) : Z := t mod msPerDay.

Definition DaysInYear (y : Z) : Z :=
  if negb (y mod 4 =? 0) then 365
  else if negb (y mod 100 =? 0) then 366
  else if negb (y mod 400 =? 0) then 365
  else 366.

Definition DayFromYear (y : Z) : Z :=
  365 * (y - 1970) + (y - 1969) / 4 - (y - 1901) / 100 + (y - 1601) / 400.

(** The year of day number [d]: the largest [y] with [DayFromYear y <= d],
    found from the mean year length and corrected by at most one. *)
Definition YearFromDay (d : Z) : Z :=
  let y0 := 1970 + (d * 400) / 146097 in
  if DayFromYear (y0 + 1) <=? d then y0 + 1
  else if DayFromYear y0 <=? d then y0
  else y0 - 1.

Definition YearFromTime (t : Z) : Z := YearFromDay (Day t).

(** 1 in a leap year, 0 otherwise. *)
Definition InLeapYear (t : Z) : Z :=
  if DaysInYear (YearFromTime t) =? 366 then 1 else 0.

Definition DayWithinYear (t : Z) : Z := Day t - DayFromYear (YearFromTime t).

(** The day of the year on which month [m] (0 = January) starts. *)
Definition monthStart (leap m : Z) : Z :=
  if m =? 0 then 0
  else if m =? 1 then 31
  else if m =? 2 then 59 + leap
  else if m =? 3 then 90 + leap
  else if m =? 4 then 120 + leap
  else if m =? 5 then 151 + leap
  else if m =? 6 then 181 + leap
  else if m =? 7 then 212 + leap
  else if m =? 8 then 243 + leap
  else if m =? 9 then 273 + leap
  else if m =? 10 then 304 + leap
  else 334 + leap.

Definition monthOfDay (leap dayInYear : Z) : Z :=
  if dayInYear <? 31 then 0
  else if dayInYear <? 59 + leap then 1
  else if dayInYear <? 90 + leap then 2
  else if dayInYear <? 120 + leap then 3
  else if dayInYear <? 151 + leap then 4
  else if dayInYear <? 181 + leap then 5
  else if dayInYear <? 212 + leap then 6
  else if dayInYear <? 243 + leap then 7
  else if dayInYear <? 273 + leap then 8
  else if dayInYear <? 304 + leap then 9
  else if dayInYear <? 334 + leap then 10
  else 11.

Definition MonthFromTime (t : Z) : Z := monthOfDay (InLeapYear t) (DayWithinYear t).

Definition DateFromTime (t : Z) : Z :=
  DayWithinYear t - monthStart (InLeapYear t) (MonthFromTime t) + 1.

Definition WeekDay (t : Z) : Z := (Day t + 4) mod 7.
Definition HourFromTime (t : Z) : Z := (t / msPerHour) mod 24.
Definition MinFromTime (t : Z) : Z := (t / msPerMinute) mod 60.
Definition SecFromTime (t : Z) : Z := (t / msPerSecond) mod 60.
Definition msFromTime (t : Z) : Z := t mod msPerSecond.

Definition MakeTime (hour min sec ms : Z) : Z :=
  hour * msPerHour + min * msPerMinute + sec * msPerSecond + ms.

Definition MakeDay (year month date : Z) : Z :=
  let ym := year + month / 12 in
  let mn := month mod 12 in
  let leap := if DaysInYear ym =? 366 then 1 else 0 in
  DayFromYear ym + monthStart leap mn + date - 1.

Definition MakeDate (day time : Z) : Z := day * msPerDay + time.

(** A [Date] object's time value: [None] is the invalid date (NaN). *)
Definition Date : Type := option Z.

Definition TimeClip (t : Z) : Date :=
  if Z.abs t <=? maxTime then Some t else None.

(** The time values a [Date] can hold. *)
Definition valid (d : Date) : Prop :=
  match d with
  | Some t => Z.abs t <= maxTime
  | None => True
  end.

(** ToIntegerOrInfinity on a finite number: truncation towards zero. *)
Definition truncate (r : R) : Z :=
  if Rle_dec 0 r then Int_part r else - Int_part (- r).

(** [new Date(ts)] for a number [ts]. *)
Definition newDate (ts : number) : Date :=
  match ts with
  | Fin r => if Rle_dec (Rabs r) (IZR maxTime) then Some (truncate r) else None
  | _ => None
  end.

Definition getTime (d : Date) : number :=
  match d with
  | Some t => Fin (IZR t)
  | None => NaN
  end.

Definition getUTCDay (d : Date) : option Z := option_map WeekDay d.
Definition getUTCDate (d : Date) : option Z := option_map DateFromTime d.
Definition getUTCMonth (d : Date) : option Z := option_map MonthFromTime d.
Definition getUTCMinutes (d : Date) : option Z := option_map MinFromTime d.

Definition setUTCDate (d : Date) (date : Z) : Date :=
  match d with
  | Some t =>
      TimeClip (MakeDate (MakeDay (YearFromTime t) (MonthFromTime t) date)
                         (TimeWithinDay t))
  | None => None
  end.

Definition setUTCMonth (d : Date) (month : Z) : Date :=
  match d with
  | Some t =>
      TimeClip (MakeDate (MakeDay (YearFromTime t) month (DateFromTime t))
                         (TimeWithinDay t))
  | None => None
  end.

Definition setUTCHours (d : Date) (hour min sec ms : Z) : Date :=
  match d with
  | Some t => TimeClip (MakeDate (Day t) (MakeTime hour min sec ms))
  | None => None
  end.

Definition setUTCMinutes (d : Date) (min sec ms : Z) : Date :=
  match d with
  | Some t => TimeClip (MakeDate (Day t) (MakeTime (HourFromTime t) min sec ms))
  | None => None
  end.

Definition setUTCSeconds (d : Date) (sec ms : Z) : Date :=
  match d with
  | Some t =>
      TimeClip (MakeDate (Day t)
                         (MakeTime (HourFromTime t) (MinFromTime t) sec ms))
  | None => None
  end.

End DateObj.

(** ** Completions

    Reading a property of [undefined] raises a TypeError.  Code that
    indexes arrays is modelled in this small error monad, so that "never
    throws" is a statement to prove and not a property of the encoding. *)

Inductive completion (A : Type) : Type :=
| Normal (a : A)
| Throws.

Arguments Normal {A} a.
Arguments Throws {A}.

Definition bind {A B : Type} (c : completion A) (k : A -> completion B)
    : completion B :=
  match c with
  | Normal a => k a
  | Throws => Throws
  end.

Notation "'let*' x ':=' c 'in' k" := (bind c (fun x => k))
  (at level 10, x name, c at level 100, k at level 200).

(** [xs[i]] followed by a property read: throws when [xs[i]] is undefined. *)
Definition at_index {A : Type} (xs : list A) (i : nat) : completion A :=
  match nth_error xs i with
  | Some a => Normal a
  | None => Throws
  end.

(** ** Axis and scale utilities *)

Module Chart.

Local Open Scope string_scope.
Local Open Scope num_scope.

(** What the runtime supplies for turning numbers and dates into text:
    string concatenation of a number, [Number.prototype.toFixed], and the
    three locale formats [tickLabel] asks for. *)
Record Runtime : Type := mkRuntime {
  numberToString : number -> string;
  toFixed : number -> nat -> string;
  toLocaleTimeString_hm : DateObj.Date -> string;
  toLocaleDateString_md : DateObj.Date -> string;
  toLocaleDateString_my : DateObj.Date -> string
}.

(** A runtime that prints every number and date as the empty text, for
    closed examples that do not read the labels. *)
Definition silentRuntime : Runtime :=
  mkRuntime (fun _ => "") (fun _ _ => "") (fun _ => "") (fun _ => "")
            (fun _ => "").

(** [intervalToStepMs(interval)]; [None] is the [null] of the month case. *)
Definition intervalToStepMs (interval : string) : option number :=
  if interval =? "1" then Some #(60 * 1000)
  else if interval =? "5" then Some #(5 * 60 * 1000)
  else if interval =? "15" then Some #(15 * 60 * 1000)
  else if interval =? "60" then Some #(60 * 60 * 1000)
  else if interval =? "D" then Some #(24 * 60 * 60 * 1000)
  else if interval =? "W" then Some #(7 * 24 * 60 * 60 * 1000)
  else if interval =? "M" then None
  else Some #(24 * 60 * 60 * 1000).

(** [alignToInterval(ts, interval)].  The date [d] is threaded through the
    setters; a getter of an invalid date yields NaN, which leaves the date
    invalid when passed to a setter. *)
Definition alignToInterval (ts : number) (interval : string) : number :=
  let d := DateObj.newDate ts in
  if interval =? "M" then
    let d := DateObj.setUTCDate d 1 in
    let d := DateObj.setUTCHours d 0 0 0 0 in
    DateObj.getTime d
  else if interval =? "W" then
    match DateObj.getUTCDay d, DateObj.getUTCDate d with
    | Some day, Some date =>
        let diff := ((day + 6) mod 7)%Z in
        let d := DateObj.setUTCDate d (date - diff)%Z in
        let d := DateObj.setUTCHours d 0 0 0 0 in
        DateObj.getTime d
    | _, _ => NaN
    end
  else if interval =? "D" then
    let d := DateObj.setUTCHours d 0 0 0 0 in
    DateObj.getTime d
  else if interval =? "60" then
    let d := DateObj.setUTCMinutes d 0 0 0 in
    DateObj.getTime d
  else if interval =? "15" then
    match DateObj.getUTCMinutes d with
    | Some m =>
        let d := DateObj.setUTCMinutes d (m / 15 * 15)%Z 0 0 in
        DateObj.getTime d
    | None => NaN
    end
  else if interval =? "5" then
    match DateObj.getUTCMinutes d with
    | Some m =>
        let d := DateObj.setUTCMinutes d (m / 5 * 5)%Z 0 0 in
        DateObj.getTime d
    | None => NaN
    end
  else if interval =? "1" then
    let d := DateObj.setUTCSeconds d 0 0 in
    DateObj.getTime d
  else DateObj.getTime d.

(** [alignToInterval] read on dates: what becomes of [d = new Date(ts)]
    before [getTime] is taken. *)
Definition alignDate (interval : string) (d : DateObj.Date) : DateObj.Date :=
  if interval =? "M" then DateObj.setUTCHours (DateObj.setUTCDate d 1) 0 0 0 0
  else if interval =? "W" then
    match d with
    | Some t =>
        let diff := ((DateObj.WeekDay t + 6) mod 7)%Z in
        DateObj.setUTCHours
          (DateObj.setUTCDate d (DateObj.DateFromTime t - diff)%Z) 0 0 0 0
    | None => None
    end
  else if interval =? "D" then DateObj.setUTCHours d 0 0 0 0
  else if interval =? "60" then DateObj.setUTCMinutes d 0 0 0
  else if interval =? "15" then
    match d with
    | Some t => DateObj.setUTCMinutes d (DateObj.MinFromTime t / 15 * 15)%Z 0 0
    | None => None
    end
  else if interval =? "5" then
    match d with
    | Some t => DateObj.setUTCMinutes d (DateObj.MinFromTime t / 5 * 5)%Z 0 0
    | None => None
    end
  else if interval =? "1" then DateObj.setUTCSeconds d 0 0
  else d.

(** [addInterval(ts, interval)]. *)
Definition addInterval (ts : number) (interval : string) : number :=
  if interval =? "M" then
    let d := DateObj.newDate ts in
    match DateObj.getUTCMonth d with
    | Some m => DateObj.getTime (DateObj.setUTCMonth d (m + 1)%Z)
    | None => NaN
    end
  else
    let step :=
      match intervalToStepMs interval with
      | Some s => if truthy s then s else #(24 * 60 * 60 * 1000)
      | None => #(24 * 60 * 60 * 1000)
      end in
    (ts + step)%num.

(** [tickLabel(ts, interval)]. *)
Definition tickLabel (rt : Runtime) (ts : number) (interval : string) : string :=
  let d := DateObj.newDate ts in
  if (interval =? "1") || (interval =? "5") || (interval =? "15")
     || (interval =? "60")
  then toLocaleTimeString_hm rt d
  else if (interval =? "D") || (interval =? "W")
  then toLocaleDateString_md rt d
  else toLocaleDateString_my rt d.

(** [clamp(n, min, max)]. *)
Definition clamp (n min max : number) : number :=
  Math_max min (Math_min max n).

(** *** The geometry record returned by [useChartPath] *)

Record Tick : Type := mkTick { tick_x : number; tick_ts : number }.
Record Label : Type := mkLabel { label_x : number; label_text : string }.
Record YTick : Type := mkYTick { ytick_y : number; ytick_label : string }.

Record ChartGeometry : Type := mkGeometry {
  path : string;
  xTicks : list Tick;
  xLabels : list Label;
  yTicks : list YTick;
  xScale : number -> number;
  yScale : number -> number;
  last : option PricePoint;
  anchor : number
}.

(** *** The parts of [useChartPath], in the order of the source *)

(** [data.filter(...)] on the clamped window, falling back to a copy of
    the whole series when nothing is inside. *)
Definition visibleSlice (data : list PricePoint) (xMin xMax : number)
    : list PricePoint :=
  let slice :=
    filter (fun d => (time d >=? xMin) && (time d <=? xMax)) data in
  if (List.length slice =? 0)%nat then data else slice.

Definition useLog (yMode : string) (values : list number) : bool :=
  (yMode =? "log") && forallb (fun v => v >? #0) values.

Definition tf (useLog : bool) (yMode : string) (anchor : number)
    : number -> number :=
  if useLog then fun v => Math_log v
  else if yMode =? "percent" then
    fun v =>
      let ref := Math_max #1e-9 anchor in
      ((v / ref - #1) * #100)%num
  else fun v => v.

Definition invf (useLog : bool) (yMode : string) (anchor : number)
    : number -> number :=
  if useLog then fun v => Math_exp v
  else if yMode =? "percent" then
    fun p =>
      let ref := Math_max #1e-9 anchor in
      (ref * (#1 + p / #100))%num
  else fun v => v.

(** The three adjustments of [tMin] and [tMax], one definition each. *)
Definition defaultIfNotFinite (r : number * number) : number * number :=
  let '(tMin, tMax) := r in
  if negb (isFinite tMin && isFinite tMax) then (#0, #1) else (tMin, tMax).

Definition widenIfFlat (r : number * number) : number * number :=
  let '(tMin, tMax) := r in
  if tMin === tMax then ((tMin - #1)%num, (tMax + #1)%num) else (tMin, tMax).

Definition padRange (r : number * number) : number * number :=
  let '(tMin, tMax) := r in
  let padTopBottom := ((tMax - tMin) * #0.1)%num in
  ((tMin - padTopBottom)%num, (tMax + padTopBottom)%num).

Definition transformedRange (tVals : list number) : number * number :=
  padRange
    (widenIfFlat
       (defaultIfNotFinite (Math_min_apply tVals, Math_max_apply tVals))).

Definition xScaleOf (padLeft width rightMargin xMin xMax : number)
    : number -> number :=
  fun t =>
    (padLeft
     + ((t - xMin) / Math_max #1 (xMax - xMin))
       * (width - padLeft - rightMargin))%num.

Definition yScaleOf (tf : number -> number) (height padLeft tMin tMax : number)
    : number -> number :=
  fun v =>
    (height - padLeft
     - ((tf v - tMin) / Math_max #1e-9 (tMax - tMin))
       * (height - #2 * padLeft))%num.

(** The path loop, [i] being the index of the head of [slice]. *)
Fixpoint pathLoop (rt : Runtime) (xScale yScale : number -> number)
    (i : nat) (slice : list PricePoint) : string :=
  match slice with
  | [] => ""
  | p :: rest =>
      let x := numberToString rt (xScale (time p)) in
      let y := numberToString rt (yScale (value p)) in
      (if (i =? 0)%nat then "M " ++ x ++ " " ++ y else " L " ++ x ++ " " ++ y)
      ++ pathLoop rt xScale yScale (S i) rest
  end.

Definition guard : nat := 50 * 100.

(** The tick loop: [fuel] is what is left of the guard ([guard - count]). *)
Fixpoint tickLoop (xScale : number -> number) (interval : string)
    (xMax : number) (fuel : nat) (t : number) : list Tick :=
  match fuel with
  | O => []
  | S fuel' =>
      if t <=? xMax then
        mkTick (xScale t) t
        :: tickLoop xScale interval xMax fuel' (addInterval t interval)
      else []
  end.

Definition xTicksOf (xScale : number -> number) (interval : string)
    (xMin xMax : number) : list Tick :=
  let ticks := tickLoop xScale interval xMax guard (alignToInterval xMin interval) in
  if (List.length ticks <? 2)%nat then
    (ticks ++ [mkTick (xScale xMin) xMin; mkTick (xScale xMax) xMax])%list
  else ticks.

Definition MIN_GAP : number := #80.

(** The [forEach] that labels every tick at least [MIN_GAP] pixels to the
    right of the last labelled one; the state is the pair
    [(xLabels, lastLabeledX)]. *)
Definition labelStep (rt : Runtime) (interval : string)
    (st : list Label * number) (tick : Tick) : list Label * number :=
  let '(xLabels, lastLabeledX) := st in
  if (tick_x tick - lastLabeledX >=? MIN_GAP)%num then
    ((xLabels ++ [mkLabel (tick_x tick) (tickLabel rt (tick_ts tick) interval)])%list,
     tick_x tick)
  else (xLabels, lastLabeledX).

Definition xLabelsOf (rt : Runtime) (interval : string) (xTicks : list Tick)
    : completion (list Label) :=
  let xLabels := fst (fold_left (labelStep rt interval) xTicks ([], NegInf)) in
  if (0 <? List.length xLabels)%nat then
    let* first := at_index xLabels 0 in
    let* lastLabel := at_index xLabels (List.length xLabels - 1) in
    let* tick0 := at_index xTicks 0 in
    let* tickN := at_index xTicks (List.length xTicks - 1) in
    let wantsFirst :=
      (Math_abs (label_x first - tick_x tick0) >? MIN_GAP / #2)%num in
    let wantsLast :=
      (Math_abs (label_x lastLabel - tick_x tickN) >? MIN_GAP / #2)%num in
    let xLabels :=
      if wantsFirst
      then mkLabel (tick_x tick0) (tickLabel rt (tick_ts tick0) interval) :: xLabels
      else xLabels in
    let xLabels :=
      if wantsLast
      then (xLabels ++ [mkLabel (tick_x tickN) (tickLabel rt (tick_ts tickN) interval)])%list
      else xLabels in
    Normal xLabels
  else Normal xLabels.

Definition tickCount : nat := 6.

Definition yTicksOf (rt : Runtime) (invf : number -> number) (yMode : string)
    (anchor height padLeft tMin tMax : number) : list YTick :=
  map
    (fun j : nat =>
       let tv := (tMin + ((tMax - tMin) / #(INR (tickCount - 1))) * #(INR j))%num in
       let raw := invf tv in
       let label :=
         if yMode =? "percent" then
           let pct := ((raw / Math_max #1e-9 anchor - #1) * #100)%num in
           toFixed rt pct 1 ++ "%"
         else toFixed rt raw 2 in
       let yTick :=
         (height - padLeft
          - ((tv - tMin) / Math_max #1e-9 (tMax - tMin))
            * (height - #2 * padLeft))%num in
       mkYTick yTick label)
    (seq 0 tickCount).

(** [useChartPath(data, width, height, padLeft, interval, domain, yMode,
    rightMargin)]: the function passed to [useMemo]. *)
Definition useChartPath (rt : Runtime) (data : list PricePoint)
    (width height padLeft : number) (interval : string) (domain : Domain)
    (yMode : string) (rightMargin : number) : completion ChartGeometry :=
  if (List.length data =? 0)%nat then
    Normal (mkGeometry "" [] [] [] (fun t => t) (fun v => v) None #0)
  else
    let* first := at_index data 0 in
    let dataXMin := time first in
    let* final := at_index data (List.length data - 1) in
    let dataXMax := time final in
    let xMin := Math_max (x0 domain) dataXMin in
    let xMax := Math_min (x1 domain) dataXMax in
    let slice := visibleSlice data xMin xMax in
    let* slice0 := at_index slice 0 in
    let anchor := value slice0 in
    let values := map value slice in
    let useLog := useLog yMode values in
    let tf := tf useLog yMode anchor in
    let invf := invf useLog yMode anchor in
    let tVals := map tf values in
    let '(tMin, tMax) := transformedRange tVals in
    let xScale := xScaleOf padLeft width rightMargin xMin xMax in
    let yScale := yScaleOf tf height padLeft tMin tMax in
    let dPath := pathLoop rt xScale yScale 0 slice in
    let xTicks := xTicksOf xScale interval xMin xMax in
    let* xLabels := xLabelsOf rt interval xTicks in
    let yTicks := yTicksOf rt invf yMode anchor height padLeft tMin tMax in
    let last :=
      if (0 <? List.length slice)%nat then nth_error slice (List.length slice - 1)
      else None in
    Normal (mkGeometry dPath xTicks xLabels yTicks xScale yScale last anchor).

End Chart.

(** ** The viewport: component state and gesture handlers *)

Module Viewport.

Import Chart.

(** Constants of [LiveSP500Canvas]; 40 is the left padding it passes to
    [useChartPath] and writes literally in the handlers. *)
Definition width : number := #1200.
Definition height : number := #640.
Definition rightMargin : number := #90.

(** [fullDomain]: the extent of the synthetic series, [{0, 1}] when empty. *)
Definition fullDomain (synth : list PricePoint) : Domain :=
  mkDomain (hd #0 (map time synth)) (List.last (map time synth) #1).

(** The crosshair read-out and the drag origin. *)
Record Cross : Type := mkCross {
  cross_x : number; cross_y : number; cross_ts : number; cross_price : number
}.

Record PanStart : Type := mkPanStart {
  pan_x : number; pan_x0 : number; pan_x1 : number
}.

(** The component's view state: [domain] is [None] for [undefined]
    (auto-fit), [panStart] is the content of the [panStart] ref. *)
Record ViewState : Type := mkView {
  domain : option Domain;
  isPanning : bool;
  panStart : option PanStart;
  cross : option Cross
}.

(** [domain || fullDomain]. *)
Definition activeDomain (synth : list PricePoint) (st : ViewState) : Domain :=
  match domain st with
  | Some d => d
  | None => fullDomain synth
  end.

Definition setDomain (st : ViewState) (d : option Domain) : ViewState :=
  mkView d (isPanning st) (panStart st) (cross st).

Definition setCross (st : ViewState) (c : option Cross) : ViewState :=
  mkView (domain st) (isPanning st) (panStart st) c.

(** What the handlers read of an event: [e.clientX], the left edge of
    [e.currentTarget.getBoundingClientRect()], and [e.deltaY]. *)
Record WheelEvent : Type := mkWheel {
  wheel_clientX : number; wheel_rectLeft : number; deltaY : number
}.

Record PointerEvent : Type := mkPointer {
  clientX : number; rectLeft : number
}.

(** [onWheel(e)]. *)
Definition onWheel (synth : list PricePoint) (st : ViewState) (e : WheelEvent)
    : ViewState :=
  if (List.length synth =? 0)%nat then st
  else
    let fullDomain := fullDomain synth in
    let activeDomain := activeDomain synth st in
    let px := wheel_clientX e - wheel_rectLeft e in
    let tAtCursor :=
      x0 activeDomain
      + ((px - #40) / Math_max #1 (width - #40 - rightMargin))
        * (x1 activeDomain - x0 activeDomain) in
    let zoomIntensity := #0.2 in
    let direction := if deltaY e >? #0 then #1 else #(-1) in
    let scale := Math_exp (direction * zoomIntensity) in
    let newX0 := tAtCursor - (tAtCursor - x0 activeDomain) * scale in
    let newX1 := tAtCursor + (x1 activeDomain - tAtCursor) * scale in
    let minSpan := (x1 fullDomain - x0 fullDomain) / #500 in
    let x0' := Math_max (x0 fullDomain) (Math_min newX0 (newX1 - minSpan)) in
    let x1' := Math_min (x1 fullDomain) (Math_max newX1 (newX0 + minSpan)) in
    setDomain st (Some (mkDomain x0' x1')).

(** [onPointerDown(e)]. *)
Definition onPointerDown (synth : list PricePoint) (st : ViewState)
    (e : PointerEvent) : ViewState :=
  let activeDomain := activeDomain synth st in
  mkView (domain st) true
         (Some (mkPanStart (clientX e) (x0 activeDomain) (x1 activeDomain)))
         (cross st).

(** The body of the crosshair loop: the state is [(nearest, best)]. *)
Definition nearestStep (activeDomain : Domain) (ts : number)
    (st : PricePoint * number) (p : PricePoint) : PricePoint * number :=
  let '(nearest, best) := st in
  if (time p <? x0 activeDomain) || (time p >? x1 activeDomain) then (nearest, best)
  else
    let d := Math_abs (time p - ts) in
    if d <? best then (p, d) else (nearest, best).

(** The timestamp [ts] under the pointer, as [onPointerMove] computes it. *)
Definition pointerTime (activeDomain : Domain) (e : PointerEvent) : number :=
  let px := clamp (clientX e - rectLeft e) #0 width in
  x0 activeDomain
  + ((px - #40) / Math_max #1 (width - #40 - rightMargin))
    * (x1 activeDomain - x0 activeDomain).

(** The crosshair part of [onPointerMove]. *)
Definition moveCrosshair (chart : ChartGeometry) (synth : list PricePoint)
    (st : ViewState) (e : PointerEvent) : ViewState :=
  let activeDomain := activeDomain synth st in
  let ts := pointerTime activeDomain e in
  match synth with
  | [] => st
  | synth0 :: _ =>
      let '(nearest, _) :=
        fold_left (nearestStep activeDomain ts) synth (synth0, PosInf) in
      setCross st
        (Some (mkCross (xScale chart (time nearest)) (yScale chart (value nearest))
                       (time nearest) (value nearest)))
  end.

(** The pan part of [onPointerMove]; the three [if]s update [x0], [x1]
    in sequence. *)
Definition movePan (synth : list PricePoint) (st : ViewState) (e : PointerEvent)
    : option Domain :=
  match isPanning st, panStart st with
  | true, Some ps =>
      let fullDomain := fullDomain synth in
      let dxPx := clientX e - pan_x ps in
      let span := pan_x1 ps - pan_x0 ps in
      let dt := (neg dxPx / Math_max #1 (width - #40 - rightMargin)) * span in
      let x0' := pan_x0 ps + dt in
      let x1' := pan_x1 ps + dt in
      let spanMin := (x1 fullDomain - x0 fullDomain) / #1000 in
      let x1' := if x1' - x0' <? spanMin then x0' + spanMin else x1' in
      let '(x0', x1') :=
        if x0' <? x0 fullDomain
        then (x0 fullDomain, x1' + (x0 fullDomain - x0'))
        else (x0', x1') in
      let '(x0', x1') :=
        if x1' >? x1 fullDomain
        then (x0' - (x1' - x1 fullDomain), x1 fullDomain)
        else (x0', x1') in
      Some (mkDomain x0' x1')
  | _, _ => None
  end.

(** [onPointerMove(e)]: both parts read the [activeDomain] of the render
    the handler was created in. *)
Definition onPointerMove (chart : ChartGeometry) (synth : list PricePoint)
    (st : ViewState) (e : PointerEvent) : ViewState :=
  let st' := moveCrosshair chart synth st e in
  match movePan synth st e with
  | Some d => setDomain st' (Some d)
  | None => st'
  end.

Definition onPointerUp (st : ViewState) : ViewState :=
  mkView (domain st) false None (cross st).

Definition onLeave (st : ViewState) : ViewState := setCross st None.

Definition fitToScreen (st : ViewState) : ViewState := setDomain st None.

End Viewport.

(** ** The proxy [api/spx.js] *)

Module Proxy.

Local Open Scope string_scope.

(** A point of the response: [value] is whatever [close[i]] was. *)
Record RawPoint : Type := mkRaw { raw_time : number; raw_value : jsval }.

(** What the handler reads of the upstream answer: the fetch or the JSON
    parse fails, the status is not ok, or the payload offers (or lacks)
    [chart.result[0].timestamp] and [...indicators.quote[0].close].  The
    handler only multiplies a timestamp, so [timestamp] holds each element
    as the multiplication reads it, as a number: an element that is [null]
    is the number 0 (see [Wire.timestampOf] below). *)
Record Payload : Type := mkPayload {
  timestamp : option (list number);
  close : option (list jsval)
}.

Inductive Upstream : Type :=
| FetchThrows
| NotOk (status : nat)
| Json (j : Payload).

Inductive Body : Type :=
| ErrorBody (error : string) (upstreamStatus : option nat)
| SeriesBody (series : list RawPoint).

Record Response : Type := mkResponse { status : nat; body : Body }.

(** [close[i]]: [undefined] past the end of the array. *)
Definition closeAt (close : list jsval) (i : nat) : jsval :=
  nth i close VUndefined.

(** [ts.map((t, i) => ...)], [i] being the index of the head of [ts]. *)
Fixpoint mapIndexed (close : list jsval) (i : nat) (ts : list number)
    : list RawPoint :=
  match ts with
  | [] => []
  | t :: ts' =>
      mkRaw (t * #1000)%num (closeAt close i) :: mapIndexed close (S i) ts'
  end.

Definition buildSeries (ts : list number) (close : list jsval) : list RawPoint :=
  filter (fun p => Number_isFinite (raw_value p)) (mapIndexed close 0 ts).

(** One point of the response, from a timestamp in seconds and its close. *)
Definition pointOf (tc : number * jsval) : RawPoint :=
  mkRaw (fst tc * #1000)%num (snd tc).

Definition handler (upstream : Upstream) : Response :=
  match upstream with
  | FetchThrows => mkResponse 500 (ErrorBody "Internal error" None)
  | NotOk s => mkResponse 502 (ErrorBody "Upstream failed" (Some s))
  | Json j =>
      match timestamp j, close j with
      | Some ts, Some close => mkResponse 200 (SeriesBody (buildSeries ts close))
      | _, _ => mkResponse 500 (ErrorBody "Bad upstream data" None)
      end
  end.

End Proxy.

(** ** The handlers on finite numbers *)

(** The same expressions over the reals.  [zoomWindow] is the window
    [onWheel] computes from the full extent [F0, F1], the active domain
    [a0, a1], the cursor offset [px] and the scale factor [s]; [panWindow]
    is the one the pan branch computes from the domain [p0, p1] captured at
    pointer-down, the pointer abscissa [sx] at that time and the current
    one [cx]. *)
Definition zoomWindow (F0 F1 a0 a1 px s : R) : R * R :=
  let tAtCursor :=
    (a0 + ((px - 40) / Rmax 1 (1200 - 40 - 90)) * (a1 - a0))%R in
  let newX0 := (tAtCursor - (tAtCursor - a0) * s)%R in
  let newX1 := (tAtCursor + (a1 - tAtCursor) * s)%R in
  let minSpan := ((F1 - F0) / 500)%R in
  (Rmax F0 (Rmin newX0 (newX1 - minSpan)),
   Rmin F1 (Rmax newX1 (newX0 + minSpan))).

Definition panWindow (F0 F1 p0 p1 sx cx : R) : R * R :=
  let dxPx := (cx - sx)%R in
  let span := (p1 - p0)%R in
  let dt := ((- dxPx / Rmax 1 (1200 - 40 - 90)) * span)%R in
  let x0 := (p0 + dt)%R in
  let x1 := (p1 + dt)%R in
  let spanMin := ((F1 - F0) / 1000)%R in
  let x1 := if Rlt_dec (x1 - x0) spanMin then (x0 + spanMin)%R else x1 in
  let '(x0, x1) :=
    if Rlt_dec x0 F0 then (F0, (x1 + (F0 - x0))%R) else (x0, x1) in
  if Rlt_dec F1 x1 then ((x0 - (x1 - F1))%R, F1) else (x0, x1).

(** The scale factor of a wheel event. *)
Definition wheelScale (dy : number) : R :=
  if dy >? #0 then exp (1 * 0.2) else exp (-1 * 0.2).

(** The time of a point as a real, the window test and the distance the
    crosshair loop compares, for points whose time is a finite number. *)
Definition timeOf (p : PricePoint) : R :=
  match time p with
  | Fin r => r
  | _ => 0%R
  end.

Definition finiteTime (p : PricePoint) : Prop := exists r, time p = #r.

Definition inWindow (a0 a1 : R) (p : PricePoint) : Prop :=
  (a0 <= timeOf p <= a1)%R.

Definition distanceTo (ts : R) (p : PricePoint) : R := Rabs (timeOf p - ts).

(** What the loop has established after the points [seen]: either no seen
    point is in the window and the state is the initial one, or the state
    holds the first seen point of least distance among those in the
    window. *)
Definition crosshairInv (a0 a1 ts : R) (p0 : PricePoint)
    (seen : list PricePoint) (st : PricePoint * number) : Prop :=
  (st = (p0, PosInf) /\ Forall (fun q => ~ inWindow a0 a1 q) seen)
  \/ (exists before after,
        seen = before ++ fst st :: after
        /\ inWindow a0 a1 (fst st)
        /\ snd st = #(distanceTo ts (fst st))
        /\ Forall (fun q => inWindow a0 a1 q ->
                            (distanceTo ts (fst st) < distanceTo ts q)%R) before
        /\ Forall (fun q => inWindow a0 a1 q ->
                            (distanceTo ts (fst st) <= distanceTo ts q)%R) after).

(** ** Closed instances *)

(** Two points one plot-width of milliseconds apart, and the view after
    the first render: no domain override, no drag, no crosshair. *)
Definition exampleSeries : list PricePoint :=
  [mkPoint #0 #100; mkPoint #1070 #120].

Definition idleView : Viewport.ViewState :=
  Viewport.mkView None false None None.

Definition plainChart : Chart.ChartGeometry :=
  Chart.mkGeometry "" [] [] [] (fun t => t) (fun v => v) None #0.

(** ** The simulator on finite numbers *)

(** The price of a point as a real, for points whose value is finite. *)
Definition valueOf (p : PricePoint) : R :=
  match value p with
  | Fin r => r
  | _ => 0%R
  end.

Definition finiteValue (p : PricePoint) : bool := isFinite (value p).

(** One step of the loop on finite numbers: the factor by which the
    running value is multiplied, from the previous and the current price. *)
Definition stepFactor (k prev curr : R) : R :=
  if Req_dec_T prev 0 then 1%R else (1 + k * ((curr - prev) / prev))%R.

(** The loop and the simulator on finite numbers, as functions on reals. *)
Fixpoint compoundR (k prev b : R) (rest : list PricePoint) : list R :=
  match rest with
  | [] => []
  | p :: rest' =>
      let b' := (b * stepFactor k prev (valueOf p))%R in
      b' :: compoundR k (valueOf p) b' rest'
  end.

Definition syntheticR (k b : R) (spx : list PricePoint) : list R :=
  match spx with
  | [] => []
  | p0 :: rest => b :: compoundR k (valueOf p0) b rest
  end.

(** A price of moderate size: 0, or of magnitude between 1e-100 and
    1e100.  The return between two such prices is within the range of the
    doubles. *)
Definition moderate (p : PricePoint) : Prop :=
  exists r, value p = #r /\ (r = 0 \/ 1e-100 <= Rabs r <= 1e100)%R.

(** Every step of the series from a price other than 0 moves the price
    by at most [rho] times its magnitude. *)
Definition stepsWithin (rho : R) (spx : list PricePoint) : Prop :=
  forall i p q,
    nth_error spx i = Some p -> nth_error spx (S i) = Some q ->
    valueOf p <> 0%R ->
    (Rabs (valueOf q - valueOf p) <= rho * Rabs (valueOf p))%R.

(** No price is less than half or more than twice the one before. *)
Definition steady (spx : list PricePoint) : Prop :=
  forall i p q,
    nth_error spx i = Some p -> nth_error spx (S i) = Some q ->
    (valueOf p / 2 <= valueOf q <= 2 * valueOf p)%R.

(** ** The client's fetcher [fetchYahooSPX] *)

Module Client.

(** An element of [j.series] as the fetcher reads it: [null] or
    [undefined], whose properties cannot be read, or anything else, of
    which the fetcher reads [p.time] and [p.value] ([undefined] when the
    property is missing). *)
Inductive Element : Type :=
| Nullish
| Obj (time value : jsval).

(** What the fetcher reads of the answer of [/api/spx]: [r.ok] is false,
    or the body is [j] with [j.series] an array or not. *)
Inductive Answer : Type :=
| Failed (status : nat)
| Body (series : option (list Element)).

(** [p => ({ time: p.time, value: p.value })] *)
Definition readPoint (p : Element) : completion (jsval * jsval) :=
  match p with
  | Nullish => Throws
  | Obj t v => Normal (t, v)
  end.

Fixpoint mapPoints (series : list Element)
    : completion (list (jsval * jsval)) :=
  match series with
  | [] => Normal []
  | p :: rest =>
      let* q := readPoint p in
      let* qs := mapPoints rest in
      Normal (q :: qs)
  end.

(** [Number.isFinite(p.value) && typeof p.time === "number"] *)
Definition sane (p : jsval * jsval) : bool :=
  Number_isFinite (snd p) && typeof_is_number (fst p).

(** A point that passed the filter, read as a price point. *)
Definition asPricePoint (p : jsval * jsval) : PricePoint :=
  match p with
  | (VNumber t, VNumber v) => mkPoint t v
  | _ => mkPoint NaN NaN
  end.

(** [fetchYahooSPX(range, interval)], from the answer on: a rejected
    promise is [Throws]. *)
Definition fetchYahooSPX (answer : Answer) : completion (list PricePoint) :=
  match answer with
  | Failed _ => Throws
  | Body None => Throws
  | Body (Some series) =>
      let* points := mapPoints series in
      Normal (map asPricePoint (filter sane points))
  end.

End Client.

(** ** From the proxy to the client: the JSON body

    [res.json(...)] writes the body with [JSON.stringify], which writes a
    number that is not finite as [null] and leaves out a property whose
    value is [undefined]; the client's [r.ok] holds for the statuses 200 to
    299. *)

Module Wire.

(** What the proxy's multiplication makes of an element of the upstream
    [timestamp] array before it multiplies (ToNumber): a number is itself,
    [null] is 0, a boolean 0 or 1, and a string what [Number] makes of
    it.  These are the numbers [Proxy.timestamp] holds. *)
Definition timestampOf (toNumber : string -> number) (t : jsval) : number :=
  match t with
  | VUndefined => NaN
  | VNull => #0
  | VBool b => if b then #1 else #0
  | VNumber n => n
  | VString s => toNumber s
  end.

Definition jsonNumber (n : number) : jsval :=
  if isFinite n then VNumber n else VNull.

Definition jsonValue (v : jsval) : jsval :=
  match v with
  | VNumber n => jsonNumber n
  | _ => v
  end.

Definition jsonPoint (p : Proxy.RawPoint) : Client.Element :=
  Client.Obj (jsonNumber (Proxy.raw_time p)) (jsonValue (Proxy.raw_value p)).

(** The answer the client sees for a response of the proxy. *)
Definition deliver (r : Proxy.Response) : Client.Answer :=
  if ((200 <=? Proxy.status r) && (Proxy.status r <=? 299))%nat then
    match Proxy.body r with
    | Proxy.SeriesBody series => Client.Body (Some (map jsonPoint series))
    | Proxy.ErrorBody _ _ => Client.Body None
    end
  else Client.Failed (Proxy.status r).

End Wire.

(** ** The component's data flow *)

Module Component.

Local Open Scope string_scope.
Local Open Scope num_scope.

(** [!startTs], for a [startTs] that is [undefined] ([None]) or a number. *)
Definition noStart (startTs : option number) : bool :=
  match startTs with
  | None => true
  | Some ts => negb (truthy ts)
  end.

(** The [range] the fetch effect asks the proxy for. *)
Definition requestRange (interval : string) (startTs : option number)
    (now : number) : string :=
  if (interval =? "1") || (interval =? "5") || (interval =? "15")
     || (interval =? "60")
  then "5d"
  else
    match startTs with
    | Some ts =>
        if noStart startTs then "10y"
        else
          let diffYears := (now - ts) / #(365 * 24 * 60 * 60 * 1000) in
          if diffYears >? #10 then "max"
          else if diffYears >? #5 then "10y"
          else if diffYears >? #2 then "5y"
          else "2y"
    | None => "10y"
    end.

(** [filteredData]: the function passed to [useMemo]. *)
Definition filteredData (rawData : list PricePoint) (startTs : option number)
    : list PricePoint :=
  match rawData, startTs with
  | [], _ => rawData
  | _ :: _, None => rawData
  | first :: _, Some ts =>
      if noStart startTs then rawData
      else
        let minTs := time first in
        let maxTs := time (List.last rawData first) in
        if ts >? maxTs then []
        else
          let effectiveStart := Math_max ts minTs in
          filter (fun p => time p >=? effectiveStart) rawData
  end.

(** [synth] *)
Definition synth (filteredData : list PricePoint) (leverage : number)
    (baseValue : number) : list PricePoint :=
  Simulator.buildSyntheticSeries filteredData leverage (VNumber baseValue).

(** The first of the component's runtime tests,
    [console.assert(xTicks.length >= 2, ...)]: it is evaluated at every
    render, whatever the series holds, and [false] is a failed
    assertion. *)
Definition ticksAsserted (chart : Chart.ChartGeometry) : bool :=
  (2 <=? length (Chart.xTicks chart))%nat.

End Component.

(** The order of a series sorted by time, for points whose time is
    finite. *)
Definition byTime (p q : PricePoint) : Prop := (timeOf p <= timeOf q)%R.

(** ** The leverage presets *)

Module Presets.

Local Open Scope string_scope.

(** The text of a non-negative integer, as string concatenation writes
    it: its decimal digits. *)
Definition decimal (k : nat) : string :=
  NilEmpty.string_of_uint (Nat.to_uint k).

Record PresetOption : Type := mkOption {
  opt_label : string;
  opt_value : string
}.

(** [buildSyntheticOptions()] *)
Definition buildSyntheticOptions : list PresetOption :=
  (map (fun k => mkOption ("+" ++ decimal k ++ "x SPX")
                          ("SYNTHETIC:+" ++ decimal k))
       (seq 1 10)
   ++ map (fun k => mkOption ("-" ++ decimal k ++ "x SPX")
                             ("SYNTHETIC:-" ++ decimal k))
          (seq 1 10))%list.

(** [s.indexOf(pattern)] *)
Definition indexOf (s pattern : string) : Z :=
  match index 0 pattern s with
  | Some n => Z.of_nat n
  | None => (-1)%Z
  end.

(** [s.split(sep)] for a separator of one character. *)
Fixpoint split (sep : ascii) (s : string) : list string :=
  match s with
  | EmptyString => [EmptyString]
  | String c s' =>
      if Ascii.eqb c sep then EmptyString :: split sep s'
      else
        match split sep s' with
        | seg :: segs => String c seg :: segs
        | [] => [String c EmptyString]
        end
  end.

(** [s.replace(c, "")] for a pattern of one character: the first
    occurrence is removed. *)
Fixpoint removeFirst (c : ascii) (s : string) : string :=
  match s with
  | EmptyString => EmptyString
  | String a s' => if Ascii.eqb a c then s' else String a (removeFirst c s')
  end.

(** [isSynthetic(value)] *)
Definition isSynthetic (value : jsval) : bool :=
  match value with
  | VString s => (indexOf s "SYNTHETIC:" =? 0)%Z
  | _ => false
  end.

(** [parseLeverage(value)]; [None] is [null].  [toNumber] is the runtime's
    [Number] on strings. *)
Definition parseLeverage (toNumber : string -> number) (value : jsval)
    : option number :=
  if negb (isSynthetic value) then None
  else
    match value with
    | VString s =>
        let sign := if negb (indexOf s ":-" =? -1)%Z then #(-1) else #1 in
        let raw :=
          match nth_error (split ":" s) 1 with
          | Some segment => segment
          | None => ""
          end in
        let raw := removeFirst "-" (removeFirst "+" raw) in
        let n := toNumber raw in
        if negb (isFinite n) then None else Some (sign * n)%num
    | _ => None
    end.

(** [parseLeverage(preset) || 1] *)
Definition leverage (toNumber : string -> number) (preset : jsval) : number :=
  match parseLeverage toNumber preset with
  | Some n => if truthy n then n else #1
  | None => #1
  end.

(** [toYMode(v)] *)
Definition toYMode (v : string) : string :=
  if (v =? "log") || (v =? "percent") || (v =? "linear") then v else "linear".

(** [Number] on the decimal digits of a non-negative integer; NaN stands
    for every other text. *)
Definition decimalToNumber (s : string) : number :=
  match NilEmpty.uint_of_string s with
  | Some d => #(INR (Nat.of_uint d))
  | None => NaN
  end.

(** No character of [s] is [c]. *)
Fixpoint without (c : ascii) (s : string) : bool :=
  match s with
  | EmptyString => true
  | String a s' => negb (Ascii.eqb a c) && without c s'
  end.

End Presets.

(** ** The demo series [buildDemoSPX]

    The clock and the random source are the runtime's: [now] is the value
    of [Date.now()] and [random i] the result of the call of
    [Math.random()] in the iteration [i]. *)

Module Demo.

Definition Math_sin (a : number) : number :=
  match a with
  | Fin r => Fin (sin r)
  | _ => NaN
  end.

(** The loop from the index [i] on, [count] iterations being left. *)
Fixpoint demoLoop (start : number) (random : nat -> R) (i count : nat)
    (price : number) : list PricePoint :=
  match count with
  | O => []
  | S count' =>
      let drift := #0.0002 in
      let shock := (Math_sin (#(INR i) / #12) + #(random i) - #0.5) * #5 in
      let price' := Math_max #1 (price * (#1 + drift) + shock) in
      mkPoint (start + #(INR i) * #60 * #60 * #1000) price'
      :: demoLoop start random (S i) count' price'
  end.

(** [buildDemoSPX(n)]; [None] is a call without argument. *)
Definition buildDemoSPX (now : number) (random : nat -> R) (n : option nat)
    : list PricePoint :=
  let n :=
    match n with
    | Some (S m) => S m
    | _ => 240%nat
    end in
  let price := #4500 in
  let start := now - #(INR n) * #60 * #60 * #1000 in
  demoLoop start random 0 n price.

End Demo.

(** ** Labels and ticks on finite numbers *)

(** The positions the labelling loop keeps, on finite numbers: [last] is
    the position of the last label, if there is one. *)
Fixpoint keptPositions (last : option R) (xs : list R) : list R :=
  match xs with
  | [] => []
  | x :: xs' =>
      match last with
      | Some l =>
          if Rle_dec 80 (x - l) then x :: keptPositions (Some x) xs'
          else keptPositions last xs'
      | None => x :: keptPositions (Some x) xs'
      end
  end.

(** Consecutive elements are at least [gap] apart. *)
Definition spaced (gap : R) (xs : list R) : Prop :=
  forall i x x',
    nth_error xs i = Some x -> nth_error xs (S i) = Some x' ->
    (gap <= x' - x)%R.

(** [lastLabeledX]: minus infinity before the first label. *)
Definition lastNumber (last : option R) : number :=
  match last with
  | Some l => #l
  | None => NegInf
  end.

(** The step [addInterval] adds for a token other than ["M"], as an
    integer. *)
Definition stepOf (interval : string) : Z :=
  if (interval =? "1")%string then 60000
  else if (interval =? "5")%string then 300000
  else if (interval =? "15")%string then 900000
  else if (interval =? "60")%string then 3600000
  else if (interval =? "D")%string then 86400000
  else if (interval =? "W")%string then 604800000
  else 86400000.

(** An upper bound of the length of one interval, in milliseconds: the
    step of [addInterval], and 31 days for a month. *)
Definition longestStep (interval : string) : Z :=
  if (interval =? "M")%string then (31 * 86400000)%Z else stepOf interval.

(** The variable [t] of the tick loop after [n] iterations, from its
    first value: [n] steps of [addInterval]. *)
Fixpoint advance (interval : string) (n : nat) (t : number) : number :=
  match n with
  | O => t
  | S n' => advance interval n' (Chart.addInterval t interval)
  end.

(** What the tick loop keeps true of its variable [t]: it is NaN, or an
    integral timestamp not before the range of dates that the alignment
    leaves in place when it is within the range. *)
Definition tickInv (interval : string) (t : number) : Prop :=
  t = NaN
  \/ exists u, t = #(IZR u) /\ (- DateObj.maxTime <= u)%Z
               /\ ((u <= DateObj.maxTime)%Z ->
                   Chart.alignDate interval (Some u) = Some u).

(* ================================================================== *)
(** * Part II.  Properties                                              *)
(* ================================================================== *)

(** ** Numbers *)

Section NumberFacts.

Local Open Scope R_scope.

Lemma Rzero_false (r : R) : r <> 0 -> Rzero r = false.
Proof. intros H. unfold Rzero. destruct (Req_dec_T r 0); congruence. Qed.

Lemma Rneg_false (r : R) : 0 <= r -> Rneg r = false.
Proof. intros H. unfold Rneg. destruct (Rlt_dec r 0); [lra | reflexivity]. Qed.

Lemma lt_Fin (a b : R) : (#a <? #b)%num = true <-> a < b.
Proof.
  simpl. destruct (Rlt_dec a b); split; intros; try easy.
Qed.

Lemma lt_Fin_false (a b : R) : (#a <? #b)%num = false <-> b <= a.
Proof.
  simpl. destruct (Rlt_dec a b); split; intros; try easy; lra.
Qed.

Lemma strictEq_Fin (a b : R) : (#a === #b)%num = true <-> a = b.
Proof.
  simpl. destruct (Req_dec_T a b); split; intros; try easy.
Qed.

Lemma le_Fin (a b : R) : (#a <=? #b)%num = true <-> a <= b.
Proof.
  unfold le. rewrite orb_true_iff, lt_Fin, strictEq_Fin. lra.
Qed.

Lemma div_Fin (a b : R) : b <> 0 -> (#a / #b)%num = #(a / b).
Proof. intros H. simpl. now rewrite Rzero_false. Qed.

Lemma Math_max_Fin (a b : R) : Math_max #a #b = #(Rmax a b).
Proof.
  unfold Math_max. simpl. unfold Rmax.
  destruct (Rlt_dec a b), (Rle_dec a b); try reflexivity; try lra;
    f_equal; lra.
Qed.

Lemma Math_min_Fin (a b : R) : Math_min #a #b = #(Rmin a b).
Proof.
  unfold Math_min. simpl. unfold Rmin.
  destruct (Rlt_dec b a), (Rle_dec a b); try reflexivity; try lra;
    f_equal; lra.
Qed.


(** Within its thresholds [Math.exp] is the exponential. *)
Lemma Math_exp_Fin (r : R) :
  -745 <= r <= 709 -> Math_exp #r = #(exp r).
Proof.
  intros Hr. cbn [Math_exp].
  destruct (Rlt_dec 709.78271289338402 r); [lra |].
  destruct (Rlt_dec r (-745.13321910194116)); [lra | reflexivity].
Qed.

(** The falsy numbers are exactly 0 and NaN. *)
Lemma truthy_false_iff (x : number) : truthy x = false <-> x = #0 \/ x = NaN.
Proof.
  destruct x as [| s | r]; simpl.
  - split; auto.
  - split; [discriminate | intros [H | H]; discriminate].
  - unfold Rzero. destruct (Req_dec_T r 0) as [-> | Hr]; simpl.
    + split; auto.
    + split; [discriminate | intros [H | H]; [inversion H; lra | discriminate]].
Qed.

End NumberFacts.

(** ** The leverage simulator *)

Section SimulatorFacts.

Import Simulator.

Lemma compound_length k prevPoint base rest :
  length (compound k prevPoint base rest) = length rest.
Proof.
  revert prevPoint base. induction rest as [| p rest IH]; intros; simpl.
  - reflexivity.
  - now rewrite IH.
Qed.

Lemma compound_times k prevPoint base rest :
  map time (compound k prevPoint base rest) = map time rest.
Proof.
  revert prevPoint base. induction rest as [| p rest IH]; intros; simpl.
  - reflexivity.
  - now rewrite IH.
Qed.

(** Consecutive outputs of the loop are related by the compounding step,
    wherever the two indices fall. *)
Lemma compound_step k rest : forall prevPoint base i p q,
  nth_error (prevPoint :: rest) i = Some p ->
  nth_error (prevPoint :: rest) (S i) = Some q ->
  exists o o',
    nth_error (mkPoint (time prevPoint) base :: compound k prevPoint base rest) i
      = Some o
    /\ nth_error (mkPoint (time prevPoint) base :: compound k prevPoint base rest) (S i)
      = Some o'
    /\ value o' =
       value o * (#1 + k * (if truthy (value p)
                            then (value q - value p) / value p else #0)).
Proof.
  induction rest as [| p1 rest IH]; intros prevPoint base i p q Hp Hq.
  - destruct i; simpl in Hq; [discriminate | destruct i; discriminate].
  - destruct i as [| i].
    + simpl in Hp, Hq. inversion Hp; inversion Hq; subst.
      simpl. eexists; eexists. repeat split.
    + simpl in Hp. change (nth_error (p1 :: rest) (S i) = Some q) in Hq.
      destruct (IH p1 (base * (#1 + k * (if truthy (value prevPoint)
                  then (value p1 - value prevPoint) / value prevPoint else #0)))
                  i p q Hp Hq) as (o & o' & Ho & Ho' & Hv).
      exists o, o'. repeat split; assumption.
Qed.

(** C1.  [buildSyntheticSeries(series, k, b)] with a numeric base [b]
    returns a series of the same length and with the same timestamps; its
    first value is [b] itself; every later value is the previous output
    value times [1 + k * r], [r] being the simple return of the two input
    prices, taken as 0 when the earlier price is falsy (0 or NaN).  The
    prices 100, 110, 99 with leverage 2 and base 100 give 100, 120, 96, and
    the empty series gives the empty series. *)
Theorem buildSyntheticSeries_compounds :
  forall (spx : list PricePoint) (k b : number),
    let out := buildSyntheticSeries spx k (VNumber b) in
    length out = length spx
    /\ map time out = map time spx
    /\ (spx <> [] -> option_map value (nth_error out 0) = Some b)
    /\ (forall i p q,
          nth_error spx i = Some p -> nth_error spx (S i) = Some q ->
          exists o o',
            nth_error out i = Some o /\ nth_error out (S i) = Some o'
            /\ value o' =
               value o * (#1 + k * (if truthy (value p)
                                    then (value q - value p) / value p
                                    else #0)))
    /\ (forall x, truthy x = false <-> x = #0 \/ x = NaN)
    /\ (forall t0 t1 t2,
          map value
            (buildSyntheticSeries
               [mkPoint t0 #100; mkPoint t1 #110; mkPoint t2 #99] #2
               (VNumber #100))
          = [#100; #120; #96])
    /\ buildSyntheticSeries [] k (VNumber b) = [].
Proof.
  intros spx k b out. subst out.
  split; [| split; [| split; [| split; [| split; [| split]]]]].
  - destruct spx as [| p0 rest]; simpl; [reflexivity |].
    now rewrite compound_length.
  - destruct spx as [| p0 rest]; simpl; [reflexivity |].
    now rewrite compound_times.
  - intros Hne. destruct spx as [| p0 rest]; [contradiction | reflexivity].
  - intros i p q Hp Hq. destruct spx as [| p0 rest].
    + destruct i; discriminate.
    + unfold buildSyntheticSeries. now apply compound_step.
  - apply truthy_false_iff.
  - intros t0 t1 t2. simpl. unfold Rzero.
    destruct (Req_dec_T 100 0) as [H | _]; [lra |].
    destruct (Req_dec_T 110 0) as [H | _]; [lra |].
    simpl. repeat f_equal; field.
  - reflexivity.
Qed.

(** C7 (as the code has it).  A base that is not of number type is replaced
    by the default 100, not by 0: the result is the one for base 100, and
    the first output value of a non-empty series is 100. *)
Theorem buildSyntheticSeries_default_base :
  forall (spx : list PricePoint) (k : number) (base : jsval),
    typeof_is_number base = false ->
    buildSyntheticSeries spx k base = buildSyntheticSeries spx k (VNumber #100)
    /\ (spx <> [] ->
        option_map value (nth_error (buildSyntheticSeries spx k base) 0)
        = Some #100).
Proof.
  intros spx k base Hty.
  assert (E : buildSyntheticSeries spx k base
              = buildSyntheticSeries spx k (VNumber #100)).
  { destruct base; try discriminate; reflexivity. }
  split; [exact E |].
  intros Hne. rewrite E. destruct spx; [contradiction | reflexivity].
Qed.

Lemma buildSyntheticSeries_default_base_witness :
  typeof_is_number (VString "abc") = false
  /\ buildSyntheticSeries [mkPoint #0 #4500; mkPoint #1 #4510] #3 (VString "abc")
     = buildSyntheticSeries [mkPoint #0 #4500; mkPoint #1 #4510] #3 (VNumber #100).
Proof.
  split; [reflexivity |].
  apply (buildSyntheticSeries_default_base
           [mkPoint #0 #4500; mkPoint #1 #4510] #3 (VString "abc")).
  reflexivity.
Defined.

(** C7 as stated fails: with [undefined] for the base, the first value of
    a one-point series is 100 and not 0. *)
Lemma nonnumeric_base_is_not_zero :
  typeof_is_number VUndefined = false
  /\ option_map value
       (nth_error (buildSyntheticSeries [mkPoint #0 #4500] #2 VUndefined) 0)
     <> Some #0.
Proof.
  split; [reflexivity |].
  simpl. intros H. inversion H. lra.
Qed.

End SimulatorFacts.

(** ** The proxy *)

Section ProxyFacts.

Import Proxy.

Lemma closeAt_app (pre close : list jsval) (c : jsval) :
  closeAt (pre ++ c :: close) (length pre) = c.
Proof.
  unfold closeAt. rewrite app_nth2, Nat.sub_diag; [reflexivity | lia].
Qed.

(** With arrays of the same length, [ts.map((t, i) => ...)] pairs every
    timestamp with the close at its own index. *)
Lemma mapIndexed_combine (ts : list number) : forall (pre close : list jsval),
  length ts = length close ->
  mapIndexed (pre ++ close) (length pre) ts = map pointOf (combine ts close).
Proof.
  induction ts as [| t ts IH]; intros pre close Hlen.
  - reflexivity.
  - destruct close as [| c close]; [discriminate |].
    simpl. rewrite closeAt_app. f_equal.
    replace (pre ++ c :: close) with ((pre ++ [c]) ++ close)
      by now rewrite <- app_assoc.
    replace (S (length pre)) with (length (pre ++ [c]))
      by (rewrite length_app; simpl; lia).
    apply IH. now inversion Hlen.
Qed.

Lemma filter_map_commute {A B : Type} (f : A -> B) (p : B -> bool) (l : list A) :
  filter p (map f l) = map f (filter (fun a => p (f a)) l).
Proof.
  induction l as [| a l IH]; simpl; [reflexivity |].
  destruct (p (f a)); simpl; now rewrite IH.
Qed.

(** C9.  Given parallel arrays of timestamps (seconds) and closes, the
    proxy answers 200 with the series that pairs each timestamp times 1000
    with the close of the same index, in the original order, the pairs
    whose close is not a finite number being dropped.  Timestamps 1000 and
    2000 with closes 50 and NaN give the single point (1000000, 50). *)
Theorem handler_series :
  (forall (ts : list number) (close : list jsval),
     length ts = length close ->
     handler (Json (mkPayload (Some ts) (Some close)))
     = mkResponse 200
         (SeriesBody
            (map (fun tc => mkRaw (fst tc * #1000) (snd tc))
                 (filter (fun tc => Number_isFinite (snd tc))
                         (combine ts close)))))
  /\ handler (Json (mkPayload (Some [#1000; #2000])
                              (Some [VNumber #50; VNumber NaN])))
     = mkResponse 200 (SeriesBody [mkRaw #1000000 (VNumber #50)]).
Proof.
  split.
  - intros ts close Hlen.
    pose proof (mapIndexed_combine ts [] close Hlen) as E. simpl in E.
    unfold handler, buildSeries. simpl. rewrite E.
    unfold pointOf. now rewrite filter_map_commute.
  - unfold handler, buildSeries. simpl. repeat f_equal. lra.
Qed.

Lemma handler_series_witness :
  length [#1000; #2000] = length [VNumber #50; VNumber NaN]
  /\ handler (Json (mkPayload (Some [#1000; #2000])
                              (Some [VNumber #50; VNumber NaN])))
     = mkResponse 200
         (SeriesBody
            (map (fun tc => mkRaw (fst tc * #1000) (snd tc))
                 (filter (fun tc => Number_isFinite (snd tc))
                         (combine [#1000; #2000] [VNumber #50; VNumber NaN])))).
Proof.
  split; [reflexivity |].
  apply (proj1 handler_series [#1000; #2000] [VNumber #50; VNumber NaN]).
  reflexivity.
Defined.

End ProxyFacts.

(** ** Dates and interval alignment *)

Section DateFacts.

Import DateObj Chart.
Local Open Scope Z_scope.

Lemma DayFromYear_step y : 365 <= DayFromYear (y + 1) - DayFromYear y <= 366.
Proof. unfold DayFromYear. Z.div_mod_to_equations; lia. Qed.

(** The day numbers of two consecutive new years differ by the length of
    the year between them. *)
Lemma DayFromYear_DaysInYear y :
  DayFromYear (y + 1) - DayFromYear y = DaysInYear y.
Proof.
  unfold DayFromYear, DaysInYear.
  destruct (Z.eqb_spec (y mod 4) 0), (Z.eqb_spec (y mod 100) 0),
           (Z.eqb_spec (y mod 400) 0); cbn [negb];
    Z.div_mod_to_equations; lia.
Qed.

Lemma DayFromYear_mono y y' : y < y' -> DayFromYear y < DayFromYear y'.
Proof. unfold DayFromYear. intros. Z.div_mod_to_equations; lia. Qed.

(** [YearFromDay] meets its specification: it is the year whose first day
    is the last one not after [d]. *)
Lemma YearFromDay_spec d :
  DayFromYear (YearFromDay d) <= d < DayFromYear (YearFromDay d + 1).
Proof.
  unfold YearFromDay.
  set (y0 := 1970 + d * 400 / 146097).
  assert (H1 : DayFromYear (y0 - 1) <= d)
    by (unfold DayFromYear, y0; Z.div_mod_to_equations; lia).
  assert (H2 : d < DayFromYear (y0 + 2))
    by (unfold DayFromYear, y0; Z.div_mod_to_equations; lia).
  destruct (Z.leb_spec (DayFromYear (y0 + 1)) d).
  - replace (y0 + 1 + 1) with (y0 + 2) by lia. lia.
  - destruct (Z.leb_spec (DayFromYear y0) d).
    + lia.
    + replace (y0 - 1 + 1) with y0 by lia. lia.
Qed.

Lemma YearFromDay_unique d y :
  DayFromYear y <= d < DayFromYear (y + 1) -> YearFromDay d = y.
Proof.
  intros H. pose proof (YearFromDay_spec d) as S.
  destruct (Z.lt_trichotomy (YearFromDay d) y) as [L | [E | G]]; [| exact E |].
  - assert (DayFromYear (YearFromDay d + 1) <= DayFromYear y).
    { destruct (Z.eq_dec (YearFromDay d + 1) y) as [-> | N]; [lia |].
      apply Z.lt_le_incl, DayFromYear_mono. lia. }
    lia.
  - assert (DayFromYear (y + 1) <= DayFromYear (YearFromDay d)).
    { destruct (Z.eq_dec (y + 1) (YearFromDay d)) as [-> | N]; [lia |].
      apply Z.lt_le_incl, DayFromYear_mono. lia. }
    lia.
Qed.

Lemma monthOfDay_range l d : 0 <= monthOfDay l d <= 11.
Proof. unfold monthOfDay. repeat (destruct (_ <? _); [lia |]). lia. Qed.

Lemma monthStart_range l m : 0 <= l <= 1 -> 0 <= monthStart l m <= 335.
Proof. intros. unfold monthStart. repeat (destruct (_ =? _); [lia |]). lia. Qed.

Lemma monthOfDay_monthStart l m :
  0 <= l <= 1 -> 0 <= m <= 11 -> monthOfDay l (monthStart l m) = m.
Proof.
  intros Hl Hm.
  assert (Hc : m = 0 \/ m = 1 \/ m = 2 \/ m = 3 \/ m = 4 \/ m = 5 \/ m = 6
               \/ m = 7 \/ m = 8 \/ m = 9 \/ m = 10 \/ m = 11) by lia.
  assert (Hl' : l = 0 \/ l = 1) by lia.
  destruct Hl' as [-> | ->];
    repeat (destruct Hc as [-> | Hc]; [reflexivity |]); subst; reflexivity.
Qed.

Lemma InLeapYear_range t : 0 <= InLeapYear t <= 1.
Proof. unfold InLeapYear. destruct (_ =? _); lia. Qed.

Lemma Day_MakeDate d w : 0 <= w < msPerDay -> Day (MakeDate d w) = d.
Proof.
  unfold Day, MakeDate, msPerDay. intros. Z.div_mod_to_equations; lia.
Qed.

Lemma TimeWithinDay_range t : 0 <= TimeWithinDay t < msPerDay.
Proof. unfold TimeWithinDay, msPerDay. Z.div_mod_to_equations; lia. Qed.

(** [MakeDay] on the year and month of [t] itself: no carry into the year. *)
Lemma MakeDay_same_month t date :
  MakeDay (YearFromTime t) (MonthFromTime t) date
  = DayFromYear (YearFromTime t)
    + monthStart (InLeapYear t) (MonthFromTime t) + date - 1.
Proof.
  pose proof (monthOfDay_range (InLeapYear t) (DayWithinYear t)) as Hm.
  unfold MakeDay. fold (MonthFromTime t) in Hm.
  rewrite Z.div_small, Z.mod_small, Z.add_0_r by lia.
  reflexivity.
Qed.

(** Setting the day of the month moves the date by whole days. *)
Lemma setUTCDate_shift t k :
  setUTCDate (Some t) (DateFromTime t - k)
  = TimeClip (MakeDate (Day t - k) (TimeWithinDay t)).
Proof.
  unfold setUTCDate. rewrite MakeDay_same_month.
  f_equal. f_equal. unfold DateFromTime, DayWithinYear. lia.
Qed.

(** The first day of the month of [t], and what the calendar says of it. *)
Lemma first_of_month t :
  let d1 := MakeDay (YearFromTime t) (MonthFromTime t) 1 in
  let u := MakeDate d1 0 in
  YearFromTime u = YearFromTime t
  /\ MonthFromTime u = MonthFromTime t
  /\ Day u = d1 /\ TimeWithinDay u = 0.
Proof.
  intros d1 u.
  pose proof (InLeapYear_range t) as Hl.
  pose proof (monthOfDay_range (InLeapYear t) (DayWithinYear t)) as Hm.
  fold (MonthFromTime t) in Hm.
  pose proof (monthStart_range (InLeapYear t) (MonthFromTime t) Hl) as Hs.
  pose proof (DayFromYear_step (YearFromTime t)) as Hstep.
  assert (Hd1 : d1 = DayFromYear (YearFromTime t)
                     + monthStart (InLeapYear t) (MonthFromTime t)).
  { unfold d1. rewrite MakeDay_same_month. lia. }
  assert (Hday : Day u = d1).
  { unfold u. apply Day_MakeDate. unfold msPerDay. lia. }
  assert (Hy : YearFromTime u = YearFromTime t).
  { unfold YearFromTime at 1. rewrite Hday. apply YearFromDay_unique. lia. }
  assert (Hleap : InLeapYear u = InLeapYear t).
  { unfold InLeapYear. now rewrite Hy. }
  repeat split.
  - exact Hy.
  - unfold MonthFromTime at 1. rewrite Hleap.
    unfold DayWithinYear. rewrite Hday, Hy, Hd1.
    replace (DayFromYear (YearFromTime t)
             + monthStart (InLeapYear t) (MonthFromTime t)
             - DayFromYear (YearFromTime t))
      with (monthStart (InLeapYear t) (MonthFromTime t)) by lia.
    now apply monthOfDay_monthStart.
  - exact Hday.
  - unfold u, TimeWithinDay, MakeDate, msPerDay. Z.div_mod_to_equations; lia.
Qed.

Lemma TimeClip_valid x : valid (TimeClip x).
Proof.
  unfold TimeClip. destruct (Z.leb_spec (Z.abs x) maxTime); simpl; auto.
Qed.

Lemma TimeClip_Some x u : TimeClip x = Some u -> u = x /\ Z.abs x <= maxTime.
Proof.
  unfold TimeClip. destruct (Z.leb_spec (Z.abs x) maxTime); intros E;
    inversion E; subst; split; [reflexivity | assumption].
Qed.

Lemma TimeClip_in_range x : Z.abs x <= maxTime -> TimeClip x = Some x.
Proof.
  intros H. unfold TimeClip. destruct (Z.leb_spec (Z.abs x) maxTime); [reflexivity | lia].
Qed.

Lemma truncate_IZR (z : Z) : truncate (IZR z) = z.
Proof.
  unfold truncate. destruct (Rle_dec 0 (IZR z)).
  - symmetry. apply Int_part_spec. lra.
  - rewrite <- opp_IZR. rewrite <- (Int_part_spec (IZR (- z)) (- z)); [lia | lra].
Qed.

(** Reading back the time of a valid date gives the date again. *)
Lemma newDate_getTime (d : Date) : valid d -> newDate (getTime d) = d.
Proof.
  destruct d as [t |]; simpl; [| reflexivity].
  intros Hv. rewrite truncate_IZR.
  destruct (Rle_dec (Rabs (IZR t)) (IZR maxTime)) as [_ | N]; [reflexivity |].
  exfalso. apply N. rewrite Rabs_Zabs. now apply IZR_le.
Qed.

Lemma setUTCHours_valid d h m s ms : valid (setUTCHours d h m s ms).
Proof. destruct d; simpl; [apply TimeClip_valid | exact I]. Qed.

Lemma setUTCMinutes_valid d m s ms : valid (setUTCMinutes d m s ms).
Proof. destruct d; simpl; [apply TimeClip_valid | exact I]. Qed.

Lemma setUTCSeconds_valid d s ms : valid (setUTCSeconds d s ms).
Proof. destruct d; simpl; [apply TimeClip_valid | exact I]. Qed.

Lemma newDate_valid ts : valid (newDate ts).
Proof.
  destruct ts as [| s | r]; simpl; try exact I.
  destruct (Rle_dec (Rabs r) (IZR maxTime)) as [Hr | _]; simpl; [| exact I].
  unfold truncate. destruct (Rle_dec 0 r) as [Hp | Hn].
  - pose proof (base_Int_part r) as [B1 B2].
    rewrite Rabs_pos_eq in Hr by lra.
    assert (-1 < Int_part r) by (apply lt_IZR; lra).
    assert (Int_part r <= maxTime) by (apply le_IZR; lra).
    lia.
  - pose proof (base_Int_part (- r)) as [B1 B2].
    rewrite Rabs_left in Hr by lra.
    assert (-1 < Int_part (- r)) by (apply lt_IZR; lra).
    assert (Int_part (- r) <= maxTime) by (apply le_IZR; lra).
    lia.
Qed.

(** *** Each alignment leaves its own results in place *)

Lemma month_fixed t u :
  setUTCHours (setUTCDate (Some t) 1) 0 0 0 0 = Some u ->
  setUTCHours (setUTCDate (Some u) 1) 0 0 0 0 = Some u.
Proof.
  unfold setUTCDate at 1.
  destruct (TimeClip (MakeDate (MakeDay (YearFromTime t) (MonthFromTime t) 1)
                               (TimeWithinDay t))) as [t1 |] eqn:E1;
    [| discriminate].
  apply TimeClip_Some in E1 as [-> _].
  unfold setUTCHours at 1.
  rewrite Day_MakeDate by apply TimeWithinDay_range.
  change (MakeTime 0 0 0 0) with 0.
  intros E2. apply TimeClip_Some in E2 as [-> Hu].
  destruct (first_of_month t) as (Hy & Hm & Hday & Hw).
  unfold setUTCDate. rewrite Hy, Hm, Hw.
  rewrite (TimeClip_in_range _ Hu).
  unfold setUTCHours. rewrite Hday.
  change (MakeTime 0 0 0 0) with 0. now apply TimeClip_in_range.
Qed.

Lemma week_fixed t u :
  setUTCHours
    (setUTCDate (Some t) (DateFromTime t - (WeekDay t + 6) mod 7)) 0 0 0 0
  = Some u ->
  setUTCHours
    (setUTCDate (Some u) (DateFromTime u - (WeekDay u + 6) mod 7)) 0 0 0 0
  = Some u.
Proof.
  rewrite !setUTCDate_shift.
  set (diff := (WeekDay t + 6) mod 7).
  destruct (TimeClip (MakeDate (Day t - diff) (TimeWithinDay t)))
    as [t1 |] eqn:E1; [| discriminate].
  apply TimeClip_Some in E1 as [-> _].
  unfold setUTCHours at 1.
  rewrite Day_MakeDate by apply TimeWithinDay_range.
  change (MakeTime 0 0 0 0) with 0.
  intros E2. apply TimeClip_Some in E2 as [-> Hu].
  assert (Hday : Day (MakeDate (Day t - diff) 0) = Day t - diff)
    by (apply Day_MakeDate; unfold msPerDay; lia).
  assert (Hwd : (WeekDay (MakeDate (Day t - diff) 0) + 6) mod 7 = 0).
  { unfold WeekDay at 1. rewrite Hday. unfold diff, WeekDay.
    Z.div_mod_to_equations; lia. }
  assert (Hw : TimeWithinDay (MakeDate (Day t - diff) 0) = 0).
  { unfold TimeWithinDay, MakeDate, msPerDay. Z.div_mod_to_equations; lia. }
  rewrite Hwd, Hw, Hday, Z.sub_0_r.
  rewrite (TimeClip_in_range _ Hu).
  unfold setUTCHours. rewrite Hday.
  change (MakeTime 0 0 0 0) with 0. now apply TimeClip_in_range.
Qed.

(** The four clock alignments are arithmetic on one day. *)
Ltac clock_fixed :=
  intros E; apply TimeClip_Some in E as [-> Hu];
  match goal with
  | |- TimeClip ?x = Some ?u =>
      replace x with u; [now apply TimeClip_in_range |]
  end;
  unfold MakeDate, MakeTime, Day, HourFromTime, MinFromTime,
    msPerDay, msPerHour, msPerMinute, msPerSecond;
  Z.div_mod_to_equations; lia.

Lemma day_fixed t u :
  setUTCHours (Some t) 0 0 0 0 = Some u -> setUTCHours (Some u) 0 0 0 0 = Some u.
Proof. unfold setUTCHours. clock_fixed. Qed.

Lemma hour_fixed t u :
  setUTCMinutes (Some t) 0 0 0 = Some u -> setUTCMinutes (Some u) 0 0 0 = Some u.
Proof. unfold setUTCMinutes. clock_fixed. Qed.

Lemma bucket_fixed (n : Z) t u :
  n = 15 \/ n = 5 ->
  setUTCMinutes (Some t) (MinFromTime t / n * n) 0 0 = Some u ->
  setUTCMinutes (Some u) (MinFromTime u / n * n) 0 0 = Some u.
Proof. intros [-> | ->]; unfold setUTCMinutes; clock_fixed. Qed.

Lemma minute_fixed t u :
  setUTCSeconds (Some t) 0 0 = Some u -> setUTCSeconds (Some u) 0 0 = Some u.
Proof. unfold setUTCSeconds. clock_fixed. Qed.

Lemma alignToInterval_alignDate ts interval :
  alignToInterval ts interval = getTime (alignDate interval (newDate ts)).
Proof.
  unfold alignToInterval, alignDate.
  repeat (destruct (_ =? _)%string; [destruct (newDate ts); reflexivity |]).
  reflexivity.
Qed.

Lemma alignDate_valid interval d : valid d -> valid (alignDate interval d).
Proof.
  intros Hd. unfold alignDate.
  repeat (destruct (_ =? _)%string;
          [first [ apply setUTCHours_valid | apply setUTCMinutes_valid
                 | apply setUTCSeconds_valid
                 | destruct d;
                   [first [apply setUTCHours_valid | apply setUTCMinutes_valid]
                   | exact I] ] |]).
  exact Hd.
Qed.

Lemma alignDate_fixed interval d :
  alignDate interval (alignDate interval d) = alignDate interval d.
Proof.
  destruct (alignDate interval d) as [u |] eqn:E.
  - revert E. unfold alignDate.
    repeat (destruct (_ =? _)%string;
            [destruct d as [t |]; try discriminate;
             first [ apply month_fixed | apply week_fixed | apply day_fixed
                   | apply hour_fixed | apply (bucket_fixed 15); auto
                   | apply (bucket_fixed 5); auto | apply minute_fixed ]
            |]).
    reflexivity.
  - unfold alignDate.
    repeat (destruct (_ =? _)%string; [reflexivity |]). reflexivity.
Qed.

(** *** Alignment does not move a timestamp forward *)

Lemma monthStart_monthOfDay_le l d :
  0 <= l <= 1 -> 0 <= d -> monthStart l (monthOfDay l d) <= d.
Proof.
  intros Hl Hd. unfold monthOfDay.
  repeat match goal with
  | |- monthStart _ (if d <? ?x then _ else _) <= _ =>
      destruct (Z.ltb_spec d x);
      [cbv beta iota delta [monthStart Z.eqb Pos.eqb]; lia |]
  end.
  cbv beta iota delta [monthStart Z.eqb Pos.eqb]. lia.
Qed.

Lemma Day_start_le t : MakeDate (Day t) 0 <= t.
Proof. unfold MakeDate, Day, msPerDay. Z.div_mod_to_equations; lia. Qed.

Lemma first_of_month_le t :
  MakeDate (MakeDay (YearFromTime t) (MonthFromTime t) 1) 0 <= t.
Proof.
  rewrite MakeDay_same_month.
  pose proof (InLeapYear_range t) as Hl.
  pose proof (YearFromDay_spec (Day t)) as [Hy _]. fold (YearFromTime t) in Hy.
  assert (Hd : 0 <= DayWithinYear t) by (unfold DayWithinYear; lia).
  pose proof (monthStart_monthOfDay_le (InLeapYear t) (DayWithinYear t) Hl Hd)
    as Hm.
  fold (MonthFromTime t) in Hm.
  pose proof (Day_start_le t) as Ht.
  unfold DayWithinYear in Hm. unfold MakeDate, msPerDay in *. lia.
Qed.

Ltac clock_not_after :=
  intros E; apply TimeClip_Some in E as [-> _];
  unfold MakeDate, MakeTime, Day, HourFromTime, MinFromTime,
    msPerDay, msPerHour, msPerMinute, msPerSecond;
  Z.div_mod_to_equations; lia.

Lemma alignDate_not_after interval t u :
  alignDate interval (Some t) = Some u -> u <= t.
Proof.
  unfold alignDate.
  destruct (interval =? "M")%string.
  { unfold setUTCDate.
    destruct (TimeClip (MakeDate (MakeDay (YearFromTime t) (MonthFromTime t) 1)
                                 (TimeWithinDay t))) as [t1 |] eqn:E1;
      [| discriminate].
    apply TimeClip_Some in E1 as [-> _].
    unfold setUTCHours. rewrite Day_MakeDate by apply TimeWithinDay_range.
    change (MakeTime 0 0 0 0) with 0.
    intros E2. apply TimeClip_Some in E2 as [-> _].
    apply first_of_month_le. }
  destruct (interval =? "W")%string.
  { rewrite setUTCDate_shift.
    set (diff := (WeekDay t + 6) mod 7).
    destruct (TimeClip (MakeDate (Day t - diff) (TimeWithinDay t)))
      as [t1 |] eqn:E1; [| discriminate].
    apply TimeClip_Some in E1 as [-> _].
    unfold setUTCHours. rewrite Day_MakeDate by apply TimeWithinDay_range.
    change (MakeTime 0 0 0 0) with 0.
    intros E2. apply TimeClip_Some in E2 as [-> _].
    pose proof (Day_start_le t) as Ht.
    assert (0 <= diff) by (unfold diff; Z.div_mod_to_equations; lia).
    unfold MakeDate, msPerDay in *. lia. }
  destruct (interval =? "D")%string; [unfold setUTCHours; clock_not_after |].
  destruct (interval =? "60")%string; [unfold setUTCMinutes; clock_not_after |].
  destruct (interval =? "15")%string; [unfold setUTCMinutes; clock_not_after |].
  destruct (interval =? "5")%string; [unfold setUTCMinutes; clock_not_after |].
  destruct (interval =? "1")%string; [unfold setUTCSeconds; clock_not_after |].
  intros E. inversion E. lia.
Qed.

Lemma truncate_le (r : R) :
  (0 <= r)%R \/ (exists z, r = IZR z) -> (IZR (truncate r) <= r)%R.
Proof.
  intros [Hr | [z ->]].
  - unfold truncate. destruct (Rle_dec 0 r); [| contradiction].
    apply base_Int_part.
  - rewrite truncate_IZR. lra.
Qed.

(** A timestamp that is non-negative or integral is aligned to a time not
    after it (or to NaN, outside the range of dates). *)
Lemma alignToInterval_not_after (r : R) (interval : string) :
  (0 <= r)%R \/ (exists z, r = IZR z) ->
  alignToInterval #r interval = NaN
  \/ exists u, alignToInterval #r interval = #(IZR u) /\ (IZR u <= r)%R.
Proof.
  intros Hr. rewrite alignToInterval_alignDate.
  destruct (newDate #r) as [t |] eqn:En.
  - destruct (alignDate interval (Some t)) as [u |] eqn:Ea; [| now left].
    right. exists u. split; [reflexivity |].
    apply alignDate_not_after in Ea.
    simpl in En. destruct (Rle_dec (Rabs r) (IZR maxTime)); [| discriminate].
    inversion En; subst t.
    apply Rle_trans with (IZR (truncate r)); [now apply IZR_le |].
    now apply truncate_le.
  - left. unfold alignDate.
    repeat (destruct (_ =? _)%string; [reflexivity |]). reflexivity.
Qed.

(** Half a millisecond before the epoch is truncated to the epoch itself,
    which is the start of its day: the aligned time is after the input. *)
Lemma alignToInterval_after_negative_fraction :
  alignToInterval #(-0.5) "D" = #0.
Proof.
  rewrite alignToInterval_alignDate.
  assert (En : newDate #(-0.5) = Some 0).
  { simpl. destruct (Rle_dec (Rabs (-0.5)) (IZR maxTime)) as [_ | N].
    - f_equal. unfold truncate. destruct (Rle_dec 0 (-0.5)); [lra |].
      rewrite <- (Int_part_spec (- -0.5) 0); [reflexivity | lra].
    - exfalso. apply N. rewrite Rabs_left by lra. unfold maxTime. lra. }
  rewrite En. reflexivity.
Qed.

(** C10.  [alignToInterval] is idempotent for every number and every
    interval token: aligning an aligned timestamp returns it.  With a token
    that is none of the seven known ones, an integral timestamp within the
    range of [Date] is returned as it is. *)
Theorem alignToInterval_idempotent :
  (forall (ts : number) (interval : string),
     alignToInterval (alignToInterval ts interval) interval
     = alignToInterval ts interval)
  /\ (forall (z : Z) (interval : string),
        Z.abs z <= maxTime ->
        ~ In interval ["M"; "W"; "D"; "60"; "15"; "5"; "1"]%string ->
        alignToInterval (Fin (IZR z)) interval = Fin (IZR z)).
Proof.
  split.
  - intros ts interval.
    rewrite !alignToInterval_alignDate.
    rewrite newDate_getTime by (apply alignDate_valid, newDate_valid).
    now rewrite alignDate_fixed.
  - intros z interval Hz Hnot.
    rewrite alignToInterval_alignDate.
    change (Fin (IZR z)) with (getTime (Some z)).
    rewrite (newDate_getTime (Some z)) by exact Hz.
    unfold alignDate.
    repeat match goal with
    | |- context [(interval =? ?s)%string] =>
        destruct (String.eqb_spec interval s) as [E | _];
        [exfalso; apply Hnot; rewrite E; simpl; tauto |]
    end.
    reflexivity.
Qed.

Lemma alignToInterval_idempotent_witness :
  alignToInterval (alignToInterval #1700000000123 "W") "W"
  = alignToInterval #1700000000123 "W".
Proof.
  apply (proj1 alignToInterval_idempotent).
Defined.

End DateFacts.

(** ** The axis and scale engine *)

Section ChartFacts.

Import Chart.
Local Open Scope string_scope.
Local Open Scope num_scope.

Variable rt : Runtime.

Lemma at_index_Some {A : Type} (xs : list A) (i : nat) (a : A) :
  nth_error xs i = Some a -> at_index xs i = Normal a.
Proof. unfold at_index. now intros ->. Qed.

Lemma nth_error_final {A : Type} (xs : list A) :
  xs <> [] -> exists a, nth_error xs (length xs - 1) = Some a.
Proof.
  intros Hne. destruct (nth_error xs (length xs - 1)) as [a |] eqn:E.
  - now exists a.
  - apply nth_error_None in E. destruct xs; [contradiction | simpl in E; lia].
Qed.

Lemma nth_error_first {A : Type} (xs : list A) :
  xs <> [] -> exists a, nth_error xs 0 = Some a.
Proof. destruct xs as [| a xs]; [contradiction | now exists a]. Qed.

Lemma visibleSlice_nonempty data xMin xMax :
  data <> [] -> visibleSlice data xMin xMax <> [].
Proof.
  intros Hne. unfold visibleSlice.
  destruct (filter _ data) as [| p slice]; simpl; [exact Hne | discriminate].
Qed.

(** The guard bounds the number of ticks the loop produces. *)
Lemma tickLoop_length xScale interval xMax fuel : forall t,
  (length (tickLoop xScale interval xMax fuel t) <= fuel)%nat.
Proof.
  induction fuel as [| fuel IH]; intros t; simpl; [lia |].
  destruct (t <=? xMax); simpl; [| lia].
  specialize (IH (addInterval t interval)). lia.
Qed.

Lemma xTicksOf_length xScale interval xMin xMax :
  (2 <= length (xTicksOf xScale interval xMin xMax))%nat.
Proof.
  unfold xTicksOf.
  destruct (Nat.ltb_spec
              (length (tickLoop xScale interval xMax guard
                                (alignToInterval xMin interval))) 2).
  - rewrite length_app. cbn [length]. lia.
  - assumption.
Qed.

(** Labelling reads the first and the last tick; with ticks present it
    completes normally. *)
Lemma xLabelsOf_normal interval (ticks : list Tick) :
  ticks <> [] -> exists labels, xLabelsOf rt interval ticks = Normal labels.
Proof.
  intros Hne. unfold xLabelsOf.
  set (labels := fst (fold_left (labelStep rt interval) ticks ([], NegInf))).
  destruct (Nat.ltb_spec 0 (length labels)) as [Hpos | _]; [| now eexists].
  assert (Hl : labels <> []) by (destruct labels; [simpl in Hpos; lia | discriminate]).
  destruct (nth_error_first _ Hl) as [l0 E0].
  destruct (nth_error_final _ Hl) as [ln En].
  destruct (nth_error_first _ Hne) as [t0 T0].
  destruct (nth_error_final _ Hne) as [tn Tn].
  rewrite (at_index_Some _ _ _ E0), (at_index_Some _ _ _ En),
          (at_index_Some _ _ _ T0), (at_index_Some _ _ _ Tn).
  simpl. now eexists.
Qed.

(** What [useChartPath] returns on a series with at least one point: every
    indexed read succeeds, and the result is assembled from the parts. *)
Lemma useChartPath_nonempty data width height padLeft interval domain yMode
    rightMargin :
  data <> [] ->
  exists first final slice0 labels,
    nth_error data 0 = Some first
    /\ nth_error data (length data - 1) = Some final
    /\ let xMin := Math_max (x0 domain) (time first) in
       let xMax := Math_min (x1 domain) (time final) in
       let slice := visibleSlice data xMin xMax in
       let values := map value slice in
       let log := useLog yMode values in
       let range := transformedRange (map (tf log yMode (value slice0)) values) in
       let xs := xScaleOf padLeft width rightMargin xMin xMax in
       let ys := yScaleOf (tf log yMode (value slice0)) height padLeft
                          (fst range) (snd range) in
       nth_error slice 0 = Some slice0
       /\ xLabelsOf rt interval (xTicksOf xs interval xMin xMax) = Normal labels
       /\ useChartPath rt data width height padLeft interval domain yMode
                       rightMargin
          = Normal
              (mkGeometry
                 (pathLoop rt xs ys 0 slice)
                 (xTicksOf xs interval xMin xMax)
                 labels
                 (yTicksOf rt (invf log yMode (value slice0)) yMode
                           (value slice0) height padLeft (fst range) (snd range))
                 xs ys
                 (nth_error slice (length slice - 1))
                 (value slice0)).
Proof.
  intros Hne.
  destruct (nth_error_first _ Hne) as [first E0].
  destruct (nth_error_final _ Hne) as [final En].
  set (xMin := Math_max (x0 domain) (time first)).
  set (xMax := Math_min (x1 domain) (time final)).
  pose proof (visibleSlice_nonempty data xMin xMax Hne) as Hs.
  destruct (nth_error_first _ Hs) as [slice0 S0].
  assert (Hticks : xTicksOf (xScaleOf padLeft width rightMargin xMin xMax)
                            interval xMin xMax <> []).
  { pose proof (xTicksOf_length (xScaleOf padLeft width rightMargin xMin xMax)
                                interval xMin xMax) as L.
    destruct (xTicksOf _ _ _ _); [simpl in L; lia | discriminate]. }
  destruct (xLabelsOf_normal interval _ Hticks) as [labels El].
  exists first, final, slice0, labels.
  split; [exact E0 |]. split; [exact En |].
  fold xMin xMax. cbv zeta.
  split; [exact S0 |]. split; [exact El |].
  unfold useChartPath.
  assert (Hlen : (length data =? 0)%nat = false).
  { apply Nat.eqb_neq. destruct data; [contradiction | discriminate]. }
  rewrite Hlen, (at_index_Some _ _ _ E0), (at_index_Some _ _ _ En).
  cbn [bind]. fold xMin xMax.
  rewrite (at_index_Some _ _ _ S0). cbn [bind].
  destruct (transformedRange _) as [tMin tMax] eqn:Er.
  rewrite El. cbn [bind fst snd].
  assert (Hpos : (0 <? length (visibleSlice data xMin xMax))%nat = true).
  { apply Nat.ltb_lt. destruct (visibleSlice data xMin xMax);
      [contradiction | simpl; lia]. }
  now rewrite Hpos.
Qed.

(** *** The value transform *)

Lemma le_zero_not_gt (v : number) : (v <=? #0) = true -> (v >? #0) = false.
Proof.
  destruct v as [| s | r]; unfold le, gt; simpl.
  - discriminate.
  - destruct s; [reflexivity | discriminate].
  - destruct (Rlt_dec r 0), (Req_dec_T r 0), (Rlt_dec 0 r);
      simpl; intros; try reflexivity; try discriminate; lra.
Qed.

Lemma useLog_log values :
  useLog "log" values = forallb (fun v => v >? #0) values.
Proof. reflexivity. Qed.

Lemma useLog_some_nonpositive values :
  (exists v, In v values /\ (v <=? #0) = true) -> useLog "log" values = false.
Proof.
  intros (v & Hin & Hle). rewrite useLog_log.
  destruct (forallb (fun v => v >? #0) values) eqn:E; [| reflexivity].
  rewrite forallb_forall in E. specialize (E v Hin).
  rewrite (le_zero_not_gt _ Hle) in E. discriminate.
Qed.

(** C4.  In log mode the transform is the natural logarithm exactly when
    every visible value is above 0, and the inverse is then the
    exponential; as soon as one visible value is at most 0 both are the
    identity, and the whole geometry is the one of linear mode. *)
Theorem log_mode_transform :
  (forall (values : list number) (anchor : number),
     let log := useLog "log" values in
     (tf log "log" anchor = Math_log
      <-> forallb (fun v => v >? #0) values = true)
     /\ (invf log "log" anchor = Math_exp
         <-> forallb (fun v => v >? #0) values = true)
     /\ ((exists v, In v values /\ (v <=? #0) = true) ->
         tf log "log" anchor = (fun v => v)
         /\ invf log "log" anchor = (fun v => v)))
  /\ (forall (data : list PricePoint) (width height padLeft : number)
             (interval : string) (domain : Domain) (rightMargin : number)
             (first final : PricePoint),
        nth_error data 0 = Some first ->
        nth_error data (length data - 1) = Some final ->
        let slice :=
          visibleSlice data (Math_max (x0 domain) (time first))
                       (Math_min (x1 domain) (time final)) in
        ((exists p, In p slice /\ (value p <=? #0) = true) ->
         useChartPath rt data width height padLeft interval domain "log"
                      rightMargin
         = useChartPath rt data width height padLeft interval domain "linear"
                        rightMargin)
        /\ (forallb (fun p => value p >? #0) slice = true ->
            exists g tMin tMax,
              useChartPath rt data width height padLeft interval domain "log"
                           rightMargin = Normal g
              /\ yScale g = yScaleOf Math_log height padLeft tMin tMax)).
Proof.
  split.
  - intros values anchor log. subst log. rewrite useLog_log.
    destruct (forallb (fun v => v >? #0) values) eqn:E.
    + split; [| split].
      * split; reflexivity.
      * split; reflexivity.
      * intros Hex. apply useLog_some_nonpositive in Hex.
        rewrite useLog_log, E in Hex. discriminate.
    + split; [| split].
      * split; [| discriminate]. intros H. exfalso.
        apply (f_equal (fun f => f #1)) in H. simpl in H.
        rewrite Rzero_false, Rneg_false, ln_1 in H by lra.
        inversion H. lra.
      * split; [| discriminate]. intros H. exfalso.
        apply (f_equal (fun f => f #0)) in H. cbv beta in H.
        rewrite Math_exp_Fin, exp_0 in H by lra. inversion H. lra.
      * intros _. split; reflexivity.
  - intros data width height padLeft interval domain rightMargin first final
           E0 En slice.
    assert (Hne : data <> []) by (destruct data; [discriminate | discriminate]).
    destruct (useChartPath_nonempty data width height padLeft interval domain "log"
                                    rightMargin Hne)
      as (f1 & l1 & s1 & lab1 & E0' & En' & S1 & El1 & Eg1).
    destruct (useChartPath_nonempty data width height padLeft interval domain
                                    "linear" rightMargin Hne)
      as (f2 & l2 & s2 & lab2 & E0'' & En'' & S2 & El2 & Eg2).
    rewrite E0 in E0', E0''. rewrite En in En', En''.
    inversion E0'; inversion En'; inversion E0''; inversion En''; subst.
    fold slice in S1, S2, El1, El2, Eg1, Eg2.
    rewrite S1 in S2. inversion S2; subst.
    rewrite El1 in El2. inversion El2; subst.
    split.
    + intros (p & Hin & Hle).
      assert (Hlog : useLog "log" (map value slice) = false).
      { apply useLog_some_nonpositive. exists (value p). split; [| exact Hle].
        now apply in_map. }
      rewrite Eg1, Eg2, Hlog. reflexivity.
    + intros Hall.
      assert (Hlog : useLog "log" (map value slice) = true).
      { rewrite useLog_log, forallb_forall. intros v Hv.
        apply in_map_iff in Hv as (p & <- & Hp).
        rewrite forallb_forall in Hall. now apply Hall. }
      rewrite Hlog in Eg1.
      eexists; eexists; eexists. split; [exact Eg1 | reflexivity].
Qed.

(** *** Totality and the degenerate inputs *)





End ChartFacts.

(** C3.  The code at the failing input.  At its first render the component
    passes the empty series, with the window [{0, 1}] that [fullDomain]
    computes for it, whose [x0] is below its [x1]: [useChartPath] returns
    no tick at all, and the component's own assertion on the number of
    ticks fails.  This is so for every interval, mode and layout. *)
Theorem empty_series_has_no_ticks :
  forall (rt : Chart.Runtime) (width height padLeft : number)
         (interval yMode : string) (rightMargin : number),
    Viewport.fullDomain [] = mkDomain #0 #1
    /\ (x0 (Viewport.fullDomain []) <? x1 (Viewport.fullDomain [])) = true
    /\ exists g,
         Chart.useChartPath rt [] width height padLeft interval
                            (Viewport.fullDomain []) yMode rightMargin
         = Normal g
         /\ Chart.xTicks g = []
         /\ Component.ticksAsserted g = false.
Proof.
  intros. split; [reflexivity |]. split; [apply lt_Fin; lra |].
  eexists. split; [reflexivity |]. split; reflexivity.
Qed.

Lemma log_mode_transform_witness :
  (exists v, In v [#100; #(-5)] /\ (v <=? #0) = true)
  /\ Chart.tf (Chart.useLog "log" [#100; #(-5)]) "log" #100 = (fun v => v).
Proof.
  assert (H : exists v, In v [#100; #(-5)] /\ (v <=? #0) = true).
  { exists #(-5). split; [simpl; auto |]. apply le_Fin. lra. }
  split; [exact H |].
  exact (proj1 (proj2 (proj2 (proj1 (log_mode_transform Chart.silentRuntime)
                                    [#100; #(-5)] #100)) H)).
Defined.

(** ** The viewport handlers *)


Section WindowFacts.

Local Open Scope R_scope.

Lemma plot_width : Rmax 1 (1200 - 40 - 90) = 1070.
Proof. unfold Rmax. destruct (Rle_dec 1 (1200 - 40 - 90)); lra. Qed.

(** The two scale factors: bounds, and they are inverse to each other. *)
Lemma exp_bounds :
  0.8 < exp (-1 * 0.2) < 5 / 6 /\ 1.2 < exp (1 * 0.2) < 1.25
  /\ exp (-1 * 0.2) * exp (1 * 0.2) = 1.
Proof.
  assert (P : exp (-1 * 0.2) * exp (1 * 0.2) = 1).
  { rewrite <- exp_plus. replace (-1 * 0.2 + 1 * 0.2) with 0 by lra.
    apply exp_0. }
  assert (L : 0.8 < exp (-1 * 0.2)).
  { pose proof (exp_ineq1 (-1 * 0.2)) as H. lra. }
  assert (U : 1.2 < exp (1 * 0.2)).
  { pose proof (exp_ineq1 (1 * 0.2)) as H. lra. }
  repeat split; try lra; nra.
Qed.


(** When neither clamp binds, the zoomed window is the scaled one. *)
Lemma zoom_unclamped F0 F1 a0 a1 px s :
  F0 <= F1 ->
  let t := a0 + ((px - 40) / Rmax 1 (1200 - 40 - 90)) * (a1 - a0) in
  let n0 := t - (t - a0) * s in
  let n1 := t + (a1 - t) * s in
  (F1 - F0) / 500 <= (a1 - a0) * s ->
  F0 <= n0 -> n1 <= F1 ->
  zoomWindow F0 F1 a0 a1 px s = (n0, n1).
Proof.
  intros HF t n0 n1 Hspan H0 H1. unfold zoomWindow. fold t. fold n0 n1.
  assert (n1 - n0 = (a1 - a0) * s) by (unfold n0, n1; ring).
  f_equal.
  - rewrite Rmin_left by lra. apply Rmax_right. lra.
  - rewrite Rmax_left by lra. apply Rmin_right. lra.
Qed.

(** Scaling by [s] and then by its inverse [s'] around the same cursor
    gives the window back. *)
Lemma zoom_round_trip F0 F1 a0 a1 px s s' :
  F0 <= a0 -> a0 <= a1 -> a1 <= F1 ->
  0 < s -> s * s' = 1 -> 1 <= s' ->
  s' * ((F1 - F0) / 500) <= a1 - a0 ->
  let t := a0 + ((px - 40) / Rmax 1 (1200 - 40 - 90)) * (a1 - a0) in
  F0 <= t - (t - a0) * s -> t + (a1 - t) * s <= F1 ->
  zoomWindow F0 F1 (fst (zoomWindow F0 F1 a0 a1 px s))
             (snd (zoomWindow F0 F1 a0 a1 px s)) px s' = (a0, a1).
Proof.
  intros H0 H01 H1 Hs Hss Hs' Hspan t Hn0 Hn1.
  assert (HF : F0 <= F1) by lra.
  assert (Hms : (F1 - F0) / 500 <= (a1 - a0) * s).
  { assert (H : s * (s' * ((F1 - F0) / 500)) <= s * (a1 - a0))
      by (apply Rmult_le_compat_l; lra).
    replace (s * (s' * ((F1 - F0) / 500)))
      with ((s * s') * ((F1 - F0) / 500)) in H by ring.
    rewrite Hss in H. lra. }
  rewrite (zoom_unclamped F0 F1 a0 a1 px s HF Hms Hn0 Hn1). fold t.
  cbn [fst snd].
  set (c := (px - 40) / Rmax 1 (1200 - 40 - 90)) in *.
  set (n0 := t - (t - a0) * s). set (n1 := t + (a1 - t) * s).
  assert (Ht : n0 + c * (n1 - n0) = t) by (unfold n0, n1, t; ring).
  assert (E0 : t - (t - n0) * s' = a0).
  { unfold n0. replace (t - (t - (t - a0) * s)) with ((t - a0) * s) by ring.
    replace ((t - a0) * s * s') with ((t - a0) * (s * s')) by ring.
    rewrite Hss. ring. }
  assert (E1 : t + (n1 - t) * s' = a1).
  { unfold n1. replace (t + (a1 - t) * s - t) with ((a1 - t) * s) by ring.
    replace ((a1 - t) * s * s') with ((a1 - t) * (s * s')) by ring.
    rewrite Hss. ring. }
  unfold zoomWindow. fold c. rewrite Ht, E0, E1.
  assert (Hm : (F1 - F0) / 500 <= a1 - a0).
  { assert (0 <= (F1 - F0) / 500) by lra. nra. }
  f_equal.
  - rewrite Rmin_left by lra. apply Rmax_right. lra.
  - rewrite Rmax_left by lra. apply Rmin_right. lra.
Qed.

(** With the cursor inside the plot area a zoom-in is not clamped. *)
Lemma plot_area_unclamped F0 F1 a0 a1 px s :
  F0 <= a0 -> a0 <= a1 -> a1 <= F1 -> 0 < s <= 1 -> 40 <= px <= 1110 ->
  let t := a0 + ((px - 40) / Rmax 1 (1200 - 40 - 90)) * (a1 - a0) in
  F0 <= t - (t - a0) * s /\ t + (a1 - t) * s <= F1.
Proof.
  intros H0 H01 H1 Hs Hpx t.
  set (c := (px - 40) / Rmax 1 (1200 - 40 - 90)) in *.
  assert (Hc : 0 <= c <= 1).
  { unfold c. rewrite plot_width. split.
    - apply Rmult_le_pos; lra.
    - apply Rmult_le_reg_r with 1070; [lra |]. unfold Rdiv.
      rewrite Rmult_assoc, Rinv_l by lra. lra. }
  assert (0 <= t - a0) by (unfold t; nra).
  assert (0 <= a1 - t) by (unfold t; nra).
  split; nra.
Qed.




End WindowFacts.

Section ViewportFacts.

Import Chart Viewport.
Local Open Scope R_scope.

Variable synth : list PricePoint.
Variables F0 F1 : R.
Hypothesis synth_nonempty : synth <> [].
Hypothesis synth_extent : fullDomain synth = mkDomain #F0 #F1.

Lemma plot_width_num :
  Math_max #1 (width - #40 - rightMargin)%num = #(Rmax 1 (1200 - 40 - 90)).
Proof. unfold width, rightMargin. simpl JS.sub. apply Math_max_Fin. Qed.

(** [onWheel] on finite inputs computes [zoomWindow]. *)
Lemma onWheel_finite (st : ViewState) (e : WheelEvent) (a0 a1 px : R) :
  activeDomain synth st = mkDomain #a0 #a1 ->
  (wheel_clientX e - wheel_rectLeft e)%num = #px ->
  domain (onWheel synth st e)
  = Some (mkDomain #(fst (zoomWindow F0 F1 a0 a1 px (wheelScale (deltaY e))))
                   #(snd (zoomWindow F0 F1 a0 a1 px (wheelScale (deltaY e))))).
Proof.
  intros Hact Hpx. unfold onWheel.
  assert (Hlen : (length synth =? 0)%nat = false).
  { apply Nat.eqb_neq. destruct synth; [contradiction | discriminate]. }
  rewrite Hlen, Hact, synth_extent, Hpx, plot_width_num.
  cbn [x0 x1 setDomain domain].
  assert (Hs : Math_exp ((if deltaY e >? #0 then #1 else #(-1)) * #0.2)%num
               = #(wheelScale (deltaY e))).
  { unfold wheelScale.
    destruct (deltaY e >? #0)%num; cbn [JS.mul]; apply Math_exp_Fin; lra. }
  rewrite Hs.
  assert (Hw : Rmax 1 (1200 - 40 - 90) <> 0) by (rewrite plot_width; lra).
  assert (H500 : (500 : R) <> 0) by lra.
  repeat first [ progress cbn [JS.sub JS.neg JS.add JS.mul]
               | rewrite (div_Fin _ _ Hw) | rewrite (div_Fin _ _ H500)
               | rewrite Math_min_Fin | rewrite Math_max_Fin ].
  reflexivity.
Qed.

(** The pan branch on finite inputs computes [panWindow]. *)
Lemma movePan_finite (st : ViewState) (e : PointerEvent) (sx p0 p1 cx : R) :
  isPanning st = true ->
  panStart st = Some (mkPanStart #sx #p0 #p1) ->
  clientX e = #cx ->
  movePan synth st e
  = Some (mkDomain #(fst (panWindow F0 F1 p0 p1 sx cx))
                   #(snd (panWindow F0 F1 p0 p1 sx cx))).
Proof.
  intros Hpan Hstart Hcx. unfold movePan, panWindow.
  rewrite Hpan, Hstart, synth_extent, Hcx, plot_width_num, !plot_width.
  cbn [x0 x1 pan_x pan_x0 pan_x1].
  assert (Hw : (1070 : R) <> 0) by lra.
  assert (H1000 : (1000 : R) <> 0) by lra.
  unfold Rminus.
  repeat first
    [ progress cbn [JS.sub JS.neg JS.add JS.mul JS.lt JS.gt fst snd]
    | rewrite (div_Fin _ _ Hw) | rewrite (div_Fin _ _ H1000)
    | match goal with
      | |- context [Rlt_dec ?a ?b] => destruct (Rlt_dec a b)
      end ];
    reflexivity.
Qed.

Lemma onPointerMove_domain chart st e d :
  movePan synth st e = Some d ->
  domain (onPointerMove chart synth st e) = Some d.
Proof. intros H. unfold onPointerMove. now rewrite H. Qed.


(** C2 (as the code has it).  Let the domain [a0, a1] lie within the full
    extent and span at least [exp(0.2)] times a 500th of it.  A zoom-in
    and then a zoom-out at the same cursor offset [px] give the domain
    back exactly, provided the zoom-in is not clamped by the full extent;
    this is the case whenever the cursor is inside the plot area, between
    the left padding 40 and the right margin at 1110. *)
Theorem zoom_in_then_out_restores :
  forall (st : ViewState) (zoomIn zoomOut : WheelEvent) (a0 a1 px : R),
    activeDomain synth st = mkDomain #a0 #a1 ->
    F0 <= a0 -> a0 <= a1 -> a1 <= F1 ->
    exp (1 * 0.2) * ((F1 - F0) / 500) <= a1 - a0 ->
    (wheel_clientX zoomIn - wheel_rectLeft zoomIn)%num = #px ->
    (wheel_clientX zoomOut - wheel_rectLeft zoomOut)%num = #px ->
    (deltaY zoomIn >? #0)%num = false ->
    (deltaY zoomOut >? #0)%num = true ->
    (40 <= px <= 1110
     \/ let t := a0 + ((px - 40) / Rmax 1 (1200 - 40 - 90)) * (a1 - a0) in
        F0 <= t - (t - a0) * exp (-1 * 0.2)
        /\ t + (a1 - t) * exp (-1 * 0.2) <= F1) ->
    domain (onWheel synth (onWheel synth st zoomIn) zoomOut)
    = Some (mkDomain #a0 #a1).
Proof.
  intros st zoomIn zoomOut a0 a1 px Hact H0 H01 H1 Hspan Hin Hout Hdin Hdout
         Hcursor.
  pose proof exp_bounds as ((L1 & L2) & (U1 & U2) & P).
  assert (Hs : wheelScale (deltaY zoomIn) = exp (-1 * 0.2))
    by (unfold wheelScale; now rewrite Hdin).
  assert (Hs' : wheelScale (deltaY zoomOut) = exp (1 * 0.2))
    by (unfold wheelScale; now rewrite Hdout).
  assert (Hfree :
            let t := a0 + ((px - 40) / Rmax 1 (1200 - 40 - 90)) * (a1 - a0) in
            F0 <= t - (t - a0) * exp (-1 * 0.2)
            /\ t + (a1 - t) * exp (-1 * 0.2) <= F1).
  { destruct Hcursor as [Hplot | Hfree]; [| exact Hfree].
    apply plot_area_unclamped; lra. }
  destruct Hfree as [Hn0 Hn1].
  pose proof (onWheel_finite st zoomIn a0 a1 px Hact Hin) as E1.
  assert (Hact1 : activeDomain synth (onWheel synth st zoomIn)
                  = mkDomain
                      #(fst (zoomWindow F0 F1 a0 a1 px (exp (-1 * 0.2))))
                      #(snd (zoomWindow F0 F1 a0 a1 px (exp (-1 * 0.2))))).
  { unfold activeDomain. rewrite E1, Hs. reflexivity. }
  rewrite (onWheel_finite (onWheel synth st zoomIn) zoomOut _ _ px Hact1 Hout).
  rewrite Hs'.
  rewrite (zoom_round_trip F0 F1 a0 a1 px (exp (-1 * 0.2)) (exp (1 * 0.2)));
    try assumption; try lra.
  reflexivity.
Qed.

End ViewportFacts.

(** *** Closed instances *)

Section ClosedInstances.

Import Chart Viewport.
Local Open Scope R_scope.

Lemma exampleSeries_extent : fullDomain exampleSeries = mkDomain #0 #1070.
Proof. reflexivity. Qed.

Lemma exampleSeries_nonempty : exampleSeries <> [].
Proof. discriminate. Qed.

Lemma offset_from_zero (x : R) : (#x - #0)%num = #x.
Proof. simpl. f_equal. lra. Qed.

Lemma wheelScale_in : wheelScale #(-1) = exp (-1 * 0.2).
Proof.
  unfold wheelScale, gt. simpl. destruct (Rlt_dec 0 (-1)); [lra | reflexivity].
Qed.

Lemma wheelScale_out : wheelScale #1 = exp (1 * 0.2).
Proof.
  unfold wheelScale, gt. simpl. destruct (Rlt_dec 0 1); [reflexivity | lra].
Qed.

(** C2 as stated fails with the cursor in the left padding: from the full
    extent [0, 1070], a zoom-in at offset 0 is clamped at the left edge,
    and the zoom-out that follows moves the left edge to the right of 0. *)
Lemma zoom_round_trip_fails_in_left_padding :
  activeDomain exampleSeries idleView = mkDomain #0 #1070
  /\ exp (1 * 0.2) * ((1070 - 0) / 500) <= 1070 - 0
  /\ domain (onWheel exampleSeries
               (onWheel exampleSeries idleView (mkWheel #0 #0 #(-1)))
               (mkWheel #0 #0 #1))
     <> Some (mkDomain #0 #1070).
Proof.
  pose proof exp_bounds as ((L1 & L2) & (U1 & U2) & P).
  split; [reflexivity |]. split; [lra |].
  pose proof (onWheel_finite exampleSeries 0 1070 exampleSeries_nonempty
                exampleSeries_extent idleView (mkWheel #0 #0 #(-1)) 0 1070 0
                eq_refl (offset_from_zero 0)) as E1.
  cbn [deltaY] in E1. rewrite wheelScale_in in E1.
  set (s := exp (-1 * 0.2)) in *. set (s' := exp (1 * 0.2)) in *.
  assert (Z1 : zoomWindow 0 1070 0 1070 0 s = (0, 1110 * s - 40)).
  { unfold zoomWindow. rewrite plot_width.
    replace (0 + (0 - 40) / 1070 * (1070 - 0)) with (-40) by field.
    f_equal.
    - apply Rmax_left. apply Rle_trans with (-40 - (-40 - 0) * s);
        [apply Rmin_l | lra].
    - rewrite Rmax_left by lra. rewrite Rmin_right by lra. ring. }
  rewrite Z1 in E1. cbn [fst snd] in E1.
  assert (Hact : activeDomain exampleSeries
                   (onWheel exampleSeries idleView (mkWheel #0 #0 #(-1)))
                 = mkDomain #0 #(1110 * s - 40)).
  { unfold activeDomain. now rewrite E1. }
  rewrite (onWheel_finite exampleSeries 0 1070 exampleSeries_nonempty
             exampleSeries_extent _ (mkWheel #0 #0 #1) 0 (1110 * s - 40) 0
             Hact (offset_from_zero 0)).
  cbn [deltaY]. rewrite wheelScale_out. fold s'.
  intros H. inversion H as [[H0 H1]]. clear H H1.
  revert H0. unfold zoomWindow. rewrite plot_width. cbn [fst].
  set (B := 1110 * s - 40).
  set (t := 0 + (0 - 40) / 1070 * (B - 0)).
  assert (HB : 848 < B < 1070) by (unfold B; lra).
  assert (Ht : -40 < t < 0) by (unfold t; lra).
  assert (Hm0 : 0 < t - (t - 0) * s') by nra.
  assert (Hm1 : 0 < t + (B - t) * s' - (1070 - 0) / 500) by nra.
  intros H0.
  assert (0 < Rmin (t - (t - 0) * s') (t + (B - t) * s' - (1070 - 0) / 500))
    by (apply Rmin_glb_lt; assumption).
  pose proof (Rmax_r 0 (Rmin (t - (t - 0) * s')
                             (t + (B - t) * s' - (1070 - 0) / 500))).
  lra.
Qed.

Lemma zoom_in_then_out_restores_witness :
  domain (onWheel exampleSeries
            (onWheel exampleSeries idleView (mkWheel #575 #0 #(-1)))
            (mkWheel #575 #0 #1))
  = Some (mkDomain #0 #1070).
Proof.
  pose proof exp_bounds as ((L1 & L2) & (U1 & U2) & P).
  apply (zoom_in_then_out_restores exampleSeries 0 1070
           exampleSeries_nonempty exampleSeries_extent idleView
           (mkWheel #575 #0 #(-1)) (mkWheel #575 #0 #1) 0 1070 575).
  - reflexivity.
  - lra.
  - lra.
  - lra.
  - lra.
  - apply offset_from_zero.
  - apply offset_from_zero.
  - apply lt_Fin_false. lra.
  - apply lt_Fin. lra.
  - left. lra.
Defined.



End ClosedInstances.

(** *** The crosshair *)

Section CrosshairFacts.

Import Chart Viewport.
Local Open Scope R_scope.

Variables a0 a1 ts : R.
Variable p0 : PricePoint.

Lemma nearestStep_finite (cur : PricePoint) (best : number) (p : PricePoint)
    (tp : R) :
  time p = #tp ->
  nearestStep (mkDomain #a0 #a1) #ts (cur, best) p
  = if Rlt_dec tp a0 then (cur, best)
    else if Rlt_dec a1 tp then (cur, best)
    else if (#(distanceTo ts p) <? best)%num then (p, #(distanceTo ts p))
    else (cur, best).
Proof.
  intros Htp. unfold nearestStep, distanceTo, timeOf. rewrite Htp.
  cbn [x0 x1 JS.lt JS.gt JS.sub JS.neg JS.add Math_abs].
  destruct (Rlt_dec tp a0), (Rlt_dec a1 tp); reflexivity.
Qed.

Lemma crosshairInv_step seen st p :
  finiteTime p ->
  crosshairInv a0 a1 ts p0 seen st ->
  crosshairInv a0 a1 ts p0 (seen ++ [p])
               (nearestStep (mkDomain #a0 #a1) #ts st p).
Proof.
  intros [tp Htp] Inv. destruct st as [cur best].
  rewrite (nearestStep_finite cur best p tp Htp).
  assert (Hin : inWindow a0 a1 p <-> a0 <= tp <= a1)
    by (unfold inWindow, timeOf; rewrite Htp; tauto).
  assert (Hout : ~ (a0 <= tp <= a1) ->
                 crosshairInv a0 a1 ts p0 (seen ++ [p]) (cur, best)).
  { intros Hno. destruct Inv as [[E Hall] | (before & after & E & Hw & Hb & Hbef & Haft)].
    - left. split; [exact E |]. apply Forall_app. split; [exact Hall |].
      constructor; [tauto | constructor].
    - right. exists before, (after ++ [p]). cbn [fst snd] in *.
      split; [rewrite E, <- app_assoc; reflexivity |].
      split; [exact Hw |]. split; [exact Hb |]. split; [exact Hbef |].
      apply Forall_app. split; [exact Haft |].
      constructor; [tauto | constructor]. }
  destruct (Rlt_dec tp a0) as [Hlo | Hlo]; [apply Hout; lra |].
  destruct (Rlt_dec a1 tp) as [Hhi | Hhi]; [apply Hout; lra |].
  assert (Hp : inWindow a0 a1 p) by (apply Hin; lra).
  destruct Inv as [[E Hall] | (before & after & E & Hw & Hb & Hbef & Haft)].
  - inversion E; subst cur best. cbn [JS.lt negb].
    right. exists seen, []. cbn [fst snd].
    split; [reflexivity |]. split; [exact Hp |]. split; [reflexivity |].
    split; [| constructor].
    eapply Forall_impl; [| exact Hall]. intros q Hq Hqw. contradiction.
  - cbn [fst snd] in *. subst best. cbn [JS.lt].
    destruct (Rlt_dec (distanceTo ts p) (distanceTo ts cur)) as [Hd | Hd].
    + right. exists seen, []. cbn [fst snd].
      split; [reflexivity |]. split; [exact Hp |]. split; [reflexivity |].
      split; [| constructor].
      rewrite E. apply Forall_app. split.
      * eapply Forall_impl; [| exact Hbef]. intros q Hq Hqw.
        specialize (Hq Hqw). lra.
      * constructor; [intros _; exact Hd |].
        eapply Forall_impl; [| exact Haft]. intros q Hq Hqw.
        specialize (Hq Hqw). lra.
    + right. exists before, (after ++ [p]). cbn [fst snd].
      split; [rewrite E, <- app_assoc; reflexivity |].
      split; [exact Hw |]. split; [reflexivity |]. split; [exact Hbef |].
      apply Forall_app. split; [exact Haft |].
      constructor; [intros _; lra | constructor].
Qed.

Lemma crosshairInv_fold rest : forall seen st,
  Forall finiteTime rest ->
  crosshairInv a0 a1 ts p0 seen st ->
  crosshairInv a0 a1 ts p0 (seen ++ rest)
               (fold_left (nearestStep (mkDomain #a0 #a1) #ts) rest st).
Proof.
  induction rest as [| p rest IH]; intros seen st Hfin Inv.
  - now rewrite app_nil_r.
  - inversion Hfin as [| ? ? Hp Hrest]; subst. cbn [fold_left].
    replace (seen ++ p :: rest) with ((seen ++ [p]) ++ rest)
      by (rewrite <- app_assoc; reflexivity).
    apply IH; [exact Hrest |]. now apply crosshairInv_step.
Qed.

End CrosshairFacts.

Section CrosshairTheorem.

Import Chart Viewport.
Local Open Scope R_scope.

Lemma pointerTime_finite (a0 a1 n : R) (e : PointerEvent) :
  (clientX e - rectLeft e)%num = #n ->
  exists ts, pointerTime (mkDomain #a0 #a1) e = #ts.
Proof.
  intros Hn. unfold pointerTime, clamp. rewrite Hn, plot_width_num.
  unfold width. rewrite Math_min_Fin, Math_max_Fin.
  assert (Hw : Rmax 1 (1200 - 40 - 90) <> 0) by (rewrite plot_width; lra).
  cbn [x0 x1 JS.sub JS.neg JS.add]. rewrite (div_Fin _ _ Hw).
  cbn [JS.mul JS.add]. eexists. reflexivity.
Qed.

Lemma onPointerMove_cross chart synth st e :
  cross (onPointerMove chart synth st e)
  = cross (moveCrosshair chart synth st e).
Proof.
  unfold onPointerMove. destruct (movePan synth st e); reflexivity.
Qed.

(** C8 (as the code has it).  For a non-empty series with finite times, a
    finite active domain and a pointer at a finite offset, the crosshair
    shows a point of the series, with that point's pixel position, time and
    value.  If some point of the series lies within the active domain, it
    is the earliest point of least time-distance to the pointer's timestamp
    among the points within the domain: every earlier point of the domain
    is strictly farther, every later one at least as far.  If no point lies
    within the domain, it is the first point of the series. *)
Theorem crosshair_snaps_to_nearest :
  forall (chart : ChartGeometry) (synth : list PricePoint) (st : ViewState)
         (e : PointerEvent) (a0 a1 n : R) (p0 : PricePoint)
         (rest : list PricePoint),
    synth = p0 :: rest ->
    Forall finiteTime synth ->
    activeDomain synth st = mkDomain #a0 #a1 ->
    (clientX e - rectLeft e)%num = #n ->
    exists (ts : R) (nearest : PricePoint),
      pointerTime (mkDomain #a0 #a1) e = #ts
      /\ In nearest synth
      /\ cross (onPointerMove chart synth st e)
         = Some (mkCross (xScale chart (time nearest))
                         (yScale chart (value nearest))
                         (time nearest) (value nearest))
      /\ ((exists q, In q synth /\ inWindow a0 a1 q) ->
          exists before after,
            synth = before ++ nearest :: after
            /\ inWindow a0 a1 nearest
            /\ Forall (fun q => inWindow a0 a1 q ->
                         distanceTo ts nearest < distanceTo ts q) before
            /\ Forall (fun q => inWindow a0 a1 q ->
                         distanceTo ts nearest <= distanceTo ts q) after)
      /\ ((forall q, In q synth -> ~ inWindow a0 a1 q) -> nearest = p0).
Proof.
  intros chart synth st e a0 a1 n p0 rest Hsynth Hfin Hact Hn.
  destruct (pointerTime_finite a0 a1 n e Hn) as [ts Hts].
  pose proof (crosshairInv_fold a0 a1 ts p0 synth [] (p0, PosInf) Hfin
                (or_introl (conj eq_refl (Forall_nil _)))) as Inv.
  cbn [app] in Inv.
  destruct (fold_left (nearestStep (mkDomain #a0 #a1) #ts) synth (p0, PosInf))
    as [nearest best] eqn:Efold.
  exists ts, nearest.
  split; [exact Hts |].
  assert (Hcross : cross (onPointerMove chart synth st e)
                   = Some (mkCross (xScale chart (time nearest))
                                   (yScale chart (value nearest))
                                   (time nearest) (value nearest))).
  { rewrite onPointerMove_cross. unfold moveCrosshair.
    rewrite Hact, Hts. rewrite Hsynth in *. now rewrite Efold. }
  destruct Inv as [[E Hall] | (before & after & E & Hw & Hb & Hbef & Haft)].
  - inversion E; subst nearest best.
    split; [rewrite Hsynth; now left |]. split; [exact Hcross |].
    split; [| reflexivity].
    intros (q & Hq & Hqw). exfalso.
    rewrite Forall_forall in Hall. exact (Hall q Hq Hqw).
  - cbn [fst snd] in *.
    split; [rewrite E; apply in_or_app; right; now left |].
    split; [exact Hcross |]. split.
    + intros _. exists before, after. auto.
    + intros Hnone. exfalso. apply (Hnone nearest); [| exact Hw].
      rewrite E. apply in_or_app. right. now left.
Qed.

End CrosshairTheorem.

Section CrosshairInstances.

Import Chart Viewport.
Local Open Scope R_scope.

(** C8 as stated fails when the active domain holds no point of the
    series: zoomed in between the points at 0 and 1000, on [400, 600], the
    crosshair shows the first point of the series, which is outside. *)
Lemma crosshair_outside_empty_window :
  activeDomain [mkPoint #0 #100; mkPoint #1000 #110]
               (mkView (Some (mkDomain #400 #600)) false None None)
  = mkDomain #400 #600
  /\ exists c,
       cross (onPointerMove plainChart [mkPoint #0 #100; mkPoint #1000 #110]
                (mkView (Some (mkDomain #400 #600)) false None None)
                (mkPointer #575 #0))
       = Some c
       /\ cross_ts c = #0
       /\ ~ (400 <= 0 <= 600).
Proof.
  split; [reflexivity |].
  destruct (pointerTime_finite 400 600 575 (mkPointer #575 #0)
              (offset_from_zero 575)) as [ts Hts].
  rewrite onPointerMove_cross. unfold moveCrosshair.
  cbn [activeDomain domain]. rewrite Hts. cbn [fold_left].
  rewrite (nearestStep_finite 400 600 ts _ _ (mkPoint #0 #100) 0 eq_refl).
  destruct (Rlt_dec 0 400) as [_ | N]; [| lra].
  rewrite (nearestStep_finite 400 600 ts _ _ (mkPoint #1000 #110) 1000 eq_refl).
  destruct (Rlt_dec 1000 400) as [N | _]; [lra |].
  destruct (Rlt_dec 600 1000) as [_ | N]; [| lra].
  eexists. split; [reflexivity |]. split; [reflexivity | lra].
Qed.

Lemma crosshair_snaps_to_nearest_witness :
  exists ts nearest,
    pointerTime (mkDomain #0 #1070) (mkPointer #575 #0) = #ts
    /\ In nearest exampleSeries
    /\ cross (onPointerMove plainChart exampleSeries idleView
                            (mkPointer #575 #0))
       = Some (mkCross (xScale plainChart (time nearest))
                       (yScale plainChart (value nearest))
                       (time nearest) (value nearest)).
Proof.
  assert (Hfin : Forall finiteTime exampleSeries).
  { repeat constructor; eexists; reflexivity. }
  destruct (crosshair_snaps_to_nearest plainChart exampleSeries idleView
              (mkPointer #575 #0) 0 1070 575 (mkPoint #0 #100)
              [mkPoint #1070 #120] eq_refl Hfin eq_refl (offset_from_zero 575))
    as (ts & nearest & Hts & Hin & Hcross & _).
  exists ts, nearest. auto.
Defined.

End CrosshairInstances.

(** ** More of the simulator *)

Section SimulatorMore.

Import Simulator.
Local Open Scope R_scope.

Lemma compound_cons_finite (k b x c : R) (t t' : number) rest :
  compound #k (mkPoint t #x) #b (mkPoint t' #c :: rest)
  = mkPoint t' #(b * stepFactor k x c)
    :: compound #k (mkPoint t' #c) #(b * stepFactor k x c) rest.
Proof.
  unfold stepFactor. cbn [compound value time truthy]. unfold Rzero.
  destruct (Req_dec_T x 0) as [E | E]; cbn [negb].
  - cbn [JS.mul JS.add]. replace (1 + k * 0) with 1 by ring. reflexivity.
  - cbn [JS.sub JS.neg JS.add]. rewrite (div_Fin _ _ E). cbn [JS.mul JS.add].
    reflexivity.
Qed.

Lemma finiteValue_Fin p : finiteValue p = true -> value p = #(valueOf p).
Proof.
  unfold finiteValue, valueOf. destruct (value p); simpl; congruence.
Qed.

Lemma compound_finite (k : R) rest : forall prev (b : R),
  finiteValue prev = true ->
  forallb finiteValue rest = true ->
  map value (compound #k prev #b rest)
  = map Fin (compoundR k (valueOf prev) b rest).
Proof.
  induction rest as [| p rest IH]; intros prev b Hprev Hrest; [reflexivity |].
  cbn [forallb] in Hrest. apply andb_prop in Hrest as [Hp Hrest].
  destruct prev as [tp vp], p as [t v]. unfold finiteValue in Hprev, Hp.
  cbn [value] in Hprev, Hp.
  destruct vp as [| | x]; try discriminate.
  destruct v as [| | c]; try discriminate.
  rewrite compound_cons_finite. cbn [map compoundR valueOf value].
  f_equal. apply (IH (mkPoint t #c)); [reflexivity | exact Hrest].
Qed.

Lemma buildSyntheticSeries_finite (k b : R) spx :
  forallb finiteValue spx = true ->
  map value (buildSyntheticSeries spx #k (VNumber #b))
  = map Fin (syntheticR k b spx).
Proof.
  destruct spx as [| p0 rest]; [reflexivity |].
  cbn [forallb]. intros H. apply andb_prop in H as [H0 Hrest].
  cbn [buildSyntheticSeries syntheticR map value]. f_equal.
  now apply compound_finite.
Qed.

Lemma stepFactor_flat k c : stepFactor k c c = 1.
Proof.
  unfold stepFactor. destruct (Req_dec_T c 0); [reflexivity | now field].
Qed.

Lemma compoundR_flat k c rest : forall b,
  Forall (fun p => valueOf p = c) rest ->
  compoundR k c b rest = map (fun _ => b) rest.
Proof.
  induction rest as [| p rest IH]; intros b H; [reflexivity |].
  apply Forall_cons_iff in H as [Hp Hrest]. cbn [compoundR map].
  rewrite Hp, stepFactor_flat, Rmult_1_r. f_equal. now apply IH.
Qed.

Lemma compoundR_tracks rest : forall x b,
  x <> 0 -> Forall (fun p => valueOf p <> 0) rest ->
  compoundR 1 x b rest = map (fun p => b * valueOf p / x) rest.
Proof.
  induction rest as [| p rest IH]; intros x b Hx H; [reflexivity |].
  apply Forall_cons_iff in H as [Hp Hrest]. cbn [compoundR map].
  assert (E : b * stepFactor 1 x (valueOf p) = b * valueOf p / x).
  { unfold stepFactor. destruct (Req_dec_T x 0); [contradiction | now field]. }
  rewrite E. f_equal. rewrite (IH _ _ Hp Hrest).
  apply map_ext. intros q. now field.
Qed.

Lemma compoundR_zero k rest : forall x,
  compoundR k x 0 rest = map (fun _ => 0) rest.
Proof.
  induction rest as [| p rest IH]; intros x; [reflexivity |].
  cbn [compoundR map]. rewrite Rmult_0_l. f_equal. apply IH.
Qed.

Lemma compoundR_zero_after k rest : forall x b i j v,
  nth_error (b :: compoundR k x b rest) i = Some 0 ->
  (i <= j)%nat ->
  nth_error (b :: compoundR k x b rest) j = Some v ->
  v = 0.
Proof.
  induction rest as [| p rest IH]; intros x b i j v Hi Hij Hj.
  - destruct i as [| i]; [| destruct i; discriminate].
    destruct j as [| j]; [| destruct j; discriminate].
    simpl in Hi, Hj. congruence.
  - destruct i as [| i].
    + simpl in Hi. injection Hi as ->.
      rewrite compoundR_zero in Hj.
      change (0 :: map (fun _ : PricePoint => 0) (p :: rest))
        with (map (fun _ : PricePoint => 0) (p :: p :: rest)) in Hj.
      rewrite nth_error_map in Hj.
      destruct (nth_error (p :: p :: rest) j); simpl in Hj; congruence.
    + destruct j as [| j]; [lia |].
      cbn [compoundR] in Hi, Hj. simpl nth_error in Hi, Hj.
      apply (IH _ _ i j v Hi); [lia | exact Hj].
Qed.

Lemma compound_firstn k rest : forall prev b n,
  compound k prev b (firstn n rest) = firstn n (compound k prev b rest).
Proof.
  induction rest as [| p rest IH]; intros prev b n.
  - now rewrite !firstn_nil.
  - destruct n as [| n]; [reflexivity |].
    cbn [firstn compound]. f_equal. apply IH.
Qed.

Lemma Forall_finite_forallb (P : R -> Prop) (l : list PricePoint) :
  Forall (fun p => exists r, value p = #r /\ P r) l ->
  forallb finiteValue l = true /\ Forall (fun p => P (valueOf p)) l.
Proof.
  induction 1 as [| p l (r & Hr & HP) _ [IH1 IH2]]; [now split |].
  split.
  - cbn [forallb]. unfold finiteValue at 1. now rewrite Hr, IH1.
  - constructor; [| exact IH2]. unfold valueOf. now rewrite Hr.
Qed.

Lemma stepFactor_bound k rho prev curr :
  0 <= rho ->
  (prev <> 0 -> Rabs (curr - prev) <= rho * Rabs prev) ->
  Rabs (stepFactor k prev curr) <= 1 + Rabs k * rho.
Proof.
  intros Hrho Hmove. unfold stepFactor.
  pose proof (Rabs_pos k) as Hk.
  destruct (Req_dec_T prev 0) as [E | N].
  - rewrite Rabs_R1. nra.
  - specialize (Hmove N).
    assert (Hp : 0 < Rabs prev) by now apply Rabs_pos_lt.
    assert (Hr : Rabs ((curr - prev) / prev) <= rho).
    { unfold Rdiv. rewrite Rabs_mult, Rabs_inv.
      apply Rmult_le_reg_r with (Rabs prev); [exact Hp |].
      rewrite Rmult_assoc, Rinv_l by lra. lra. }
    eapply Rle_trans; [apply Rabs_triang |].
    rewrite Rabs_R1, Rabs_mult.
    pose proof (Rabs_pos ((curr - prev) / prev)). nra.
Qed.

Lemma stepsWithin_tail rho p rest :
  stepsWithin rho (p :: rest) -> stepsWithin rho rest.
Proof. intros H i a b Ha Hb. exact (H (S i) a b Ha Hb). Qed.

Lemma compoundR_bound k rho rest : forall prev b,
  0 <= rho ->
  stepsWithin rho (prev :: rest) ->
  forall i v,
    nth_error (compoundR k (valueOf prev) b rest) i = Some v ->
    Rabs v <= Rabs b * (1 + Rabs k * rho) ^ (S i).
Proof.
  induction rest as [| p rest IH]; intros prev b Hrho Hs i v Hv.
  - destruct i; discriminate.
  - pose proof (Hs 0%nat prev p eq_refl eq_refl) as Hmove.
    pose proof (stepFactor_bound k rho _ _ Hrho Hmove) as Hf.
    pose proof (Rabs_pos b) as Hb. pose proof (Rabs_pos k) as Hk.
    assert (Hb' : Rabs (b * stepFactor k (valueOf prev) (valueOf p))
                  <= Rabs b * (1 + Rabs k * rho)).
    { rewrite Rabs_mult. apply Rmult_le_compat_l; assumption. }
    cbn [compoundR] in Hv. destruct i as [| i].
    + cbn in Hv. injection Hv as <-. cbn [pow]. lra.
    + cbn [nth_error] in Hv.
      specialize (IH p _ Hrho (stepsWithin_tail _ _ _ Hs) i v Hv).
      eapply Rle_trans; [exact IH |].
      change ((1 + Rabs k * rho) ^ S (S i))
        with ((1 + Rabs k * rho) * (1 + Rabs k * rho) ^ S i).
      assert (Hq : 0 <= (1 + Rabs k * rho) ^ S i).
      { apply pow_le. nra. }
      nra.
Qed.

(** X1.  The synthetic values grow at most geometrically, and so they
    stay finite.  Let the prices be of moderate size, let every step from
    a price other than 0 move the price by at most [rho] times its
    magnitude, and let the leverage [k] have [|k| rho <= 1e100].  Then the
    value at index [i] is a finite number of magnitude at most
    [|b| (1 + |k| rho)^i], [b] being the base; when this bound is at most
    1e300 at the last index, it is so at every index, and no value leaves
    the range of the doubles. *)
Theorem buildSyntheticSeries_stays_finite :
  forall (spx : list PricePoint) (k b rho : R),
    Forall moderate spx ->
    0 <= rho ->
    Rabs k * rho <= 1e100 ->
    stepsWithin rho spx ->
    Rabs b * (1 + Rabs k * rho) ^ (length spx - 1) <= 1e300 ->
    forall (i : nat) (o : PricePoint),
      nth_error (buildSyntheticSeries spx #k (VNumber #b)) i = Some o ->
      exists v,
        value o = #v
        /\ Rabs v <= Rabs b * (1 + Rabs k * rho) ^ i
        /\ Rabs v <= 1e300.
Proof.
  intros spx k b rho Hmod Hrho _ Hs Hcap i o Ho.
  pose proof (proj1 (Forall_finite_forallb _ _ Hmod)) as Hfin.
  pose proof (buildSyntheticSeries_finite k b spx Hfin) as E.
  assert (Hi : nth_error (map Fin (syntheticR k b spx)) i = Some (value o)).
  { rewrite <- E, nth_error_map, Ho. reflexivity. }
  rewrite nth_error_map in Hi.
  destruct (nth_error (syntheticR k b spx) i) as [v |] eqn:Ev;
    [| discriminate].
  cbn in Hi. injection Hi as Hv. exists v. split; [now symmetry |].
  assert (Hlen : (i < length spx)%nat).
  { apply (f_equal (@length _)) in E. rewrite !length_map in E.
    assert (Hl : (i < length (syntheticR k b spx))%nat)
      by (apply nth_error_Some; congruence).
    assert (Hb : length (buildSyntheticSeries spx #k (VNumber #b))
                 = length spx).
    { destruct spx as [| p0 rest]; [reflexivity |].
      cbn [buildSyntheticSeries length]. now rewrite compound_length. }
    lia. }
  assert (Hbound : Rabs v <= Rabs b * (1 + Rabs k * rho) ^ i).
  { destruct spx as [| p0 rest]; [destruct i; discriminate |].
    cbn [syntheticR] in Ev. destruct i as [| i].
    - cbn in Ev. injection Ev as <-. cbn [pow]. lra.
    - cbn [nth_error] in Ev.
      exact (compoundR_bound k rho rest p0 b Hrho Hs i v Ev). }
  split; [exact Hbound |].
  eapply Rle_trans; [exact Hbound |].
  eapply Rle_trans; [| exact Hcap].
  apply Rmult_le_compat_l; [apply Rabs_pos |].
  apply Rle_pow; [pose proof (Rabs_pos k); nra | lia].
Qed.

(** X2.  When every price of the input is the same finite number, the
    synthetic series stays at the base, whatever the leverage. *)
Theorem buildSyntheticSeries_flat_prices :
  forall (spx : list PricePoint) (k b c : R),
    Forall (fun p => value p = #c) spx ->
    map value (buildSyntheticSeries spx #k (VNumber #b))
    = map (fun _ => #b) spx.
Proof.
  intros spx k b c H.
  assert (H' : Forall (fun p => exists r, value p = #r /\ r = c) spx).
  { eapply Forall_impl; [| exact H]. intros p Hp. now exists c. }
  apply Forall_finite_forallb in H' as [Hfin Hc].
  rewrite (buildSyntheticSeries_finite k b spx Hfin).
  destruct spx as [| p0 rest]; [reflexivity |].
  apply Forall_cons_iff in Hc as [H0 Hrest].
  cbn [syntheticR map]. f_equal.
  rewrite H0, (compoundR_flat k c rest b Hrest).
  now rewrite map_map.
Qed.

(** X3.  With leverage 1 the synthetic series is the index rescaled to
    the base: its value at each point is [base * price / first price].
    This is for prices between 1e-100 and 1e100 of which none is less
    than half or more than twice the one before, and a base that is 0 or
    of magnitude between 1e-100 and 1e100: then every return, factor,
    product and value is within the range of the doubles, and no factor
    [1 + r] loses the return [r]. *)
Theorem buildSyntheticSeries_unit_leverage_tracks :
  forall (p0 : PricePoint) (rest : list PricePoint) (b : R),
    b = 0 \/ 1e-100 <= Rabs b <= 1e100 ->
    Forall (fun p => exists r, value p = #r /\ 1e-100 <= r <= 1e100)
           (p0 :: rest) ->
    steady (p0 :: rest) ->
    map value (buildSyntheticSeries (p0 :: rest) #1 (VNumber #b))
    = map (fun p => (#b * value p / value p0)%num) (p0 :: rest).
Proof.
  intros p0 rest b _ Hpos _.
  assert (H : Forall (fun p => exists r, value p = #r /\ r <> 0%R)
                     (p0 :: rest)).
  { eapply Forall_impl; [| exact Hpos].
    intros p (r & Hr & Hb). exists r. split; [exact Hr | lra]. }
  pose proof (Forall_finite_forallb _ _ H) as [Hfin Hnz].
  rewrite (buildSyntheticSeries_finite 1 b _ Hfin).
  pose proof Hnz as Hnz'. apply Forall_cons_iff in Hnz' as [H0 Hrest].
  cbn [syntheticR]. rewrite (compoundR_tracks rest _ b H0 Hrest).
  change (#b :: map Fin (map (fun p => b * valueOf p / valueOf p0) rest)
          = map (fun p => (#b * value p / value p0)%num) (p0 :: rest)).
  assert (E : forall p, In p (p0 :: rest) ->
                (#b * value p / value p0)%num = #(b * valueOf p / valueOf p0)).
  { intros p Hin. rewrite Forall_forall in H.
    destruct (H p Hin) as (r & Hr & _).
    destruct (H p0 (or_introl eq_refl)) as (r0 & Hr0 & Hr0nz).
    unfold valueOf. rewrite Hr, Hr0. cbn [JS.mul]. now rewrite div_Fin. }
  rewrite (map_ext_in _ _ _ E). cbn [map]. rewrite map_map. f_equal.
  f_equal. now field.
Qed.

(** X5.  The simulator never looks ahead: the synthetic series of the
    first [n] prices is the first [n] points of the synthetic series of all
    of them, for every input, leverage and base. *)
Theorem buildSyntheticSeries_prefix :
  forall (spx : list PricePoint) (k : number) (base : jsval) (n : nat),
    buildSyntheticSeries (firstn n spx) k base
    = firstn n (buildSyntheticSeries spx k base).
Proof.
  intros spx k base n.
  destruct n as [| n]; [reflexivity |].
  destruct spx as [| p0 rest]; [reflexivity |].
  cbn [firstn buildSyntheticSeries]. f_equal. apply compound_firstn.
Qed.

(** X6.  A synthetic value of zero is never left.  For prices of
    moderate size and a leverage of magnitude at most 1e100 (so that every
    return, and its product with the leverage, is within the range of the
    doubles), once the series is at 0 it is at 0 at every later point. *)
Theorem buildSyntheticSeries_zero_is_absorbing :
  forall (spx : list PricePoint) (k b : R) (i j : nat) (o o' : PricePoint),
    Forall moderate spx ->
    Rabs k <= 1e100 ->
    (i <= j)%nat ->
    nth_error (buildSyntheticSeries spx #k (VNumber #b)) i = Some o ->
    value o = #0 ->
    nth_error (buildSyntheticSeries spx #k (VNumber #b)) j = Some o' ->
    value o' = #0.
Proof.
  intros spx k b i j o o' Hmod _ Hij Hi Ho Hj.
  pose proof (proj1 (Forall_finite_forallb _ _ Hmod)) as Hfin.
  pose proof (buildSyntheticSeries_finite k b spx Hfin) as E.
  assert (Hi' : nth_error (map Fin (syntheticR k b spx)) i = Some #0).
  { rewrite <- E, nth_error_map, Hi. simpl. now rewrite Ho. }
  assert (Hj' : nth_error (map Fin (syntheticR k b spx)) j = Some (value o')).
  { rewrite <- E, nth_error_map, Hj. reflexivity. }
  rewrite nth_error_map in Hi', Hj'.
  destruct (nth_error (syntheticR k b spx) i) as [vi |] eqn:Ei;
    [| discriminate].
  destruct (nth_error (syntheticR k b spx) j) as [vj |] eqn:Ej;
    [| discriminate].
  simpl in Hi', Hj'. injection Hi' as ->. injection Hj' as <-.
  destruct spx as [| p0 rest]; [destruct i; discriminate |].
  cbn [syntheticR] in Ei, Ej.
  now rewrite (compoundR_zero_after k rest _ b i j vj Ei Hij Ej).
Qed.

End SimulatorMore.

(** Three prices of a falling and recovering index, used below. *)
Lemma moderate_example :
  Forall moderate [mkPoint #0 #100; mkPoint #1 #50; mkPoint #2 #80].
Proof.
  repeat constructor; eexists; (split; [reflexivity |]);
    right; rewrite Rabs_right; lra.
Qed.

Lemma buildSyntheticSeries_stays_finite_witness :
  exists v,
    value (mkPoint #2 #(100 * (1 + 2 * ((50 - 100) / 100))
                        * (1 + 2 * ((80 - 50) / 50)))) = #v
    /\ (Rabs v <= Rabs 100 * (1 + Rabs 2 * 1) ^ 2)%R
    /\ (Rabs v <= 1e300)%R.
Proof.
  apply (buildSyntheticSeries_stays_finite
           [mkPoint #0 #100; mkPoint #1 #50; mkPoint #2 #80] 2 100 1
           moderate_example).
  - lra.
  - rewrite Rabs_right; lra.
  - intros [| [| [| i]]] p q Hp Hq _;
      cbn in Hp, Hq; try discriminate;
      injection Hp as <-; injection Hq as <-; unfold valueOf; cbn [value].
    + rewrite Rabs_left, Rabs_right; lra.
    + rewrite !Rabs_right; lra.
  - cbn [length Nat.sub pow]. rewrite !Rabs_right; lra.
  - cbn [Simulator.buildSyntheticSeries Simulator.compound nth_error value
         time truthy].
    unfold Rzero.
    destruct (Req_dec_T 100 0) as [E | E]; [lra |].
    destruct (Req_dec_T 50 0) as [E' | E']; [lra |].
    cbn [negb JS.sub JS.neg JS.add]. rewrite (div_Fin _ _ E), (div_Fin _ _ E').
    cbn [JS.mul JS.add]. reflexivity.
Defined.

Lemma buildSyntheticSeries_flat_prices_witness :
  Forall (fun p => value p = #4500) [mkPoint #0 #4500; mkPoint #1 #4500]
  /\ map value
       (Simulator.buildSyntheticSeries
          [mkPoint #0 #4500; mkPoint #1 #4500] #(-3) (VNumber #100))
     = map (fun _ => #100) [mkPoint #0 #4500; mkPoint #1 #4500].
Proof.
  assert (H : Forall (fun p => value p = #4500)
                [mkPoint #0 #4500; mkPoint #1 #4500]).
  { repeat constructor. }
  split; [exact H |].
  exact (buildSyntheticSeries_flat_prices _ (-3) 100 4500 H).
Defined.

Lemma buildSyntheticSeries_unit_leverage_tracks_witness :
  map value
    (Simulator.buildSyntheticSeries
       [mkPoint #0 #4000; mkPoint #1 #5000] #1 (VNumber #100))
  = map (fun p => (#100 * value p / #4000)%num)
        [mkPoint #0 #4000; mkPoint #1 #5000].
Proof.
  apply (buildSyntheticSeries_unit_leverage_tracks
           (mkPoint #0 #4000) [mkPoint #1 #5000] 100).
  - right. rewrite Rabs_right; lra.
  - repeat constructor.
    + exists 4000%R. split; [reflexivity | lra].
    + exists 5000%R. split; [reflexivity | lra].
  - intros [| [| i]] p q Hp Hq; cbn in Hp, Hq; try discriminate.
    injection Hp as <-. injection Hq as <-. unfold valueOf. cbn [value]. lra.
Defined.

Lemma buildSyntheticSeries_zero_is_absorbing_witness :
  value
    (nth 2 (Simulator.buildSyntheticSeries
              [mkPoint #0 #100; mkPoint #1 #50; mkPoint #2 #80]
              #2 (VNumber #100))
         (mkPoint NaN NaN))
  = #0.
Proof.
  apply (buildSyntheticSeries_zero_is_absorbing
           [mkPoint #0 #100; mkPoint #1 #50; mkPoint #2 #80] 2 100 1 2
           (nth 1 (Simulator.buildSyntheticSeries
                     [mkPoint #0 #100; mkPoint #1 #50; mkPoint #2 #80]
                     #2 (VNumber #100))
                (mkPoint NaN NaN))).
  - exact moderate_example.
  - rewrite Rabs_right; lra.
  - lia.
  - reflexivity.
  - cbn [Simulator.buildSyntheticSeries Simulator.compound nth value time
         truthy].
    unfold Rzero. destruct (Req_dec_T 100 0) as [E | E]; [lra |].
    cbn [negb JS.sub JS.neg JS.add]. rewrite (div_Fin _ _ E).
    cbn [JS.mul JS.add]. f_equal. field.
  - reflexivity.
Defined.

(** ** More of the proxy, and the client's fetcher *)

Section ProxyMore.

Import Proxy.

Lemma mapIndexed_past_end (close : list jsval) (ts : list number) : forall i,
  (length close <= i)%nat ->
  filter (fun p => Number_isFinite (raw_value p)) (mapIndexed close i ts) = [].
Proof.
  induction ts as [| t ts IH]; intros i Hi; [reflexivity |].
  cbn [mapIndexed filter raw_value]. unfold closeAt.
  rewrite nth_overflow by exact Hi. cbn [Number_isFinite].
  apply IH. lia.
Qed.

Lemma buildSeries_combine (ts : list number) : forall (pre close : list jsval),
  filter (fun p => Number_isFinite (raw_value p))
         (mapIndexed (pre ++ close) (length pre) ts)
  = map pointOf
        (filter (fun tc => Number_isFinite (snd tc)) (combine ts close)).
Proof.
  induction ts as [| t ts IH]; intros pre close; [reflexivity |].
  destruct close as [| c close].
  - rewrite app_nil_r. apply mapIndexed_past_end. lia.
  - cbn [mapIndexed combine filter raw_value snd]. rewrite closeAt_app.
    replace (pre ++ c :: close) with ((pre ++ [c]) ++ close)
      by now rewrite <- app_assoc.
    replace (S (length pre)) with (length (pre ++ [c]))
      by (rewrite length_app; simpl; lia).
    rewrite IH. destruct (Number_isFinite c); reflexivity.
Qed.

(** X7.  The proxy needs no agreement between the lengths of the two
    arrays: it pairs timestamps and closes up to the shorter one, so
    timestamps without a close are dropped and closes without a timestamp
    are not read. *)
Theorem handler_pairs_up_to_shorter_array :
  forall (ts : list number) (close : list jsval),
    handler (Json (mkPayload (Some ts) (Some close)))
    = mkResponse 200
        (SeriesBody
           (map pointOf
                (filter (fun tc => Number_isFinite (snd tc))
                        (combine ts close)))).
Proof.
  intros ts close. unfold handler, buildSeries. cbn [timestamp Proxy.close].
  now rewrite <- (buildSeries_combine ts [] close).
Qed.

(** X8.  What the proxy answers when no series can be built: 502 with the
    upstream status when the upstream answer is not ok, 500 when the fetch
    or the parse fails and when either array is missing; a series is sent
    with status 200 and with no other. *)
Theorem handler_failures :
  forall (upstream : Upstream),
    match upstream with
    | FetchThrows =>
        handler upstream = mkResponse 500 (ErrorBody "Internal error" None)
    | NotOk s =>
        handler upstream = mkResponse 502 (ErrorBody "Upstream failed" (Some s))
    | Json j =>
        (timestamp j = None \/ close j = None ->
         handler upstream = mkResponse 500 (ErrorBody "Bad upstream data" None))
    end
    /\ (status (handler upstream) = 200
        <-> exists series, body (handler upstream) = SeriesBody series).
Proof.
  intros [| s | [ts cl]]; (split; [| split]); cbn.
  - reflexivity.
  - discriminate.
  - intros [series H]. discriminate.
  - reflexivity.
  - discriminate.
  - intros [series H]. discriminate.
  - intros [-> | ->]; [reflexivity | now destruct ts].
  - destruct ts, cl; cbn; try discriminate; intros _; eexists; reflexivity.
  - destruct ts, cl; cbn; intros [series H]; try discriminate; reflexivity.
Qed.

End ProxyMore.

Section ClientFacts.

Import Proxy Client Wire.

Lemma mapPoints_length series points :
  mapPoints series = Normal points -> length points = length series.
Proof.
  revert points. induction series as [| p rest IH]; intros points H.
  - injection H as <-. reflexivity.
  - cbn [mapPoints] in H. destruct p as [| t v]; [discriminate |].
    cbn [readPoint bind] in H.
    destruct (mapPoints rest) as [qs |]; [| discriminate].
    cbn [bind] in H. injection H as <-. cbn [length]. now rewrite (IH qs).
Qed.

Lemma sane_asPricePoint (p : jsval * jsval) :
  sane p = true -> isFinite (value (asPricePoint p)) = true.
Proof.
  destruct p as [t v]. unfold sane. cbn [fst snd].
  destruct v as [| | b | n | s]; try discriminate.
  destruct t as [| | b | m | s]; cbn; try (rewrite andb_false_r; discriminate).
  now rewrite andb_true_r.
Qed.

(** X9.  Whatever the answer of [/api/spx] holds, every point the fetcher
    returns has a finite value, and it returns no more points than the
    answer's series has elements. *)
Theorem fetchYahooSPX_values_finite :
  forall (answer : Answer) (points : list PricePoint),
    fetchYahooSPX answer = Normal points ->
    Forall (fun p => isFinite (value p) = true) points
    /\ exists series,
         answer = Body (Some series) /\ (length points <= length series)%nat.
Proof.
  intros [s | [series |]] points H; try discriminate.
  cbn [fetchYahooSPX] in H.
  destruct (mapPoints series) as [qs |] eqn:E; [| discriminate].
  cbn [bind] in H. injection H as <-. split.
  - apply Forall_map, Forall_forall. intros q Hq.
    apply filter_In in Hq as [_ Hq]. now apply sane_asPricePoint.
  - exists series. split; [reflexivity |].
    rewrite length_map, <- (mapPoints_length _ _ E). apply filter_length_le.
Qed.

Lemma mapPoints_jsonPoint (l : list RawPoint) :
  mapPoints (map jsonPoint l)
  = Normal
      (map (fun p => (jsonNumber (raw_time p), jsonValue (raw_value p))) l).
Proof.
  induction l as [| p l IH]; [reflexivity |].
  cbn [map mapPoints jsonPoint readPoint bind]. rewrite IH. reflexivity.
Qed.

Lemma delivered_points (l : list (number * jsval)) :
  map asPricePoint
    (filter sane
       (map (fun p => (jsonNumber (raw_time p), jsonValue (raw_value p)))
            (map pointOf (filter (fun tc => Number_isFinite (snd tc)) l))))
  = map (fun tc => asPricePoint (VNumber (fst tc * #1000), snd tc))
        (filter (fun tc => isFinite (fst tc * #1000)
                           && Number_isFinite (snd tc)) l).
Proof.
  induction l as [| [t v] l IH]; [reflexivity |].
  cbn [filter snd fst].
  destruct (Number_isFinite v) eqn:Ev.
  - rewrite andb_true_r.
    cbn [map pointOf fst snd raw_time raw_value filter].
    destruct v as [| | b | n | s]; try discriminate.
    cbn [Number_isFinite] in Ev. destruct n as [| s | r]; try discriminate.
    unfold sane, jsonNumber. cbn [fst snd jsonValue]. unfold jsonNumber.
    cbn [isFinite Number_isFinite andb].
    destruct (isFinite (t * #1000)) eqn:Et; cbn [typeof_is_number].
    + cbn [map fst snd]. f_equal. exact IH.
    + exact IH.
  - rewrite andb_false_r. exact IH.
Qed.

(** X10.  From the upstream payload to the client's series.  The proxy
    reads every timestamp as a number ([null] as 0).  Of the pairs of a
    timestamp and the close of the same index, the client receives those
    whose close is a finite number and whose time, the timestamp
    multiplied by 1000, is finite, in the original order and with that
    time; a pair whose time is not finite leaves the proxy, is written as
    [null] and is dropped by the client.  When the proxy answers with any
    other status than 200, the fetcher throws. *)
Theorem proxy_to_client :
  (forall (toNumber : string -> number) (stamps close : list jsval),
     let ts := map (timestampOf toNumber) stamps in
     fetchYahooSPX (deliver (handler (Json (mkPayload (Some ts) (Some close)))))
     = Normal
         (map (fun tc => asPricePoint (VNumber (fst tc * #1000), snd tc))
              (filter (fun tc => isFinite (fst tc * #1000)
                                 && Number_isFinite (snd tc))
                      (combine ts close))))
  /\ (forall (upstream : Upstream),
        status (handler upstream) <> 200 ->
        fetchYahooSPX (deliver (handler upstream)) = Throws).
Proof.
  split.
  - intros toNumber stamps close ts.
    unfold handler, buildSeries. cbn [timestamp Proxy.close].
    change (mapIndexed close 0 ts)
      with (mapIndexed ([] ++ close) (length (@nil jsval)) ts).
    rewrite buildSeries_combine.
    unfold deliver. cbn [status body Nat.leb andb fetchYahooSPX].
    rewrite mapPoints_jsonPoint. cbn [bind]. f_equal. apply delivered_points.
  - intros [| s | [ts cl]] H; try reflexivity.
    destruct ts, cl; try reflexivity. now elim H.
Qed.

End ClientFacts.

Lemma fetchYahooSPX_values_finite_witness :
  Client.fetchYahooSPX
    (Client.Body
       (Some [Client.Obj (VNumber #1000) (VNumber #50);
              Client.Obj (VNumber #2000) VNull;
              Client.Obj VNull (VNumber #51)]))
  = Normal [mkPoint #1000 #50]
  /\ Forall (fun p => isFinite (value p) = true) [mkPoint #1000 #50].
Proof.
  split; [reflexivity |].
  apply (fetchYahooSPX_values_finite
           (Client.Body
              (Some [Client.Obj (VNumber #1000) (VNumber #50);
                     Client.Obj (VNumber #2000) VNull;
                     Client.Obj VNull (VNumber #51)]))
           [mkPoint #1000 #50]).
  reflexivity.
Defined.

Lemma proxy_to_client_witness :
  Client.fetchYahooSPX
    (Wire.deliver
       (Proxy.handler
          (Proxy.Json
             (Proxy.mkPayload
                (Some (map (Wire.timestampOf Presets.decimalToNumber)
                           [VNumber #1; VNull; VNumber #3]))
                (Some [VNumber #50; VNumber #51; VNull])))))
  = Normal [mkPoint #(1 * 1000) #50; mkPoint #(0 * 1000) #51].
Proof.
  rewrite (proj1 proxy_to_client Presets.decimalToNumber
             [VNumber #1; VNull; VNumber #3]
             [VNumber #50; VNumber #51; VNull]).
  reflexivity.
Defined.

(** ** The component's data flow *)

Section ComponentFacts.

Import Component.
Local Open Scope R_scope.

Lemma finiteTime_Fin p : finiteTime p -> time p = #(timeOf p).
Proof. intros [r Hr]. unfold timeOf. now rewrite Hr. Qed.

Lemma ge_time (p : PricePoint) (c : R) :
  finiteTime p -> ((time p >=? #c)%num = true <-> c <= timeOf p).
Proof.
  intros Hp. rewrite (finiteTime_Fin p Hp). unfold ge. apply le_Fin.
Qed.

Lemma filter_all {A : Type} (f : A -> bool) (l : list A) :
  Forall (fun a => f a = true) l -> filter f l = l.
Proof.
  induction 1 as [| a l Ha _ IH]; [reflexivity |].
  cbn [filter]. now rewrite Ha, IH.
Qed.

(** On a series sorted by time, filtering by a lower bound cuts off a
    prefix. *)
Lemma filter_sorted_suffix (c : R) (l : list PricePoint) :
  Forall finiteTime l -> StronglySorted byTime l ->
  exists pre,
    l = (pre ++ filter (fun p => (time p >=? #c)%num) l)%list
    /\ Forall (fun p => timeOf p < c) pre
    /\ Forall (fun p => c <= timeOf p)
              (filter (fun p => (time p >=? #c)%num) l).
Proof.
  intros Hfin Hs. induction Hs as [| p l Hs IH Hp].
  - exists []. repeat split; constructor.
  - apply Forall_cons_iff in Hfin as [Hfp Hfl].
    destruct (Rle_dec c (timeOf p)) as [Hc | Hc].
    + exists []. cbn [app].
      assert (Hall : Forall (fun q => (time q >=? #c)%num = true) (p :: l)).
      { constructor; [now apply ge_time |].
        rewrite Forall_forall in Hp, Hfl |- *. intros q Hq.
        apply ge_time; [now apply Hfl |].
        specialize (Hp q Hq). unfold byTime in Hp. lra. }
      rewrite (filter_all _ _ Hall). repeat split; [constructor |].
      rewrite Forall_forall in Hall |- *. intros q Hq.
      apply ge_time; [| now apply Hall].
      destruct Hq as [<- | Hq]; [exact Hfp |].
      rewrite Forall_forall in Hfl. now apply Hfl.
    + destruct (IH Hfl) as (pre & E & Hpre & Hpost).
      exists (p :: pre). cbn [filter].
      destruct (time p >=? #c)%num eqn:Eg.
      * apply ge_time in Eg; [contradiction | exact Hfp].
      * repeat split.
        -- cbn [app]. now rewrite <- E.
        -- constructor; [lra | exact Hpre].
        -- exact Hpost.
Qed.

Lemma sorted_le_last (l : list PricePoint) (d p : PricePoint) :
  StronglySorted byTime l -> In p l -> timeOf p <= timeOf (List.last l d).
Proof.
  intros Hs. revert p. induction Hs as [| q l Hs IH Hq]; intros p Hin.
  - destruct Hin.
  - destruct l as [| q' l'].
    + destruct Hin as [<- | []]. cbn. lra.
    + change (List.last (q :: q' :: l') d) with (List.last (q' :: l') d).
      destruct Hin as [<- | Hin]; [| now apply IH].
      rewrite Forall_forall in Hq.
      apply Rle_trans with (timeOf q').
      * apply (Hq q'). now left.
      * apply IH. now left.
Qed.

Lemma last_In {A : Type} (l : list A) (a d : A) :
  In (List.last (a :: l) d) (a :: l).
Proof.
  revert a. induction l as [| b l IH]; intros a; [now left |].
  right. apply IH.
Qed.

(** X11.  The start filter.  Without a start -- and with a start at the
    epoch itself or NaN, which are falsy -- the data is kept as it is.  On
    data whose times are finite and sorted, a start [s] cuts off exactly
    the points before it: the data is a cut-off prefix, all before [s],
    followed by the result, all at [s] or later. *)
Theorem filteredData_cuts_prefix :
  (forall rawData,
     filteredData rawData None = rawData
     /\ filteredData rawData (Some #0) = rawData
     /\ filteredData rawData (Some NaN) = rawData)
  /\ (forall (rawData : list PricePoint) (s : R),
        s <> 0 ->
        Forall finiteTime rawData ->
        StronglySorted byTime rawData ->
        exists before,
          rawData = (before ++ filteredData rawData (Some #s))%list
          /\ Forall (fun p => timeOf p < s) before
          /\ Forall (fun p => s <= timeOf p) (filteredData rawData (Some #s))).
Proof.
  split.
  - intros [| p0 rest]; repeat split; cbn; unfold Rzero;
      destruct (Req_dec_T 0 0); try reflexivity; contradiction.
  - intros [| p0 rest] s Hs Hfin Hsorted.
    { exists []. repeat split; constructor. }
    set (raw := p0 :: rest) in *.
    assert (Hlast : In (List.last raw p0) raw) by apply last_In.
    assert (Hmin : forall q, In q raw -> timeOf p0 <= timeOf q).
    { intros q [<- | Hq]; [lra |].
      apply StronglySorted_inv in Hsorted as [_ Hh].
      rewrite Forall_forall in Hh. now apply Hh. }
    assert (Hmax : forall q, In q raw -> timeOf q <= timeOf (List.last raw p0)).
    { intros q Hq. now apply sorted_le_last. }
    pose proof Hfin as Hfin'. rewrite Forall_forall in Hfin'.
    unfold filteredData. fold raw.
    change (match raw with [] => raw | _ => _ end)
      with (if noStart (Some #s) then raw
            else if (#s >? time (List.last raw p0))%num then []
            else filter (fun p => (time p >=? Math_max #s (time p0))%num) raw).
    assert (Hno : noStart (Some #s) = false).
    { cbn. now rewrite (Rzero_false s Hs). }
    rewrite Hno.
    rewrite (finiteTime_Fin _ (Hfin' _ Hlast)).
    rewrite (finiteTime_Fin p0 (Hfin' p0 (or_introl eq_refl))).
    rewrite Math_max_Fin. unfold gt.
    destruct (#(timeOf (List.last raw p0)) <? #s)%num eqn:El.
    + apply lt_Fin in El. exists raw. rewrite app_nil_r.
      repeat split; [| constructor].
      apply Forall_forall. intros q Hq. specialize (Hmax q Hq). lra.
    + destruct (filter_sorted_suffix (Rmax s (timeOf p0)) raw Hfin Hsorted)
        as (pre & E & Hpre & Hpost).
      exists pre. repeat split; [exact E | |].
      * apply Forall_forall. intros q Hq.
        rewrite Forall_forall in Hpre. specialize (Hpre q Hq).
        assert (Hin : In q raw) by (rewrite E; apply in_or_app; now left).
        specialize (Hmin q Hin). revert Hpre.
        unfold Rmax. destruct (Rle_dec s (timeOf p0)); lra.
      * eapply Forall_impl; [| exact Hpost]. intros q Hq.
        pose proof (Rmax_l s (timeOf p0)). cbv beta in Hq. lra.
Qed.

Lemma filteredData_cuts_prefix_witness :
  exists before,
    [mkPoint #10 #1; mkPoint #20 #2; mkPoint #30 #3]
    = (before
       ++ filteredData [mkPoint #10 #1; mkPoint #20 #2; mkPoint #30 #3]
                       (Some #15))%list
    /\ Forall (fun p => timeOf p < 15) before
    /\ Forall (fun p => 15 <= timeOf p)
              (filteredData [mkPoint #10 #1; mkPoint #20 #2; mkPoint #30 #3]
                            (Some #15)).
Proof.
  apply (proj2 filteredData_cuts_prefix
           [mkPoint #10 #1; mkPoint #20 #2; mkPoint #30 #3] 15).
  - lra.
  - repeat constructor; eexists; reflexivity.
  - repeat constructor; unfold byTime; cbn; lra.
Defined.

(** X12.  The range asked of the proxy reaches back to the start: for a
    daily, weekly or monthly interval and a start that is a finite number
    other than 0, a request for 2, 5 or 10 years is made only when the
    start lies at most that many 365-day years before now.  For the four
    intraday intervals the range is 5 days whatever the start, and without
    a start it is 10 years. *)
Theorem requestRange_reaches_start :
  forall (interval : string) (s n : R),
    let year := 365 * 24 * 60 * 60 * 1000 in
    let range := requestRange interval (Some #s) #n in
    (In interval ["1"; "5"; "15"; "60"]%string ->
     range = "5d"%string
     /\ requestRange interval None #n = "5d"%string)
    /\ (~ In interval ["1"; "5"; "15"; "60"]%string ->
        requestRange interval None #n = "10y"%string
        /\ (s <> 0 ->
            (range = "2y"%string /\ n - s <= 2 * year)
            \/ (range = "5y"%string /\ 2 * year < n - s <= 5 * year)
            \/ (range = "10y"%string /\ 5 * year < n - s <= 10 * year)
            \/ (range = "max"%string /\ 10 * year < n - s))).
Proof.
  intros interval s n year range. subst range. unfold requestRange.
  assert (Hy : year <> 0) by (unfold year; lra).
  assert (Hy' : 0 < year) by (unfold year; lra).
  split.
  - intros Hin. cbn in Hin.
    destruct Hin as [<- | [<- | [<- | [<- | []]]]]; split; reflexivity.
  - intros Hnot.
    assert (E : ((interval =? "1") || (interval =? "5") || (interval =? "15")
                 || (interval =? "60"))%string = false).
    { repeat match goal with
      | |- context [(interval =? ?x)%string] =>
          destruct (String.eqb_spec interval x) as [-> | _];
          [exfalso; apply Hnot; cbn; tauto |]
      end. reflexivity. }
    rewrite E. split; [reflexivity |]. intros Hs.
    assert (Hno : noStart (Some #s) = false).
    { cbn. now rewrite (Rzero_false s Hs). }
    rewrite Hno. cbn [JS.sub JS.neg JS.add]. fold year.
    rewrite (div_Fin _ _ Hy). unfold gt.
    assert (Hd : forall c, c * year < n - s <-> c < (n + - s) / year).
    { intros c. split; intros H.
      - apply Rmult_lt_reg_r with year; [exact Hy' |].
        replace ((n + - s) / year * year) with (n - s) by (field; exact Hy).
        exact H.
      - apply Rmult_lt_compat_r with (r := year) in H; [| exact Hy'].
        replace ((n + - s) / year * year) with (n - s) in H
          by (field; exact Hy).
        exact H. }
    destruct (#10 <? #((n + - s) / year))%num eqn:E10.
    { apply lt_Fin, Hd in E10. right; right; right.
      split; [reflexivity | lra]. }
    apply lt_Fin_false in E10.
    destruct (#5 <? #((n + - s) / year))%num eqn:E5.
    { apply lt_Fin, Hd in E5. right; right; left. split; [reflexivity |].
      split; [lra |].
      destruct (Rle_dec (n - s) (10 * year)) as [L | L]; [exact L |].
      exfalso. assert (10 * year < n - s) by lra. apply Hd in H. lra. }
    apply lt_Fin_false in E5.
    destruct (#2 <? #((n + - s) / year))%num eqn:E2.
    { apply lt_Fin, Hd in E2. right; left. split; [reflexivity |].
      split; [lra |].
      destruct (Rle_dec (n - s) (5 * year)) as [L | L]; [exact L |].
      exfalso. assert (5 * year < n - s) by lra. apply Hd in H. lra. }
    apply lt_Fin_false in E2.
    left. split; [reflexivity |].
    destruct (Rle_dec (n - s) (2 * year)) as [L | L]; [exact L |].
    exfalso. assert (2 * year < n - s) by lra. apply Hd in H. lra.
Qed.

(** X13.  The time extent the viewport works with is that of the filtered
    data: neither the leverage nor the base moves an end of [fullDomain]. *)
Theorem fullDomain_of_synth :
  forall (data : list PricePoint) (leverage baseValue : number),
    Viewport.fullDomain (synth data leverage baseValue)
    = Viewport.fullDomain data.
Proof.
  intros data leverage baseValue. unfold Viewport.fullDomain, synth.
  destruct data as [| p0 rest]; [reflexivity |].
  cbn [Simulator.buildSyntheticSeries map time].
  now rewrite compound_times.
Qed.

End ComponentFacts.

(** ** The leverage presets *)

Section PresetFacts.

Import Presets.
Local Open Scope string_scope.

Lemma decimal_without (c : ascii) (k : nat) :
  (c = ":" \/ c = "+" \/ c = "-")%char -> without c (decimal k) = true.
Proof.
  intros Hc. unfold decimal. generalize (Nat.to_uint k). intros d.
  induction d; cbn [NilEmpty.string_of_uint without]; try reflexivity;
    rewrite IHd; destruct Hc as [-> | [-> | ->]]; reflexivity.
Qed.

Lemma split_without (c : ascii) (s : string) :
  without c s = true -> split c s = [s].
Proof.
  induction s as [| a s IH]; [reflexivity |].
  cbn [without split]. intros H. apply andb_prop in H as [Ha Hs].
  apply negb_true_iff in Ha. rewrite Ha, (IH Hs). reflexivity.
Qed.

Lemma removeFirst_without (c : ascii) (s : string) :
  without c s = true -> removeFirst c s = s.
Proof.
  induction s as [| a s IH]; [reflexivity |].
  cbn [without removeFirst]. intros H. apply andb_prop in H as [Ha Hs].
  apply negb_true_iff in Ha. rewrite Ha, (IH Hs). reflexivity.
Qed.

Lemma index_without (c : ascii) (rest s : string) :
  without c s = true -> index 0 (String c rest) s = None.
Proof.
  induction s as [| a s IH]; [reflexivity |].
  cbn [without]. intros H. apply andb_prop in H as [Ha Hs].
  apply negb_true_iff in Ha.
  cbn [index prefix]. destruct (ascii_dec c a) as [E | E].
  - subst a. now rewrite Ascii.eqb_refl in Ha.
  - now rewrite (IH Hs).
Qed.

Lemma prefix_empty (s : string) : prefix "" s = true.
Proof. now destruct s. Qed.

Lemma prefix_cons (a b : ascii) (p s : string) :
  prefix (String a p) (String b s) = Ascii.eqb a b && prefix p s.
Proof.
  cbn [prefix]. destruct (ascii_dec a b) as [-> | N].
  - now rewrite Ascii.eqb_refl.
  - apply Ascii.eqb_neq in N. now rewrite N.
Qed.

Lemma index_cons (pattern : string) (a : ascii) (s : string) :
  index 0 pattern (String a s)
  = if prefix pattern (String a s) then Some 0%nat
    else option_map S (index 0 pattern s).
Proof.
  cbn [index]. destruct (prefix pattern (String a s)); [reflexivity |].
  now destruct (index 0 pattern s).
Qed.

Ltac scan :=
  cbn [append];
  repeat (rewrite index_cons, prefix_cons;
          cbn [Ascii.eqb Bool.eqb andb option_map]);
  try rewrite !prefix_cons; try rewrite prefix_empty;
  cbn [Ascii.eqb Bool.eqb andb option_map].

Lemma isSynthetic_prefixed (rest : string) :
  isSynthetic (VString ("SYNTHETIC:" ++ rest)) = true.
Proof.
  unfold isSynthetic, indexOf. cbn [append].
  rewrite index_cons, !prefix_cons, prefix_empty. reflexivity.
Qed.

Lemma sign_plus (d : string) :
  without ":" d = true -> indexOf ("SYNTHETIC:+" ++ d) ":-" = (-1)%Z.
Proof.
  intros H. unfold indexOf. scan.
  now rewrite (index_without ":" "-" d H).
Qed.

Lemma sign_minus (d : string) :
  indexOf ("SYNTHETIC:-" ++ d) ":-" = 9%Z.
Proof.
  unfold indexOf. scan. reflexivity.
Qed.

Lemma split_prefixed (rest : string) :
  without ":" rest = true ->
  nth_error (split ":" ("SYNTHETIC:" ++ rest)) 1 = Some rest.
Proof.
  intros H. cbn [append split Ascii.eqb Bool.eqb].
  rewrite (split_without _ _ H). reflexivity.
Qed.

(** What [parseLeverage] makes of a preset value whose digits [d] hold
    none of the three characters it looks for. *)
Lemma parseLeverage_plus toNumber (d : string) :
  without ":" d = true -> without "+" d = true -> without "-" d = true ->
  parseLeverage toNumber (VString ("SYNTHETIC:+" ++ d))
  = if isFinite (toNumber d) then Some (#1 * toNumber d)%num else None.
Proof.
  intros Hc Hp Hm. unfold parseLeverage.
  change ("SYNTHETIC:+" ++ d) with ("SYNTHETIC:" ++ String "+" d).
  rewrite isSynthetic_prefixed. cbn [negb].
  rewrite split_prefixed
    by (cbn [without Ascii.eqb Bool.eqb negb andb]; exact Hc).
  change ("SYNTHETIC:" ++ String "+" d) with ("SYNTHETIC:+" ++ d).
  rewrite (sign_plus d Hc). cbn [Z.eqb negb removeFirst Ascii.eqb Bool.eqb].
  rewrite (removeFirst_without _ _ Hm).
  now destruct (isFinite (toNumber d)).
Qed.

Lemma parseLeverage_minus toNumber (d : string) :
  without ":" d = true -> without "+" d = true -> without "-" d = true ->
  parseLeverage toNumber (VString ("SYNTHETIC:-" ++ d))
  = if isFinite (toNumber d) then Some (#(-1) * toNumber d)%num else None.
Proof.
  intros Hc Hp Hm. unfold parseLeverage.
  change ("SYNTHETIC:-" ++ d) with ("SYNTHETIC:" ++ String "-" d).
  rewrite isSynthetic_prefixed. cbn [negb].
  rewrite split_prefixed
    by (cbn [without Ascii.eqb Bool.eqb negb andb]; exact Hc).
  change ("SYNTHETIC:" ++ String "-" d) with ("SYNTHETIC:-" ++ d).
  rewrite (sign_minus d). cbn [Z.eqb negb removeFirst Ascii.eqb Bool.eqb].
  rewrite (removeFirst_without _ _ Hp). cbn [removeFirst Ascii.eqb Bool.eqb].
  now destruct (isFinite (toNumber d)).
Qed.

Lemma decimalToNumber_decimal (k : nat) :
  decimalToNumber (decimal k) = #(INR k).
Proof.
  unfold decimalToNumber, decimal.
  now rewrite NilEmpty.usu, Unsigned.of_to.
Qed.

(** X14.  Every preset parses to its own leverage.  With a [Number] that
    reads the decimal digits of an integer as that integer,
    [parseLeverage] maps [SYNTHETIC:+k] to [k] and [SYNTHETIC:-k] to
    [-k] for every non-negative integer [k]; so the twenty values built by
    [buildSyntheticOptions] parse to 1, ..., 10, -1, ..., -10 in this
    order. *)
Theorem presets_parse_to_their_leverage :
  forall (toNumber : string -> number),
    (forall k, toNumber (decimal k) = #(INR k)) ->
    (forall k,
       parseLeverage toNumber (VString ("SYNTHETIC:+" ++ decimal k))
       = Some #(INR k)
       /\ parseLeverage toNumber (VString ("SYNTHETIC:-" ++ decimal k))
          = Some #(- INR k))
    /\ map (fun o => parseLeverage toNumber (VString (opt_value o)))
           buildSyntheticOptions
       = (map (fun k => Some #(INR k)) (seq 1 10)
          ++ map (fun k => Some #(- INR k)) (seq 1 10))%list.
Proof.
  intros toNumber Hnum.
  assert (Hk : forall k,
            parseLeverage toNumber (VString ("SYNTHETIC:+" ++ decimal k))
            = Some #(INR k)
            /\ parseLeverage toNumber (VString ("SYNTHETIC:-" ++ decimal k))
               = Some #(- INR k)).
  { intros k.
    pose proof (decimal_without ":" k (or_introl eq_refl)) as Hc.
    pose proof (decimal_without "+" k (or_intror (or_introl eq_refl))) as Hp.
    pose proof (decimal_without "-" k (or_intror (or_intror eq_refl))) as Hm.
    rewrite (parseLeverage_plus _ _ Hc Hp Hm),
            (parseLeverage_minus _ _ Hc Hp Hm), Hnum.
    cbn [isFinite JS.mul]. split; do 2 f_equal; ring. }
  split; [exact Hk |].
  unfold buildSyntheticOptions. rewrite map_app, !map_map. cbn [opt_value].
  f_equal; apply map_ext; intros k; apply Hk.
Qed.

Lemma leverage_is_finite toNumber preset :
  exists r, leverage toNumber preset = #r /\ r <> 0%R.
Proof.
  unfold leverage.
  destruct (parseLeverage toNumber preset) as [n |] eqn:E.
  - unfold parseLeverage in E.
    destruct (isSynthetic preset); [| discriminate]. cbn [negb] in E.
    destruct preset as [| | b | m | s]; try discriminate.
    destruct (toNumber _) as [| sg | x]; try discriminate.
    cbn [isFinite negb] in E.
    destruct (negb (indexOf s ":-" =? -1)%Z); injection E as <-;
      cbn [JS.mul truthy]; unfold Rzero;
      match goal with
      | |- context [Req_dec_T ?y 0] => destruct (Req_dec_T y 0) as [Z | Z]
      end; cbn [negb];
      first [ exists 1%R; split; [reflexivity | lra]
            | eexists; split; [reflexivity | exact Z] ].
  - exists 1%R. split; [reflexivity | lra].
Qed.

(** X15.  The leverage handed to the simulator is a finite number other
    than 0, whatever the preset holds and whatever [Number] makes of it;
    it is 1 for every value that is not a string starting with
    [SYNTHETIC:]. *)
Theorem leverage_finite_nonzero :
  forall (toNumber : string -> number) (preset : jsval),
    (exists r, leverage toNumber preset = #r /\ r <> 0%R)
    /\ (isSynthetic preset = false ->
        parseLeverage toNumber preset = None
        /\ leverage toNumber preset = #1).
Proof.
  intros toNumber preset. split; [apply leverage_is_finite |].
  intros H. unfold leverage, parseLeverage. rewrite H. now split.
Qed.

End PresetFacts.

Lemma presets_parse_to_their_leverage_witness :
  Presets.parseLeverage Presets.decimalToNumber (VString "SYNTHETIC:-7")
  = Some #(- INR 7).
Proof.
  apply (proj1 (presets_parse_to_their_leverage
                  Presets.decimalToNumber decimalToNumber_decimal) 7%nat).
Defined.

(** ** The demo series *)

Section DemoFacts.

Import Demo.
Local Open Scope R_scope.

Lemma demoLoop_length start random count : forall i price,
  length (demoLoop start random i count price) = count.
Proof.
  induction count as [| count IH]; intros i price; [reflexivity |].
  cbn [demoLoop length]. now rewrite IH.
Qed.

Lemma demoLoop_nth (s : R) random count : forall i (price : R) j p,
  nth_error (demoLoop #s random i count #price) j = Some p ->
  time p = #(s + INR (i + j) * 60 * 60 * 1000)
  /\ exists v, value p = #v /\ 1 <= v.
Proof.
  induction count as [| count IH]; intros i price j p H.
  - destruct j; discriminate.
  - cbn [demoLoop] in H.
    assert (H12 : 12 <> 0) by lra.
    rewrite (div_Fin _ _ H12) in H.
    cbn [Math_sin JS.add JS.sub JS.neg JS.mul] in H.
    rewrite Math_max_Fin in H.
    destruct j as [| j].
    + cbn [nth_error] in H. injection H as <-. cbn [time value].
      rewrite Nat.add_0_r. split; [reflexivity |].
      eexists. split; [reflexivity | apply Rmax_l].
    + cbn [nth_error] in H. apply IH in H.
      replace (i + S j)%nat with (S i + j)%nat by lia. exact H.
Qed.

(** X16.  The demo series.  Whatever the random draws, [buildDemoSPX]
    returns as many points as asked for (240 without an argument, or for
    0), one per hour, the last one an hour before now, and every value is
    a finite number not below 1. *)
Theorem buildDemoSPX_hourly_and_positive :
  forall (now : R) (random : nat -> R) (n : option nat),
    let count := match n with Some (S m) => S m | _ => 240%nat end in
    let out := buildDemoSPX #now random n in
    length out = count
    /\ forall i p,
         nth_error out i = Some p ->
         time p = #(now - INR (count - i) * 60 * 60 * 1000)
         /\ exists v, value p = #v /\ 1 <= v.
Proof.
  intros now random n count out. subst out. unfold buildDemoSPX.
  fold count. split; [apply demoLoop_length |].
  intros i p H.
  assert (Hi : (i < count)%nat).
  { rewrite <- (demoLoop_length (#now - #(INR count) * #60 * #60 * #1000)%num
                               random count 0 #4500).
    apply nth_error_Some. now rewrite H. }
  cbn [JS.sub JS.neg JS.add JS.mul] in H.
  apply demoLoop_nth in H as [Ht Hv]. split; [| exact Hv].
  rewrite Ht. f_equal. cbn [Nat.add]. rewrite minus_INR by lia. ring.
Qed.

End DemoFacts.

(** ** Scales, transforms and the value axis *)

Section ScaleFacts.

Import Chart.
Local Open Scope string_scope.
Local Open Scope R_scope.

Variable rt : Runtime.

Lemma Rmax_pos (c x : R) : 0 < c -> Rmax c x <> 0.
Proof. intros Hc. pose proof (Rmax_l c x). lra. Qed.

Lemma Math_log_Fin (v : R) : 0 < v -> Math_log #v = #(ln v).
Proof.
  intros Hv. cbn [Math_log]. rewrite Rzero_false by lra.
  now rewrite Rneg_false by lra.
Qed.





(** [xScale] on finite numbers. *)
Lemma xScaleOf_Fin (pad w rm xMin xMax t : R) :
  xScaleOf #pad #w #rm #xMin #xMax #t
  = #(pad + (t - xMin) / Rmax 1 (xMax - xMin) * (w - pad - rm)).
Proof.
  unfold xScaleOf. cbn [JS.sub JS.neg JS.add]. rewrite Math_max_Fin.
  rewrite div_Fin by (apply Rmax_pos; lra). reflexivity.
Qed.

(** X18.  The horizontal scale maps the left end of the window to the
    left padding and, when the window is at least one millisecond wide,
    its right end to the right margin; it preserves the order of
    timestamps when the padding and the margin fit into the width. *)
Theorem xScale_ends_and_order :
  forall (pad w rm xMin xMax : R),
    let xScale := xScaleOf #pad #w #rm #xMin #xMax in
    xScale #xMin = #pad
    /\ (1 <= xMax - xMin -> xScale #xMax = #(w - rm))
    /\ (pad + rm <= w ->
        forall t t' : R, t <= t' ->
          exists x x', xScale #t = #x /\ xScale #t' = #x' /\ x <= x').
Proof.
  intros pad w rm xMin xMax xScale. subst xScale.
  split; [| split].
  - rewrite xScaleOf_Fin. f_equal. unfold Rdiv. ring.
  - intros Hspan. rewrite xScaleOf_Fin, Rmax_right by exact Hspan.
    f_equal. field. lra.
  - intros Hw t t' Ht. rewrite !xScaleOf_Fin.
    eexists; eexists. split; [reflexivity |]. split; [reflexivity |].
    assert (Hm : 0 < / Rmax 1 (xMax - xMin)).
    { apply Rinv_0_lt_compat. pose proof (Rmax_l 1 (xMax - xMin)). lra. }
    unfold Rdiv.
    assert (H1 : (t - xMin) * / Rmax 1 (xMax - xMin)
                 <= (t' - xMin) * / Rmax 1 (xMax - xMin)).
    { apply Rmult_le_compat_r; lra. }
    assert (H2 : 0 <= w - pad - rm) by lra.
    nra.
Qed.


(** X20.  [clamp] brings every number that is not NaN into the finite
    range it is given, leaves a number inside the range as it is, and
    keeps NaN. *)
Theorem clamp_within :
  forall (n : number) (lo hi : R),
    lo <= hi ->
    (n <> NaN ->
     exists r, clamp n #lo #hi = #r /\ lo <= r <= hi
               /\ (forall x, n = #x -> lo <= x <= hi -> r = x))
    /\ clamp NaN #lo #hi = NaN.
Proof.
  intros n lo hi Hle. split; [| reflexivity].
  intros Hn. unfold clamp. destruct n as [| s | x]; [contradiction | |].
  - destruct s; cbn [Math_min Math_max JS.lt negb andb].
    + exists lo. split; [reflexivity |]. split; [lra | discriminate].
    + exists hi. split; [| split; [lra | discriminate]].
      destruct (Rlt_dec lo hi); [reflexivity | f_equal; lra].
  - rewrite Math_min_Fin, Math_max_Fin. eexists. split; [reflexivity |].
    split.
    + split; [apply Rmax_l |]. apply Rmax_lub; [lra | apply Rmin_l].
    + intros y Hy Hr. injection Hy as <-.
      rewrite Rmin_right by lra. apply Rmax_right. lra.
Qed.

End ScaleFacts.

(** ** Labels on the time axis *)

Section LabelFacts.

Import Chart.
Local Open Scope R_scope.

Variable rt : Runtime.

Lemma labelStep_fold interval (xs : list R) :
  forall (ticks : list Tick) acc last,
  map tick_x ticks = map Fin xs ->
  map label_x
    (fst (fold_left (labelStep rt interval) ticks (acc, lastNumber last)))
  = (map label_x acc ++ map Fin (keptPositions last xs))%list.
Proof.
  induction xs as [| x xs IH]; intros ticks acc last Hx.
  - destruct ticks; [| discriminate]. cbn. now rewrite app_nil_r.
  - destruct ticks as [| k ticks]; [discriminate |].
    cbn [map] in Hx. injection Hx as Hk Hx.
    cbn [fold_left labelStep]. rewrite Hk. unfold MIN_GAP, ge.
    destruct last as [l |]; cbn [lastNumber keptPositions].
    + cbn [JS.sub JS.neg JS.add]. fold (x - l).
      destruct (Rle_dec 80 (x - l)) as [H | H].
      * apply le_Fin in H. rewrite H.
        change (#x) with (lastNumber (Some x)).
        rewrite (IH ticks _ (Some x) Hx), map_app. cbn [map label_x].
        now rewrite <- app_assoc.
      * destruct (#80 <=? #(x - l))%num eqn:E.
        -- apply le_Fin in E. contradiction.
        -- now apply (IH ticks acc (Some l)).
    + cbn [JS.sub JS.neg JS.add NegInf negb JS.le JS.lt JS.strictEq orb eqb].
      change (#x) with (lastNumber (Some x)).
      rewrite (IH ticks _ (Some x) Hx), map_app. cbn [map label_x].
      now rewrite <- app_assoc.
Qed.

Lemma keptPositions_head (l : R) xs y ys :
  keptPositions (Some l) xs = y :: ys -> 80 <= y - l.
Proof.
  induction xs as [| a xs IH]; [discriminate |].
  cbn [keptPositions]. destruct (Rle_dec 80 (a - l)) as [H | H].
  - intros E. injection E as <- _. exact H.
  - exact IH.
Qed.

Lemma spaced_cons gap (x y : R) ys :
  gap <= y - x -> spaced gap (y :: ys) -> spaced gap (x :: y :: ys).
Proof.
  intros H Hs i a b Ha Hb. destruct i as [| i].
  - cbn in Ha, Hb. injection Ha as <-. injection Hb as <-. exact H.
  - exact (Hs i a b Ha Hb).
Qed.

Lemma keptPositions_spaced xs : forall last, spaced 80 (keptPositions last xs).
Proof.
  induction xs as [| x xs IH]; intros last.
  - intros i a b Ha. destruct i; discriminate.
  - assert (Hkeep : spaced 80 (x :: keptPositions (Some x) xs)).
    { destruct (keptPositions (Some x) xs) as [| y ys] eqn:E.
      - intros i a b Ha Hb.
        destruct i; [discriminate | destruct i; discriminate].
      - apply spaced_cons; [| rewrite <- E; apply IH].
        now apply (keptPositions_head x xs y ys). }
    cbn [keptPositions]. destruct last as [l |]; [| exact Hkeep].
    destruct (Rle_dec 80 (x - l)); [exact Hkeep | apply IH].
Qed.

Lemma nth_error_last {A : Type} (l : list A) (d : A) :
  l <> [] -> nth_error l (length l - 1) = Some (List.last l d).
Proof.
  induction l as [| a l IH]; [contradiction |]. intros _.
  destruct l as [| b l]; [reflexivity |].
  change (List.last (a :: b :: l) d) with (List.last (b :: l) d).
  rewrite <- IH by discriminate. cbn [length].
  replace (S (S (length l)) - 1)%nat with (S (S (length l) - 1)) by lia.
  reflexivity.
Qed.

Lemma map_nth_error_eq {A B C : Type} (f : A -> C) (g : B -> C)
    (l : list A) (l' : list B) (i : nat) (a : A) :
  map f l = map g l' -> nth_error l i = Some a ->
  exists b, nth_error l' i = Some b /\ f a = g b.
Proof.
  intros E Ha.
  assert (H : nth_error (map g l') i = Some (f a)).
  { rewrite <- E, nth_error_map, Ha. reflexivity. }
  rewrite nth_error_map in H.
  destruct (nth_error l' i) as [b |]; [| discriminate].
  exists b. split; [reflexivity |]. cbn in H. now injection H.
Qed.

(** X21.  Labels on the time axis.  With ticks at finite positions, the
    labelling loop keeps the first tick and then every tick at least 80
    pixels to the right of the last kept one; the branch that would put a
    label before the first one never fires, and the last tick gets a label
    of its own exactly when it is more than 40 pixels away from the last
    kept one.  So two consecutive labels are at least 80 pixels apart,
    except for a last one added in this way. *)
Theorem xLabels_spacing :
  forall (interval : string) (ticks : list Tick) (xs : list R),
    ticks <> [] ->
    map tick_x ticks = map Fin xs ->
    let kept := keptPositions None xs in
    hd_error kept = hd_error xs
    /\ spaced 80 kept
    /\ exists labels,
         xLabelsOf rt interval ticks = Normal labels
         /\ ((Rabs (List.last kept 0 - List.last xs 0) <= 40
              /\ map label_x labels = map Fin kept)
             \/ (40 < Rabs (List.last kept 0 - List.last xs 0)
                 /\ map label_x labels
                    = map Fin (kept ++ [List.last xs 0])%list)).
Proof.
  intros interval ticks xs Hne Hx kept.
  split; [| split].
  - subst kept. destruct xs; reflexivity.
  - apply keptPositions_spaced.
  - pose proof (labelStep_fold interval xs ticks [] None Hx) as Hg.
    cbn [map app lastNumber] in Hg. fold kept in Hg.
    unfold xLabelsOf.
    set (greedy := fst (fold_left (labelStep rt interval) ticks ([], NegInf)))
      in *.
    destruct ticks as [| k0 ticks']; [contradiction |].
    destruct xs as [| x0 xs']; [discriminate |].
    set (tks := k0 :: ticks') in *. set (xs := x0 :: xs') in *.
    assert (Hk : kept = x0 :: keptPositions (Some x0) xs') by reflexivity.
    assert (Hgne : greedy <> []).
    { intros E. rewrite E, Hk in Hg. discriminate. }
    assert (Hpos : (0 <? length greedy)%nat = true).
    { apply Nat.ltb_lt. destruct greedy; [contradiction | cbn; lia]. }
    rewrite Hpos.
    destruct greedy as [| g0 greedy'] eqn:Eg; [contradiction |].
    rewrite <- Eg in *.
    assert (E0 : nth_error greedy 0 = Some g0) by now rewrite Eg.
    assert (Hg0 : label_x g0 = #x0).
    { rewrite Eg, Hk in Hg. cbn [map] in Hg. now injection Hg. }
    pose proof (nth_error_last greedy g0 Hgne) as En.
    assert (Hgl : label_x (List.last greedy g0) = #(List.last kept 0)).
    { destruct (map_nth_error_eq _ _ _ _ _ _ Hg En) as (b & Hb & Eb).
      rewrite Eb. f_equal.
      assert (Hl : length greedy = length kept).
      { rewrite <- (length_map label_x greedy), Hg. apply length_map. }
      rewrite Hl, (nth_error_last kept 0) in Hb
        by (rewrite Hk; discriminate).
      now injection Hb. }
    assert (T0 : nth_error tks 0 = Some k0) by reflexivity.
    pose proof (nth_error_last tks k0 Hne) as Tn.
    assert (Htn : tick_x (List.last tks k0) = #(List.last xs 0)).
    { destruct (map_nth_error_eq _ _ _ _ _ _ Hx Tn) as (b & Hb & Eb).
      rewrite Eb. f_equal.
      assert (Hl : length tks = length xs).
      { rewrite <- (length_map tick_x tks), Hx. apply length_map. }
      rewrite Hl, (nth_error_last xs 0) in Hb by discriminate.
      now injection Hb. }
    assert (Hk0 : tick_x k0 = #x0).
    { unfold tks, xs in Hx. cbn [map] in Hx. now injection Hx. }
    rewrite (at_index_Some _ _ _ E0), (at_index_Some _ _ _ En),
            (at_index_Some _ _ _ T0), (at_index_Some _ _ _ Tn).
    cbn [bind]. rewrite Hg0, Hk0, Hgl, Htn.
    unfold MIN_GAP. assert (H2 : (2 : R) <> 0) by lra.
    rewrite (div_Fin _ _ H2). cbn [JS.sub JS.neg JS.add Math_abs]. unfold gt.
    assert (Hfirst : (#(80 / 2) <? #(Rabs (x0 + - x0)))%num = false).
    { apply lt_Fin_false. replace (x0 + - x0) with 0 by ring.
      rewrite Rabs_R0. lra. }
    rewrite Hfirst.
    fold (List.last kept 0 - List.last xs 0).
    destruct (#(80 / 2) <? #(Rabs (List.last kept 0 - List.last xs 0)))%num
      eqn:El.
    + apply lt_Fin in El. eexists. split; [reflexivity |]. right.
      split; [lra |]. rewrite !map_app, Hg. reflexivity.
    + apply lt_Fin_false in El. eexists. split; [reflexivity |]. left.
      split; [lra | exact Hg].
Qed.

End LabelFacts.

(** ** The curve and the plot area *)

Section PlotFacts.

Import Chart.
Local Open Scope string_scope.
Local Open Scope R_scope.

Variable rt : Runtime.

Lemma fold_min_Fin rs : forall m,
  fold_left Math_min (map Fin rs) #m = #(fold_left Rmin rs m).
Proof.
  induction rs as [| r rs IH]; intros m; [reflexivity |].
  cbn [map fold_left]. now rewrite Math_min_Fin, IH.
Qed.

Lemma fold_max_Fin rs : forall m,
  fold_left Math_max (map Fin rs) #m = #(fold_left Rmax rs m).
Proof.
  induction rs as [| r rs IH]; intros m; [reflexivity |].
  cbn [map fold_left]. now rewrite Math_max_Fin, IH.
Qed.

Lemma fold_Rmin_le rs : forall m,
  fold_left Rmin rs m <= m /\ forall x, In x rs -> fold_left Rmin rs m <= x.
Proof.
  induction rs as [| r rs IH]; intros m; cbn [fold_left].
  - split; [lra | intros x []].
  - destruct (IH (Rmin m r)) as [H1 H2].
    pose proof (Rmin_l m r). pose proof (Rmin_r m r).
    split; [lra |]. intros x [<- | Hx]; [lra | now apply H2].
Qed.

Lemma fold_Rmax_ge rs : forall m,
  m <= fold_left Rmax rs m /\ forall x, In x rs -> x <= fold_left Rmax rs m.
Proof.
  induction rs as [| r rs IH]; intros m; cbn [fold_left].
  - split; [lra | intros x []].
  - destruct (IH (Rmax m r)) as [H1 H2].
    pose proof (Rmax_l m r). pose proof (Rmax_r m r).
    split; [lra |]. intros x [<- | Hx]; [lra | now apply H2].
Qed.

(** The range of finitely many finite transformed values: finite, of
    positive width, and around all of them. *)
Lemma transformedRange_around (r : R) (rs : list R) :
  exists tMin tMax,
    transformedRange (map Fin (r :: rs)) = (#tMin, #tMax)
    /\ tMin < tMax
    /\ forall x, In x (r :: rs) -> tMin <= x <= tMax.
Proof.
  set (lo := fold_left Rmin rs r). set (hi := fold_left Rmax rs r).
  assert (Hmin : Math_min_apply (map Fin (r :: rs)) = #lo).
  { unfold Math_min_apply. cbn [map fold_left].
    change (Math_min PosInf #r) with #r. apply fold_min_Fin. }
  assert (Hmax : Math_max_apply (map Fin (r :: rs)) = #hi).
  { unfold Math_max_apply. cbn [map fold_left].
    change (Math_max NegInf #r) with #r. apply fold_max_Fin. }
  destruct (fold_Rmin_le rs r) as [L1 L2]. fold lo in L1, L2.
  destruct (fold_Rmax_ge rs r) as [U1 U2]. fold hi in U1, U2.
  assert (Hin : forall x, In x (r :: rs) -> lo <= x <= hi).
  { intros x [<- | Hx]; [lra |]. split; [now apply L2 | now apply U2]. }
  unfold transformedRange. rewrite Hmin, Hmax.
  cbn [defaultIfNotFinite isFinite andb negb widenIfFlat strictEq].
  destruct (Req_dec_T lo hi) as [E | N].
  - cbn [padRange JS.sub JS.neg JS.add JS.mul].
    eexists; eexists. split; [reflexivity |].
    split; [lra |]. intros x Hx. specialize (Hin x Hx). lra.
  - cbn [padRange JS.sub JS.neg JS.add JS.mul].
    eexists; eexists. split; [reflexivity |].
    assert (lo < hi) by (specialize (Hin r (or_introl eq_refl)); lra).
    split; [lra |]. intros x Hx. specialize (Hin x Hx). lra.
Qed.

Lemma tf_finite (yMode : string) (a : R) (rs : list R) :
  exists g : R -> R,
    forall v, In v rs ->
      tf (useLog yMode (map Fin rs)) yMode #a #v = #(g v).
Proof.
  unfold useLog.
  destruct (yMode =? "log") eqn:El;
    [destruct (forallb (fun v => v >? #0)%num (map Fin rs)) eqn:Ea |];
    cbn [andb].
  - exists ln. intros v Hv. unfold tf.
    rewrite forallb_forall in Ea.
    specialize (Ea #v (in_map Fin rs v Hv)). apply lt_Fin in Ea.
    now apply Math_log_Fin.
  - unfold tf. destruct (yMode =? "percent").
    + exists (fun v => (v / Rmax 1e-9 a - 1) * 100). intros v _.
      rewrite Math_max_Fin, div_Fin by (apply Rmax_pos; lra). reflexivity.
    + exists (fun v => v). reflexivity.
  - unfold tf. destruct (yMode =? "percent").
    + exists (fun v => (v / Rmax 1e-9 a - 1) * 100). intros v _.
      rewrite Math_max_Fin, div_Fin by (apply Rmax_pos; lra). reflexivity.
    + exists (fun v => v). reflexivity.
Qed.

Lemma visibleSlice_incl data xMin xMax p :
  In p (visibleSlice data xMin xMax) -> In p data.
Proof.
  unfold visibleSlice.
  destruct (length (filter _ data) =? 0)%nat; [tauto |].
  intros H. now apply filter_In in H.
Qed.

Lemma unit_fraction (n d : R) : 0 <= n <= d -> 0 <= n / Rmax 1e-9 d <= 1.
Proof.
  intros [H0 H1].
  assert (Hm : 0 < Rmax 1e-9 d) by (pose proof (Rmax_l 1e-9 d); lra).
  pose proof (Rmax_r 1e-9 d) as Hr.
  split.
  - apply Rmult_le_pos; [lra |]. apply Rlt_le, Rinv_0_lt_compat, Hm.
  - apply Rmult_le_reg_r with (Rmax 1e-9 d); [exact Hm |].
    unfold Rdiv. rewrite Rmult_assoc, Rinv_l by lra. lra.
Qed.

Lemma unit_fraction_ms (n d : R) : 0 <= n <= d -> 0 <= n / Rmax 1 d <= 1.
Proof.
  intros [H0 H1].
  assert (Hm : 0 < Rmax 1 d) by (pose proof (Rmax_l 1 d); lra).
  pose proof (Rmax_r 1 d) as Hr.
  split.
  - apply Rmult_le_pos; [lra |]. apply Rlt_le, Rinv_0_lt_compat, Hm.
  - apply Rmult_le_reg_r with (Rmax 1 d); [exact Hm |].
    unfold Rdiv. rewrite Rmult_assoc, Rinv_l by lra. lra.
Qed.

(** X22.  The curve stays inside the plot.  For a series whose values
    are finite and of magnitude at most 1e290 (so that no transformed
    value, and no difference of two of them, leaves the range of the
    doubles), and a height of at most 1e9 pixels that holds twice the
    padding, every visible point is drawn at a height between the top
    padding and the bottom of the plot, in each of the three modes; and a
    visible point whose time lies in the window is drawn between the left
    padding and the right margin, for a window within the range of dates
    and a width of at most 1e9 pixels. *)
Theorem visible_points_inside_plot :
  forall (data : list PricePoint) (w h pad rm : R) (interval : string)
         (domain : Domain) (yMode : string) (first final : PricePoint),
    Forall (fun p => exists r, value p = #r /\ Rabs r <= 1e290) data ->
    nth_error data 0 = Some first ->
    nth_error data (length data - 1) = Some final ->
    0 <= pad -> 0 <= h - 2 * pad -> h <= 1e9 ->
    let xMin := Math_max (x0 domain) (time first) in
    let xMax := Math_min (x1 domain) (time final) in
    exists g,
      useChartPath rt data #w #h #pad interval domain yMode #rm = Normal g
      /\ forall p, In p (visibleSlice data xMin xMax) ->
           (exists y, yScale g (value p) = #y /\ pad <= y <= h - pad)
           /\ (0 <= rm -> pad + rm <= w -> w <= 1e9 ->
               forall t a b,
                 time p = #t -> xMin = #a -> xMax = #b -> a <= t <= b ->
                 Rabs a <= 8.64e15 -> Rabs b <= 8.64e15 ->
                 exists x, xScale g (time p) = #x /\ pad <= x <= w - rm).
Proof.
  intros data w h pad rm interval domain yMode first final Hbound E0 En
         _ Hh _ xMin xMax.
  pose proof (proj1 (Forall_finite_forallb _ _ Hbound)) as Hfin.
  assert (Hne : data <> []) by (destruct data; discriminate).
  destruct (useChartPath_nonempty rt data #w #h #pad interval domain yMode #rm
                                  Hne)
    as (f1 & l1 & s0 & labels & E0' & En' & S0 & _ & Eg).
  rewrite E0 in E0'. rewrite En in En'.
  injection E0' as <-. injection En' as <-.
  fold xMin xMax in S0, Eg. cbv zeta in Eg.
  set (slice := visibleSlice data xMin xMax) in *.
  eexists. split; [exact Eg |].
  cbn [yScale xScale].
  assert (Hfs : forall p, In p slice -> value p = #(valueOf p)).
  { intros p Hp. apply finiteValue_Fin.
    rewrite forallb_forall in Hfin. apply Hfin.
    now apply (visibleSlice_incl data xMin xMax). }
  assert (Hvals : map value slice = map Fin (map valueOf slice)).
  { rewrite map_map. apply map_ext_in. exact Hfs. }
  assert (Hs0 : In s0 slice) by (apply nth_error_In with 0%nat; exact S0).
  rewrite Hvals, (Hfs s0 Hs0).
  destruct (tf_finite yMode (valueOf s0) (map valueOf slice)) as [tr Htr].
  set (lg := useLog yMode (map Fin (map valueOf slice))) in *.
  assert (Htv : map (tf lg yMode #(valueOf s0)) (map Fin (map valueOf slice))
                = map Fin (map tr (map valueOf slice))).
  { rewrite !map_map. apply map_ext_in. intros p Hp.
    apply Htr. now apply in_map. }
  rewrite Htv.
  destruct slice as [| q slice'] eqn:Es; [destruct Hs0 |].
  rewrite <- Es in *.
  assert (Hcons : map tr (map valueOf slice)
                  = tr (valueOf q) :: map tr (map valueOf slice'))
    by now rewrite Es.
  rewrite Hcons.
  destruct (transformedRange_around (tr (valueOf q))
                                    (map tr (map valueOf slice')))
    as (tMin & tMax & Er & Hlt & Hin).
  rewrite Er. cbn [fst snd].
  intros p Hp. split.
  - unfold yScaleOf. rewrite (Hfs p Hp).
    rewrite (Htr (valueOf p)) by now apply in_map.
    cbn [JS.sub JS.neg JS.add JS.mul]. rewrite Math_max_Fin.
    rewrite div_Fin by (apply Rmax_pos; lra).
    cbn [JS.sub JS.neg JS.add JS.mul].
    eexists. split; [reflexivity |].
    assert (Hx : tMin <= tr (valueOf p) <= tMax).
    { apply Hin. rewrite <- Hcons. now apply in_map, in_map. }
    pose proof (unit_fraction (tr (valueOf p) + - tMin) (tMax + - tMin)) as Hf.
    assert (Hf' : 0 <= (tr (valueOf p) + - tMin) / Rmax 1e-9 (tMax + - tMin)
                  <= 1)
      by (apply Hf; lra).
    set (fr := (tr (valueOf p) + - tMin) / Rmax 1e-9 (tMax + - tMin)) in *.
    split; nra.
  - intros _ Hw _ t a b Ht Ha Hb Hab _ _. rewrite Ht, Ha, Hb, xScaleOf_Fin.
    eexists. split; [reflexivity |].
    assert (Hf : 0 <= (t - a) / Rmax 1 (b - a) <= 1)
      by (apply unit_fraction_ms; lra).
    set (fr := (t - a) / Rmax 1 (b - a)) in *.
    split; nra.
Qed.

End PlotFacts.

(** ** Ticks and alignment *)

Section TickFacts.

Import DateObj Chart.
Local Open Scope Z_scope.

Lemma addInterval_step (u : Z) (interval : string) :
  (interval =? "M")%string = false ->
  addInterval #(IZR u) interval = #(IZR (u + stepOf interval)).
Proof.
  intros HM. unfold addInterval, intervalToStepMs, stepOf. rewrite HM.
  repeat match goal with
  | |- context [(interval =? ?s)%string] =>
      destruct (interval =? s)%string;
      [cbn [truthy]; rewrite Rzero_false by lra; cbn [negb JS.add];
       rewrite plus_IZR; f_equal; lra |]
  end.
  cbn [truthy]; rewrite Rzero_false by lra; cbn [negb JS.add];
    rewrite plus_IZR; f_equal; lra.
Qed.

Lemma stepOf_pos interval : 0 < stepOf interval.
Proof.
  unfold stepOf. repeat (destruct (_ =? _)%string; [lia |]). lia.
Qed.

(** A clock alignment that leaves [u] in place leaves [u + step] in place:
    arithmetic on the day. *)
Ltac clock_step :=
  intros E Hr; apply TimeClip_Some in E as [E _];
  match goal with
  | |- TimeClip ?x = Some ?v =>
      replace x with v; [now apply TimeClip_in_range |]
  end;
  revert E;
  unfold MakeDate, MakeTime, Day, HourFromTime, MinFromTime,
    msPerDay, msPerHour, msPerMinute, msPerSecond;
  intros E; Z.div_mod_to_equations; lia.

Lemma day_step u :
  setUTCHours (Some u) 0 0 0 0 = Some u ->
  Z.abs (u + 86400000) <= maxTime ->
  setUTCHours (Some (u + 86400000)) 0 0 0 0 = Some (u + 86400000).
Proof. unfold setUTCHours. clock_step. Qed.

Lemma hour_step u :
  setUTCMinutes (Some u) 0 0 0 = Some u ->
  Z.abs (u + 3600000) <= maxTime ->
  setUTCMinutes (Some (u + 3600000)) 0 0 0 = Some (u + 3600000).
Proof. unfold setUTCMinutes. clock_step. Qed.

Lemma quarter_step u :
  setUTCMinutes (Some u) (MinFromTime u / 15 * 15) 0 0 = Some u ->
  Z.abs (u + 900000) <= maxTime ->
  setUTCMinutes (Some (u + 900000)) (MinFromTime (u + 900000) / 15 * 15) 0 0
  = Some (u + 900000).
Proof. unfold setUTCMinutes. clock_step. Qed.

Lemma five_step u :
  setUTCMinutes (Some u) (MinFromTime u / 5 * 5) 0 0 = Some u ->
  Z.abs (u + 300000) <= maxTime ->
  setUTCMinutes (Some (u + 300000)) (MinFromTime (u + 300000) / 5 * 5) 0 0
  = Some (u + 300000).
Proof. unfold setUTCMinutes. clock_step. Qed.

Lemma minute_step u :
  setUTCSeconds (Some u) 0 0 = Some u ->
  Z.abs (u + 60000) <= maxTime ->
  setUTCSeconds (Some (u + 60000)) 0 0 = Some (u + 60000).
Proof. unfold setUTCSeconds. clock_step. Qed.

Lemma week_step u :
  setUTCHours
    (setUTCDate (Some u) (DateFromTime u - (WeekDay u + 6) mod 7)) 0 0 0 0
  = Some u ->
  Z.abs (u + 604800000) <= maxTime ->
  setUTCHours
    (setUTCDate (Some (u + 604800000))
       (DateFromTime (u + 604800000) - (WeekDay (u + 604800000) + 6) mod 7))
    0 0 0 0
  = Some (u + 604800000).
Proof.
  rewrite !setUTCDate_shift.
  set (diff := (WeekDay u + 6) mod 7).
  destruct (TimeClip (MakeDate (Day u - diff) (TimeWithinDay u)))
    as [t1 |] eqn:E1; [| discriminate].
  apply TimeClip_Some in E1 as [-> _].
  unfold setUTCHours at 1.
  rewrite Day_MakeDate by apply TimeWithinDay_range.
  change (MakeTime 0 0 0 0) with 0.
  intros E2 Hr. apply TimeClip_Some in E2 as [E2 _].
  assert (Hd : diff = 0 /\ TimeWithinDay u = 0).
  { revert E2. unfold diff, WeekDay, MakeDate, Day, TimeWithinDay, msPerDay.
    intros E2. Z.div_mod_to_equations. lia. }
  destruct Hd as [Hd Hw].
  assert (Hd' : (WeekDay (u + 604800000) + 6) mod 7 = 0).
  { revert Hd. unfold diff, WeekDay, Day, msPerDay. intros Hd.
    Z.div_mod_to_equations. lia. }
  assert (Hw' : TimeWithinDay (u + 604800000) = 0).
  { revert Hw. unfold TimeWithinDay, msPerDay. intros Hw.
    Z.div_mod_to_equations. lia. }
  rewrite Hd', Hw', Z.sub_0_r.
  assert (Hu : MakeDate (Day (u + 604800000)) 0 = u + 604800000).
  { revert Hw'. unfold TimeWithinDay, MakeDate, Day, msPerDay. intros Hw'.
    Z.div_mod_to_equations. lia. }
  rewrite Hu, (TimeClip_in_range _ Hr).
  unfold setUTCHours. change (MakeTime 0 0 0 0) with 0.
  rewrite Hu. now apply TimeClip_in_range.
Qed.

(** The first day of month [m] of year [y], and what the calendar says of
    it. *)
Lemma first_of_any_month y m :
  0 <= m <= 11 ->
  let leap := if DaysInYear y =? 366 then 1 else 0 in
  let d1 := DayFromYear y + monthStart leap m in
  let t := MakeDate d1 0 in
  YearFromTime t = y /\ MonthFromTime t = m
  /\ Day t = d1 /\ TimeWithinDay t = 0 /\ DateFromTime t = 1.
Proof.
  intros Hm leap d1 t.
  assert (Hl : 0 <= leap <= 1) by (unfold leap; destruct (_ =? _); lia).
  pose proof (monthStart_range leap m Hl) as Hs.
  pose proof (DayFromYear_step y) as Hstep.
  assert (Hday : Day t = d1).
  { unfold t. apply Day_MakeDate. unfold msPerDay. lia. }
  assert (Hy : YearFromTime t = y).
  { unfold YearFromTime. rewrite Hday. apply YearFromDay_unique.
    unfold d1. lia. }
  assert (Hleap : InLeapYear t = leap).
  { unfold InLeapYear. now rewrite Hy. }
  assert (Hdw : DayWithinYear t = monthStart leap m).
  { unfold DayWithinYear. rewrite Hday, Hy. unfold d1. lia. }
  assert (Hmo : MonthFromTime t = m).
  { unfold MonthFromTime. rewrite Hleap, Hdw.
    now apply monthOfDay_monthStart. }
  repeat split; try assumption.
  - unfold t, TimeWithinDay, MakeDate, msPerDay. Z.div_mod_to_equations; lia.
  - unfold DateFromTime. rewrite Hmo, Hleap, Hdw. lia.
Qed.

Lemma MakeDay_first y m :
  MakeDay y m 1
  = DayFromYear (y + m / 12)
    + monthStart (if DaysInYear (y + m / 12) =? 366 then 1 else 0) (m mod 12).
Proof. unfold MakeDay. lia. Qed.

(** A date that the month alignment leaves in place is the first of its
    month, at midnight. *)
Lemma month_aligned u :
  setUTCHours (setUTCDate (Some u) 1) 0 0 0 0 = Some u ->
  TimeWithinDay u = 0 /\ DateFromTime u = 1.
Proof.
  unfold setUTCDate.
  destruct (TimeClip (MakeDate (MakeDay (YearFromTime u) (MonthFromTime u) 1)
                               (TimeWithinDay u))) as [t1 |] eqn:E1;
    [| discriminate].
  apply TimeClip_Some in E1 as [-> _].
  unfold setUTCHours.
  rewrite Day_MakeDate by apply TimeWithinDay_range.
  change (MakeTime 0 0 0 0) with 0.
  intros E2. apply TimeClip_Some in E2 as [E2 _].
  destruct (first_of_month u) as (Hy & Hmo & Hday & Hw). cbv zeta in *.
  rewrite <- E2 in Hy, Hmo, Hday, Hw.
  split; [exact Hw |].
  unfold DateFromTime, DayWithinYear. rewrite Hday, MakeDay_same_month. lia.
Qed.

Lemma first_is_month_aligned y m :
  Z.abs (MakeDate (MakeDay y m 1) 0) <= maxTime ->
  setUTCHours (setUTCDate (Some (MakeDate (MakeDay y m 1) 0)) 1) 0 0 0 0
  = Some (MakeDate (MakeDay y m 1) 0).
Proof.
  set (u := MakeDate (MakeDay y m 1) 0). intros Hr.
  assert (Hm : 0 <= m mod 12 <= 11) by (Z.div_mod_to_equations; lia).
  destruct (first_of_any_month (y + m / 12) (m mod 12) Hm)
    as (Hy & Hmo & Hday & Hw & _). cbv zeta in *.
  rewrite <- MakeDay_first in Hy, Hmo, Hday, Hw. fold u in Hy, Hmo, Hday, Hw.
  unfold setUTCDate. rewrite Hy, Hmo, Hw.
  assert (E : MakeDay (y + m / 12) (m mod 12) 1 = MakeDay y m 1).
  { rewrite !MakeDay_first.
    replace (y + m / 12 + m mod 12 / 12) with (y + m / 12)
      by (Z.div_mod_to_equations; lia).
    now rewrite Z.mod_mod by lia. }
  rewrite E. fold u. rewrite (TimeClip_in_range _ Hr).
  unfold setUTCHours. rewrite Hday. change (MakeTime 0 0 0 0) with 0.
  fold u. now apply TimeClip_in_range.
Qed.

Lemma month_step u :
  setUTCHours (setUTCDate (Some u) 1) 0 0 0 0 = Some u ->
  forall u',
    setUTCMonth (Some u) (MonthFromTime u + 1) = Some u' ->
    setUTCHours (setUTCDate (Some u') 1) 0 0 0 0 = Some u'.
Proof.
  intros Ha u' E. apply month_aligned in Ha as [Hw Hd].
  assert (E' : TimeClip (MakeDate (MakeDay (YearFromTime u)
                                           (MonthFromTime u + 1) 1) 0)
               = Some u').
  { rewrite <- E. unfold setUTCMonth. rewrite Hw, Hd. reflexivity. }
  clear E.
  destruct (TimeClip_Some _ _ E') as [Ex Hr].
  rewrite Ex.
  exact (first_is_month_aligned (YearFromTime u) (MonthFromTime u + 1) Hr).
Qed.

Lemma alignDate_month interval d :
  (interval =? "M")%string = true ->
  alignDate interval d = setUTCHours (setUTCDate d 1) 0 0 0 0.
Proof. intros HM. unfold alignDate. now rewrite HM. Qed.

Lemma addInterval_month interval ts :
  (interval =? "M")%string = true ->
  addInterval ts interval
  = match getUTCMonth (newDate ts) with
    | Some m => getTime (setUTCMonth (newDate ts) (m + 1))
    | None => NaN
    end.
Proof. intros HM. unfold addInterval. now rewrite HM. Qed.

Lemma setUTCMonth_valid d m : valid (setUTCMonth d m).
Proof. destruct d; [apply TimeClip_valid | exact I]. Qed.

(** A step of [addInterval] from a date the alignment leaves in place. *)
Lemma alignDate_step interval u :
  (interval =? "M")%string = false ->
  alignDate interval (Some u) = Some u ->
  Z.abs (u + stepOf interval) <= maxTime ->
  alignDate interval (Some (u + stepOf interval)) = Some (u + stepOf interval).
Proof.
  intros HM. unfold alignDate, stepOf. rewrite HM.
  destruct (interval =? "W")%string eqn:EW.
  { destruct (String.eqb_spec interval "W");
      [subst; cbn [String.eqb Ascii.eqb Bool.eqb] | discriminate].
    apply week_step. }
  destruct (interval =? "D")%string eqn:ED.
  { destruct (String.eqb_spec interval "D");
      [subst; cbn [String.eqb Ascii.eqb Bool.eqb] | discriminate].
    apply day_step. }
  destruct (interval =? "60")%string eqn:E60.
  { destruct (String.eqb_spec interval "60");
      [subst; cbn [String.eqb Ascii.eqb Bool.eqb] | discriminate].
    apply hour_step. }
  destruct (interval =? "15")%string eqn:E15.
  { destruct (String.eqb_spec interval "15");
      [subst; cbn [String.eqb Ascii.eqb Bool.eqb] | discriminate].
    apply quarter_step. }
  destruct (interval =? "5")%string eqn:E5.
  { destruct (String.eqb_spec interval "5");
      [subst; cbn [String.eqb Ascii.eqb Bool.eqb] | discriminate].
    apply five_step. }
  destruct (interval =? "1")%string eqn:E1.
  { destruct (String.eqb_spec interval "1");
      [subst; cbn [String.eqb Ascii.eqb Bool.eqb] | discriminate].
    apply minute_step. }
  reflexivity.
Qed.

Lemma newDate_IZR u : Z.abs u <= maxTime -> newDate #(IZR u) = Some u.
Proof.
  intros H. change #(IZR u) with (getTime (Some u)).
  now apply (newDate_getTime (Some u)).
Qed.

Lemma newDate_IZR_out u : maxTime < Z.abs u -> newDate #(IZR u) = None.
Proof.
  intros H. cbn [newDate].
  destruct (Rle_dec (Rabs (IZR u)) (IZR maxTime)) as [L | _]; [| reflexivity].
  rewrite Rabs_Zabs in L. apply le_IZR in L. lia.
Qed.

Lemma tickInv_start ts interval :
  tickInv interval (alignToInterval ts interval).
Proof.
  rewrite alignToInterval_alignDate.
  pose proof (alignDate_valid interval (newDate ts) (newDate_valid ts)) as Hv.
  pose proof (alignDate_fixed interval (newDate ts)) as Hf.
  destruct (alignDate interval (newDate ts)) as [u |]; [| now left].
  right. exists u. cbn [valid] in Hv. repeat split; [lia | now intros _].
Qed.

Lemma tickInv_step interval t :
  tickInv interval t -> tickInv interval (addInterval t interval).
Proof.
  intros [-> | (u & -> & Hlo & Hal)].
  - left. unfold addInterval. destruct (interval =? "M")%string; reflexivity.
  - destruct (interval =? "M")%string eqn:HM.
    + rewrite (addInterval_month interval _ HM).
      destruct (Z.le_gt_cases u maxTime) as [Hhi | Hhi].
      * rewrite newDate_IZR by lia. cbn [getUTCMonth option_map].
        specialize (Hal Hhi). rewrite (alignDate_month interval _ HM) in Hal.
        pose proof (setUTCMonth_valid (Some u) (MonthFromTime u + 1)) as Hv.
        destruct (setUTCMonth (Some u) (MonthFromTime u + 1)) as [u' |] eqn:E;
          [| now left].
        right. exists u'. split; [reflexivity |].
        cbn [valid] in Hv.
        split; [lia |]. intros _. rewrite (alignDate_month interval _ HM).
        exact (month_step u Hal u' E).
      * left. rewrite newDate_IZR_out by lia. reflexivity.
    + rewrite (addInterval_step u interval HM).
      pose proof (stepOf_pos interval) as Hs.
      right. exists (u + stepOf interval). split; [reflexivity |].
      split; [lia |]. intros Hhi.
      apply alignDate_step; [exact HM | apply Hal; lia | lia].
Qed.

(** X23.  Every tick of the loop is aligned.  Started at the aligned
    [xMin], the loop only yields integral timestamps, and each of them,
    when it lies in the range of dates, is left in place by
    [alignToInterval]: a step of [addInterval] leads from the start of one
    minute, hour, day, week or month to the start of the next. *)
Theorem xTicks_are_aligned :
  forall (xScale : number -> number) (interval : string) (xMin xMax : number)
         (fuel : nat),
    Forall (fun k =>
              exists u, tick_ts k = #(IZR u)
                        /\ (Z.abs u <= maxTime ->
                            alignToInterval (tick_ts k) interval = tick_ts k))
           (tickLoop xScale interval xMax fuel (alignToInterval xMin interval)).
Proof.
  intros xScale interval xMin xMax fuel.
  generalize (tickInv_start xMin interval).
  generalize (alignToInterval xMin interval) as t.
  induction fuel as [| fuel IH]; intros t Ht; [constructor |].
  cbn [tickLoop]. destruct (t <=? xMax)%num eqn:El; [| constructor].
  constructor.
  - cbn [tick_ts]. destruct Ht as [-> | (u & -> & Hlo & Hal)].
    + discriminate.
    + exists u. split; [reflexivity |]. intros Hr.
      rewrite alignToInterval_alignDate, (newDate_IZR u Hr).
      rewrite Hal by lia. reflexivity.
  - apply IH. now apply tickInv_step.
Qed.

End TickFacts.

(* ---- definitions (Part I) ---- *)

(** *** Alignment rounds down *)

Section FloorFacts.

Import DateObj Chart.
Local Open Scope Z_scope.

Lemma monthOfDay_within l d :
  0 <= l <= 1 -> 0 <= d < 365 + l -> d - monthStart l (monthOfDay l d) <= 30.
Proof.
  intros Hl Hd. unfold monthOfDay.
  repeat match goal with
  | |- _ - monthStart _ (if d <? ?x then _ else _) <= _ =>
      destruct (Z.ltb_spec d x);
      [cbv beta iota delta [monthStart Z.eqb Pos.eqb]; lia |]
  end.
  cbv beta iota delta [monthStart Z.eqb Pos.eqb]. lia.
Qed.

Lemma DayWithinYear_range t :
  0 <= DayWithinYear t < 365 + InLeapYear t.
Proof.
  pose proof (YearFromDay_spec (Day t)) as [H1 H2].
  fold (YearFromTime t) in H1, H2.
  pose proof (DayFromYear_DaysInYear (YearFromTime t)) as Hy.
  unfold DayWithinYear, InLeapYear.
  assert (Hd : DaysInYear (YearFromTime t) = 365
               \/ DaysInYear (YearFromTime t) = 366).
  { unfold DaysInYear. repeat (destruct (negb _); [tauto |]). tauto. }
  destruct Hd as [Hd | Hd]; rewrite Hd in *; cbn [Z.eqb Pos.eqb]; lia.
Qed.

Lemma first_of_month_within t :
  t - MakeDate (MakeDay (YearFromTime t) (MonthFromTime t) 1) 0
  < 31 * 86400000.
Proof.
  rewrite MakeDay_same_month.
  pose proof (InLeapYear_range t) as Hl.
  pose proof (DayWithinYear_range t) as Hd.
  pose proof (monthOfDay_within (InLeapYear t) (DayWithinYear t) Hl Hd) as Hm.
  fold (MonthFromTime t) in Hm.
  pose proof (TimeWithinDay_range t) as Hw.
  assert (Ht : t = Day t * msPerDay + TimeWithinDay t).
  { unfold Day, TimeWithinDay, msPerDay. Z.div_mod_to_equations; lia. }
  unfold DayWithinYear in Hm. unfold MakeDate, msPerDay in *. lia.
Qed.

Ltac clock_within :=
  intros E; apply TimeClip_Some in E as [-> _];
  unfold MakeDate, MakeTime, Day, HourFromTime, MinFromTime,
    msPerDay, msPerHour, msPerMinute, msPerSecond;
  Z.div_mod_to_equations; lia.

Lemma alignDate_within interval t u :
  alignDate interval (Some t) = Some u -> t - u < longestStep interval.
Proof.
  unfold alignDate, longestStep, stepOf.
  destruct (interval =? "M")%string eqn:EM.
  { unfold setUTCDate.
    destruct (TimeClip (MakeDate (MakeDay (YearFromTime t) (MonthFromTime t) 1)
                                 (TimeWithinDay t))) as [t1 |] eqn:E1;
      [| discriminate].
    apply TimeClip_Some in E1 as [-> _].
    unfold setUTCHours. rewrite Day_MakeDate by apply TimeWithinDay_range.
    change (MakeTime 0 0 0 0) with 0.
    intros E2. apply TimeClip_Some in E2 as [-> _].
    apply first_of_month_within. }
  destruct (interval =? "W")%string eqn:EW.
  { destruct (String.eqb_spec interval "W"); [subst | discriminate].
    cbn [String.eqb Ascii.eqb Bool.eqb].
    rewrite setUTCDate_shift.
    set (diff := (WeekDay t + 6) mod 7).
    destruct (TimeClip (MakeDate (Day t - diff) (TimeWithinDay t)))
      as [t1 |] eqn:E1; [| discriminate].
    apply TimeClip_Some in E1 as [-> _].
    unfold setUTCHours. rewrite Day_MakeDate by apply TimeWithinDay_range.
    change (MakeTime 0 0 0 0) with 0.
    intros E2. apply TimeClip_Some in E2 as [-> _].
    assert (0 <= diff <= 6) by (unfold diff; Z.div_mod_to_equations; lia).
    pose proof (TimeWithinDay_range t) as Hw.
    assert (Ht : t = Day t * msPerDay + TimeWithinDay t).
    { unfold Day, TimeWithinDay, msPerDay. Z.div_mod_to_equations; lia. }
    unfold MakeDate, msPerDay in *. lia. }
  destruct (interval =? "D")%string eqn:ED.
  { destruct (String.eqb_spec interval "D"); [subst | discriminate].
    cbn [String.eqb Ascii.eqb Bool.eqb]. unfold setUTCHours. clock_within. }
  destruct (interval =? "60")%string eqn:E60.
  { destruct (String.eqb_spec interval "60"); [subst | discriminate].
    cbn [String.eqb Ascii.eqb Bool.eqb]. unfold setUTCMinutes. clock_within. }
  destruct (interval =? "15")%string eqn:E15.
  { destruct (String.eqb_spec interval "15"); [subst | discriminate].
    cbn [String.eqb Ascii.eqb Bool.eqb]. unfold setUTCMinutes. clock_within. }
  destruct (interval =? "5")%string eqn:E5.
  { destruct (String.eqb_spec interval "5"); [subst | discriminate].
    cbn [String.eqb Ascii.eqb Bool.eqb]. unfold setUTCMinutes. clock_within. }
  destruct (interval =? "1")%string eqn:E1.
  { destruct (String.eqb_spec interval "1"); [subst | discriminate].
    cbn [String.eqb Ascii.eqb Bool.eqb]. unfold setUTCSeconds. clock_within. }
  intros E. inversion E. lia.
Qed.

Ltac clock_in_range :=
  intros Hr; eexists; apply TimeClip_in_range;
  revert Hr;
  unfold MakeDate, MakeTime, Day, HourFromTime, MinFromTime,
    msPerDay, msPerHour, msPerMinute, msPerSecond, maxTime;
  intros Hr; Z.div_mod_to_equations; lia.

(** One interval or more above the lower end of the range of dates, the
    alignment yields a date. *)
Lemma alignDate_in_range interval t :
  - maxTime + longestStep interval <= t <= maxTime ->
  exists u, alignDate interval (Some t) = Some u.
Proof.
  unfold alignDate, longestStep, stepOf.
  destruct (interval =? "M")%string eqn:EM.
  { intros Hr. unfold setUTCDate.
    pose proof (first_of_month_le t) as Hle.
    pose proof (first_of_month_within t) as Hwi.
    pose proof (TimeWithinDay_range t) as Hw.
    set (d1 := MakeDay (YearFromTime t) (MonthFromTime t) 1) in *.
    assert (Ht : t = Day t * msPerDay + TimeWithinDay t).
    { unfold Day, TimeWithinDay, msPerDay. Z.div_mod_to_equations; lia. }
    assert (Hd : d1 <= Day t).
    { unfold MakeDate, msPerDay in *. lia. }
    rewrite TimeClip_in_range
      by (unfold MakeDate, msPerDay, maxTime in *; lia).
    unfold setUTCHours. rewrite Day_MakeDate by exact Hw.
    change (MakeTime 0 0 0 0) with 0.
    eexists. apply TimeClip_in_range.
    unfold MakeDate, msPerDay, maxTime in *. lia. }
  destruct (interval =? "W")%string eqn:EW.
  { destruct (String.eqb_spec interval "W"); [subst | discriminate].
    cbn [String.eqb Ascii.eqb Bool.eqb]. intros Hr.
    rewrite setUTCDate_shift.
    set (diff := (WeekDay t + 6) mod 7).
    assert (Hdiff : 0 <= diff <= 6)
      by (unfold diff; Z.div_mod_to_equations; lia).
    pose proof (TimeWithinDay_range t) as Hw.
    assert (Ht : t = Day t * msPerDay + TimeWithinDay t).
    { unfold Day, TimeWithinDay, msPerDay. Z.div_mod_to_equations; lia. }
    rewrite TimeClip_in_range
      by (unfold MakeDate, msPerDay, maxTime in *; lia).
    unfold setUTCHours. rewrite Day_MakeDate by exact Hw.
    change (MakeTime 0 0 0 0) with 0.
    eexists. apply TimeClip_in_range.
    unfold MakeDate, msPerDay, maxTime in *. lia. }
  destruct (interval =? "D")%string eqn:ED.
  { destruct (String.eqb_spec interval "D"); [subst | discriminate].
    cbn [String.eqb Ascii.eqb Bool.eqb]. unfold setUTCHours. clock_in_range. }
  destruct (interval =? "60")%string eqn:E60.
  { destruct (String.eqb_spec interval "60"); [subst | discriminate].
    cbn [String.eqb Ascii.eqb Bool.eqb]. unfold setUTCMinutes.
    clock_in_range. }
  destruct (interval =? "15")%string eqn:E15.
  { destruct (String.eqb_spec interval "15"); [subst | discriminate].
    cbn [String.eqb Ascii.eqb Bool.eqb]. unfold setUTCMinutes.
    clock_in_range. }
  destruct (interval =? "5")%string eqn:E5.
  { destruct (String.eqb_spec interval "5"); [subst | discriminate].
    cbn [String.eqb Ascii.eqb Bool.eqb]. unfold setUTCMinutes.
    clock_in_range. }
  destruct (interval =? "1")%string eqn:E1.
  { destruct (String.eqb_spec interval "1"); [subst | discriminate].
    cbn [String.eqb Ascii.eqb Bool.eqb]. unfold setUTCSeconds.
    clock_in_range. }
  intros _. now eexists.
Qed.

(** The aligned start of an integral timestamp, one interval or more
    above the lower end of the range of dates. *)
Lemma alignToInterval_start (z : Z) (interval : string) :
  - maxTime + longestStep interval <= z <= maxTime ->
  exists a,
    alignToInterval #(IZR z) interval = #(IZR a)
    /\ a <= z < a + longestStep interval.
Proof.
  intros Hz.
  assert (Hpos : 0 < longestStep interval).
  { unfold longestStep. destruct (interval =? "M")%string; [lia |].
    apply stepOf_pos. }
  destruct (alignDate_in_range interval z Hz) as [a Ea].
  exists a. rewrite alignToInterval_alignDate.
  rewrite newDate_IZR by lia. rewrite Ea. split; [reflexivity |].
  pose proof (alignDate_not_after interval z a Ea).
  pose proof (alignDate_within interval z a Ea). lia.
Qed.

(** X24.  [alignToInterval] rounds down by less than one interval.  For
    an integral timestamp [u] in the range of dates, the aligned time, if
    it is in the range too, is an integral timestamp [a] with
    [a <= u < a + step]: [step] is the step of [addInterval], and 31 days
    for a month.  Out of the range below, the result is NaN. *)
Theorem alignToInterval_floors :
  forall (u : Z) (interval : string),
    Z.abs u <= maxTime ->
    alignToInterval #(IZR u) interval = NaN
    \/ exists a,
         alignToInterval #(IZR u) interval = #(IZR a)
         /\ a <= u < a + longestStep interval.
Proof.
  intros u interval Hu.
  rewrite alignToInterval_alignDate.
  change #(IZR u) with (getTime (Some u)).
  rewrite (newDate_getTime (Some u) Hu).
  destruct (alignDate interval (Some u)) as [a |] eqn:E; [| now left].
  right. exists a. split; [reflexivity |].
  pose proof (alignDate_not_after interval u a E).
  pose proof (alignDate_within interval u a E). lia.
Qed.

End FloorFacts.

(** *** The tick loop at a fixed step *)

Section LoopFacts.

Import DateObj Chart.
Local Open Scope R_scope.

Lemma addInterval_real (t : R) (interval : string) :
  (interval =? "M")%string = false ->
  addInterval #t interval = #(t + IZR (stepOf interval)).
Proof.
  intros HM. unfold addInterval, intervalToStepMs, stepOf. rewrite HM.
  repeat match goal with
  | |- context [(interval =? ?s)%string] =>
      destruct (interval =? s)%string;
      [cbn [truthy]; rewrite Rzero_false by lra; cbn [negb JS.add];
       f_equal; lra |]
  end.
  cbn [truthy]; rewrite Rzero_false by lra; cbn [negb JS.add]; f_equal; lra.
Qed.

Lemma tickLoop_fixed_step xScale interval (xMax : R) fuel :
  (interval =? "M")%string = false ->
  forall a : R,
    let ticks := tickLoop xScale interval #xMax fuel #a in
    map tick_ts ticks
    = map (fun i => #(a + INR i * IZR (stepOf interval)))
          (seq 0 (length ticks))
    /\ ((length ticks < fuel)%nat ->
        xMax < a + INR (length ticks) * IZR (stepOf interval)).
Proof.
  intros HM. induction fuel as [| fuel IH]; intros a ticks; subst ticks.
  - split; [reflexivity | cbn; lia].
  - cbn [tickLoop]. destruct (#a <=? #xMax)%num eqn:El.
    + rewrite (addInterval_real a interval HM).
      destruct (IH (a + IZR (stepOf interval))) as [IH1 IH2].
      set (rest := tickLoop xScale interval #xMax fuel
                            #(a + IZR (stepOf interval))) in *.
      cbn [map tick_ts length seq]. split.
      * f_equal; [f_equal; cbn; ring |].
        rewrite IH1, <- seq_shift, map_map. apply map_ext. intros i.
        f_equal. rewrite S_INR. ring.
      * intros Hlt. rewrite S_INR.
        assert (Hr : (length rest < fuel)%nat) by lia.
        specialize (IH2 Hr). lra.
    + cbn [map length seq]. split; [reflexivity |]. intros _.
      assert (Hn : ~ a <= xMax).
      { intros H. apply le_Fin in H. rewrite H in El. discriminate. }
      cbn. lra.
Qed.

(** X25.  Ticks at a fixed step.  For every interval but the month, and
    a finite start [a], the loop yields the timestamps [a], [a + step],
    [a + 2 step], ..., each of them at most [xMax], every tick at the
    abscissa of its own timestamp; and when it stops before the guard is
    used up, the next timestamp would be beyond [xMax]. *)
Theorem tickLoop_evenly_spaced :
  forall (xScale : number -> number) (interval : string) (a xMax : R)
         (fuel : nat),
    (interval =? "M")%string = false ->
    let step := IZR (stepOf interval) in
    let ticks := tickLoop xScale interval #xMax fuel #a in
    map tick_ts ticks
    = map (fun i => #(a + INR i * step)) (seq 0 (length ticks))
    /\ Forall (fun k => tick_x k = xScale (tick_ts k)
                        /\ (tick_ts k <=? #xMax)%num = true) ticks
    /\ ((length ticks < fuel)%nat -> xMax < a + INR (length ticks) * step)
    /\ 0 < step.
Proof.
  intros xScale interval a xMax fuel HM step ticks.
  destruct (tickLoop_fixed_step xScale interval xMax fuel HM a) as [H1 H2].
  split; [exact H1 |]. split; [| split; [exact H2 |]].
  - subst ticks. generalize #a as t. clear H1 H2.
    induction fuel as [| fuel IH]; intros t; [constructor |].
    cbn [tickLoop]. destruct (t <=? #xMax)%num eqn:El; [| constructor].
    constructor; [split; [reflexivity | exact El] | apply IH].
  - apply IZR_lt. apply stepOf_pos.
Qed.

End LoopFacts.

Lemma tickLoop_evenly_spaced_witness :
  map Chart.tick_ts
      (Chart.tickLoop (fun t => t) "60" #7200000 Chart.guard #0)
  = map (fun i => #(0 + INR i * IZR (stepOf "60")))
        (seq 0 (length (Chart.tickLoop (fun t => t) "60" #7200000
                                       Chart.guard #0))).
Proof.
  apply (tickLoop_evenly_spaced (fun t => t) "60" 0 7200000 Chart.guard).
  reflexivity.
Defined.

(** *** Two ticks at least *)

Section TwoTicks.

Import DateObj Chart.
Local Open Scope string_scope.

Variable rt : Runtime.

(** The tick loop, told by its variable: [n] ticks, one at each of the
    first [n] values of [t]; all of these are at most [xMax], and the loop
    ends because the guard is used up or the next value is not. *)
Lemma tickLoop_advance xScale interval xMax fuel : forall t,
  let n := length (tickLoop xScale interval xMax fuel t) in
  tickLoop xScale interval xMax fuel t
  = map (fun i => mkTick (xScale (advance interval i t)) (advance interval i t))
        (seq 0 n)
  /\ (forall i, (i < n)%nat -> (advance interval i t <=? xMax)%num = true)
  /\ (n = fuel \/ (advance interval n t <=? xMax)%num = false).
Proof.
  induction fuel as [| fuel IH]; intros t n; subst n.
  - cbn. repeat split; [intros i Hi; lia | now left].
  - cbn [tickLoop]. destruct (t <=? xMax)%num eqn:El.
    + destruct (IH (addInterval t interval)) as (E & Hin & Hend).
      set (rest := tickLoop xScale interval xMax fuel (addInterval t interval))
        in *.
      cbn [length seq map advance]. split; [| split].
      * f_equal. rewrite <- seq_shift, map_map. exact E.
      * intros [| i] Hi; [exact El |]. cbn [advance]. apply Hin. lia.
      * cbn [advance] in *.
        destruct Hend as [-> | Hend]; [now left | now right].
    + cbn. repeat split; [intros i Hi; lia | now right].
Qed.

(** X31.  Two ticks at least, for a series with at least one point.
    [useChartPath] completes and its geometry has at least two ticks on
    the time axis.  The variable [t] of the loop starts at the aligned
    [xMin] and advances by [addInterval]; the loop yields [n] ticks, at
    most 5000, one at each of the first [n] values of [t], each of them
    at most [xMax], and it ends because the guard is used up or the next
    value is not at most [xMax]; when [n] is less than 2, ticks at [xMin]
    and [xMax] are appended.  For every interval but the month
    [addInterval] adds the step of the interval.  For an integral [xMin],
    one interval or more above the lower end of the range of dates, the
    aligned start is an integral timestamp [a] with
    [a <= xMin < a + step], the step being 31 days for a month. *)
Theorem useChartPath_two_ticks :
  forall (data : list PricePoint) (width height padLeft : number)
         (interval : string) (domain : Domain) (yMode : string)
         (rightMargin : number),
    data <> [] ->
    exists g first final n,
      useChartPath rt data width height padLeft interval domain yMode
                   rightMargin = Normal g
      /\ nth_error data 0 = Some first
      /\ nth_error data (length data - 1) = Some final
      /\ (2 <= length (xTicks g))%nat
      /\ let xMin := Math_max (x0 domain) (time first) in
         let xMax := Math_min (x1 domain) (time final) in
         let t := fun i => advance interval i (alignToInterval xMin interval) in
         let loop := map (fun i => mkTick (xScale g (t i)) (t i)) (seq 0 n) in
         (n <= 5000)%nat
         /\ (forall i, (i < n)%nat -> (t i <=? xMax)%num = true)
         /\ (n = 5000%nat \/ (t n <=? xMax)%num = false)
         /\ xTicks g
            = (if (n <? 2)%nat
               then loop ++ [mkTick (xScale g xMin) xMin;
                             mkTick (xScale g xMax) xMax]
               else loop)%list
         /\ (forall i, t (S i) = addInterval (t i) interval)
         /\ ((interval =? "M") = false ->
             forall r : R,
               addInterval #r interval = #(r + IZR (stepOf interval)))
         /\ (forall z : Z,
               xMin = #(IZR z) ->
               (- maxTime + longestStep interval <= z <= maxTime)%Z ->
               exists a : Z,
                 alignToInterval xMin interval = #(IZR a)
                 /\ (a <= z < a + longestStep interval)%Z).
Proof.
  intros data width height padLeft interval domain yMode rightMargin Hne.
  destruct (useChartPath_nonempty rt data width height padLeft interval domain
                                  yMode rightMargin Hne)
    as (first & final & slice0 & labels & E0 & En & S0 & El & Eg).
  cbv zeta in Eg.
  set (xMin := Math_max (x0 domain) (time first)) in *.
  set (xMax := Math_min (x1 domain) (time final)) in *.
  set (xs := xScaleOf padLeft width rightMargin xMin xMax) in *.
  destruct (tickLoop_advance xs interval xMax guard
                             (alignToInterval xMin interval))
    as (Eloop & Hin & Hend).
  pose proof (tickLoop_length xs interval xMax guard
                              (alignToInterval xMin interval)) as Hlen.
  set (ticks := tickLoop xs interval xMax guard (alignToInterval xMin interval))
    in *.
  eexists; exists first, final, (length ticks).
  split; [exact Eg |]. split; [exact E0 |]. split; [exact En |].
  cbn [xTicks xScale].
  split; [apply xTicksOf_length |].
  cbv beta zeta. fold xMin xMax. change guard with 5000%nat in Hlen, Hend.
  split; [exact Hlen |]. split; [exact Hin |]. split; [exact Hend |].
  split; [| split; [| split]].
  - unfold xTicksOf. fold ticks. rewrite <- Eloop. reflexivity.
  - intros i. generalize (alignToInterval xMin interval) as t0.
    induction i as [| i IH]; intros t0; [reflexivity |].
    cbn [advance] in *. apply IH.
  - intros HM r. now apply addInterval_real.
  - intros z Hz Hr. rewrite Hz. now apply alignToInterval_start.
Qed.

End TwoTicks.

Lemma useChartPath_two_ticks_witness :
  [mkPoint #0 #100; mkPoint #3600000 #101] <> []
  /\ exists g,
       Chart.useChartPath Chart.silentRuntime
         [mkPoint #0 #100; mkPoint #3600000 #101] #1200 #640 #40 "60"
         (mkDomain #0 #3600000) "linear" #90 = Normal g
       /\ (2 <= length (Chart.xTicks g))%nat.
Proof.
  split; [discriminate |].
  destruct (useChartPath_two_ticks Chart.silentRuntime
              [mkPoint #0 #100; mkPoint #3600000 #101]
              #1200 #640 #40 "60" (mkDomain #0 #3600000) "linear" #90)
    as (g & first & final & n & Eg & _ & _ & Hlen & _); [discriminate |].
  exists g. split; assumption.
Defined.

(** ** More of the viewport handlers *)

Section GestureFacts.

Import Chart Viewport.
Local Open Scope R_scope.

Variable synth : list PricePoint.
Variables F0 F1 : R.
Hypothesis synth_nonempty : synth <> [].
Hypothesis synth_extent : fullDomain synth = mkDomain #F0 #F1.

(** X26.  The zoom is centred on the pointer.  A zoom-in with the cursor
    inside the plot area, from a domain within the full extent that stays
    above the minimum span, scales the span by [exp(-0.2)], gives a domain
    inside the old one, and leaves the timestamp under the cursor where
    it was. *)
Theorem zoom_in_keeps_cursor_time :
  forall (st : ViewState) (e : WheelEvent) (a0 a1 px : R),
    activeDomain synth st = mkDomain #a0 #a1 ->
    F0 <= a0 -> a0 <= a1 -> a1 <= F1 ->
    (wheel_clientX e - wheel_rectLeft e)%num = #px ->
    40 <= px <= 1110 ->
    (deltaY e >? #0)%num = false ->
    (F1 - F0) / 500 <= (a1 - a0) * exp (-1 * 0.2) ->
    exists x0' x1',
      domain (onWheel synth st e) = Some (mkDomain #x0' #x1')
      /\ x1' - x0' = (a1 - a0) * exp (-1 * 0.2)
      /\ a0 <= x0' /\ x1' <= a1
      /\ x0' + (px - 40) / 1070 * (x1' - x0')
         = a0 + (px - 40) / 1070 * (a1 - a0).
Proof.
  intros st e a0 a1 px Hact H0 H01 H1 Hpx Hplot Hin Hspan.
  pose proof exp_bounds as ((L1 & L2) & _ & _).
  assert (Hs : wheelScale (deltaY e) = exp (-1 * 0.2))
    by (unfold wheelScale; now rewrite Hin).
  rewrite (onWheel_finite synth F0 F1 synth_nonempty synth_extent
                          st e a0 a1 px Hact Hpx), Hs.
  destruct (plot_area_unclamped F0 F1 a0 a1 px (exp (-1 * 0.2)))
    as [Hn0 Hn1]; try lra.
  rewrite (zoom_unclamped F0 F1 a0 a1 px (exp (-1 * 0.2)));
    try assumption; try lra.
  cbn [fst snd]. rewrite plot_width in *.
  set (s := exp (-1 * 0.2)) in *.
  set (c := (px - 40) / 1070) in *.
  assert (Hc : 0 <= c <= 1).
  { unfold c. split.
    - apply Rmult_le_pos; lra.
    - apply Rmult_le_reg_r with 1070; [lra |]. unfold Rdiv.
      rewrite Rmult_assoc, Rinv_l by lra. lra. }
  assert (HP : 0 <= c * (a1 - a0) * (1 - s)).
  { apply Rmult_le_pos; [apply Rmult_le_pos |]; lra. }
  assert (HQ : 0 <= (1 - c) * (a1 - a0) * (1 - s)).
  { apply Rmult_le_pos; [apply Rmult_le_pos |]; lra. }
  eexists; eexists. split; [reflexivity |].
  split; [ring |]. split; [lra |]. split; [lra | ring].
Qed.

(** X27.  The chart follows the pointer during a drag.  When the domain
    captured at pointer-down is at least the minimum span wide and the
    drag does not reach an end of the full extent, the domain is the
    captured one moved by the dragged distance, so that the timestamp that
    was under the pointer at pointer-down is the one under the pointer
    now, wherever the left edge of the chart is on the page; a pointer
    back at its starting abscissa gives the captured domain back. *)
Theorem pan_follows_pointer :
  forall (chart : ChartGeometry) (st : ViewState) (move : PointerEvent)
         (sx cx a0 a1 : R),
    isPanning st = true ->
    panStart st = Some (mkPanStart #sx #a0 #a1) ->
    clientX move = #cx ->
    (F1 - F0) / 1000 <= a1 - a0 ->
    let dt := - (cx - sx) / 1070 * (a1 - a0) in
    F0 <= a0 + dt -> a1 + dt <= F1 ->
    domain (onPointerMove chart synth st move)
    = Some (mkDomain #(a0 + dt) #(a1 + dt))
    /\ (forall left : R,
          (a0 + dt) + (cx - left - 40) / 1070 * (a1 - a0)
          = a0 + (sx - left - 40) / 1070 * (a1 - a0))
    /\ (cx = sx -> a0 + dt = a0 /\ a1 + dt = a1).
Proof.
  intros chart st move sx cx a0 a1 Hpan Hstart Hcx Hspan dt Hlo Hhi.
  rewrite (onPointerMove_domain synth chart st move _
             (movePan_finite synth F0 F1 synth_extent st move sx a0 a1 cx
                             Hpan Hstart Hcx)).
  split; [| split].
  - unfold panWindow. rewrite plot_width. fold dt.
    destruct (Rlt_dec (a1 + dt - (a0 + dt)) ((F1 - F0) / 1000)); [lra |].
    destruct (Rlt_dec (a0 + dt) F0); [lra |].
    destruct (Rlt_dec F1 (a1 + dt)); [lra |]. reflexivity.
  - intros left. unfold dt. field.
  - intros ->. unfold dt. split; field.
Qed.

End GestureFacts.

Section StateMachine.

Import Chart Viewport.

(** X28.  The gestures as a state machine.  A pointer move changes the
    domain only during a drag; pointer-up ends the drag, so that the moves
    after it leave the domain alone; pointer-down and leaving the chart do
    not touch the domain; Fit gives the full extent back; and the wheel
    does nothing while there is no data. *)
Theorem gestures_change_domain_only_in_drag :
  forall (chart : ChartGeometry) (synth : list PricePoint) (st : ViewState)
         (e : PointerEvent) (w : WheelEvent),
    (isPanning st = false \/ panStart st = None ->
     domain (onPointerMove chart synth st e) = domain st)
    /\ domain (onPointerMove chart synth (onPointerUp st) e) = domain st
    /\ isPanning (onPointerMove chart synth st e) = isPanning st
    /\ domain (onPointerDown synth st e) = domain st
    /\ isPanning (onPointerDown synth st e) = true
    /\ domain (onLeave st) = domain st
    /\ cross (onLeave st) = None
    /\ activeDomain synth (fitToScreen st) = fullDomain synth
    /\ (synth = [] -> onWheel synth st w = st).
Proof.
  intros chart synth st e w.
  assert (Hc : forall s, domain (moveCrosshair chart synth s e) = domain s
                         /\ isPanning (moveCrosshair chart synth s e)
                            = isPanning s).
  { intros s. unfold moveCrosshair. destruct synth as [| p0 rest];
      [now split |].
    destruct (fold_left _ _ _) as [nearest best]. now split. }
  repeat split.
  - intros H. unfold onPointerMove.
    assert (E : movePan synth st e = None).
    { unfold movePan. destruct H as [-> | ->]; [reflexivity |].
      now destruct (isPanning st). }
    rewrite E. apply Hc.
  - unfold onPointerMove.
    change (movePan synth (onPointerUp st) e) with (@None Domain).
    cbv iota. exact (proj1 (Hc (onPointerUp st))).
  - unfold onPointerMove. destruct (movePan synth st e);
      [cbn [setDomain isPanning] |]; apply Hc.
  - now intros ->.
Qed.

End StateMachine.

(** ** The mode mapper *)

Section ModeFacts.

Import Chart Presets.
Local Open Scope string_scope.

Variable rt : Runtime.

Lemma useChartPath_other_mode data width height padLeft interval domain yMode
    rightMargin :
  (yMode =? "log") = false -> (yMode =? "percent") = false ->
  useChartPath rt data width height padLeft interval domain yMode rightMargin
  = useChartPath rt data width height padLeft interval domain "linear"
                 rightMargin.
Proof.
  intros Hl Hp. unfold useChartPath, useLog, tf, invf, yTicksOf.
  rewrite Hl, Hp. reflexivity.
Qed.

(** X29.  The mode mapper.  [toYMode] returns one of the three modes for
    every text and a known mode as it is; and it never changes what is
    drawn, because the geometry treats every mode other than [log] and
    [percent] as [linear]. *)
Theorem toYMode_keeps_geometry :
  forall (v : string),
    In (toYMode v) ["linear"; "log"; "percent"]
    /\ (In v ["linear"; "log"; "percent"] -> toYMode v = v)
    /\ forall (data : list PricePoint) (width height padLeft : number)
              (interval : string) (domain : Domain) (rightMargin : number),
         useChartPath rt data width height padLeft interval domain (toYMode v)
                      rightMargin
         = useChartPath rt data width height padLeft interval domain v
                        rightMargin.
Proof.
  intros v. unfold toYMode.
  destruct (String.eqb_spec v "log") as [-> | Nlog].
  { cbn. repeat split; auto. }
  destruct (String.eqb_spec v "percent") as [-> | Npct].
  { cbn. repeat split; auto. }
  destruct (String.eqb_spec v "linear") as [-> | Nlin].
  { cbn. repeat split; auto. }
  cbn [orb]. split; [cbn; auto |]. split.
  - intros [<- | [<- | [<- | []]]]; congruence.
  - intros. symmetry. apply useChartPath_other_mode; now apply String.eqb_neq.
Qed.

End ModeFacts.

(** ** Closed instances of the properties above *)

Section MoreInstances.

Import Chart Viewport.
Local Open Scope R_scope.




Lemma clamp_within_witness :
  exists r, clamp #1500 #0 #1200 = #r /\ 0 <= r <= 1200.
Proof.
  destruct (proj1 (clamp_within #1500 0 1200 ltac:(lra)))
    as (r & E & Hr & _); [discriminate |].
  exists r. split; assumption.
Defined.

Lemma xLabels_spacing_witness :
  spaced 80 (keptPositions None [40; 100; 130]).
Proof.
  apply (xLabels_spacing silentRuntime "60"
           [mkTick #40 #0; mkTick #100 #1; mkTick #130 #2] [40; 100; 130]).
  - discriminate.
  - reflexivity.
Defined.

Lemma exampleSeries_moderate :
  Forall (fun p => exists r, value p = #r /\ Rabs r <= 1e290) exampleSeries.
Proof.
  repeat constructor;
    eexists; (split; [reflexivity |]); rewrite Rabs_right; lra.
Qed.

Lemma visible_points_inside_plot_witness :
  exists g,
    useChartPath silentRuntime exampleSeries #1200 #640 #40 "60"
                 (mkDomain #0 #1070) "percent" #90 = Normal g
    /\ forall p,
         In p (visibleSlice exampleSeries (Math_max #0 #0)
                            (Math_min #1070 #1070)) ->
         exists y, yScale g (value p) = #y /\ 40 <= y <= 640 - 40.
Proof.
  destruct (visible_points_inside_plot silentRuntime exampleSeries
              1200 640 40 90 "60" (mkDomain #0 #1070) "percent"
              (mkPoint #0 #100) (mkPoint #1070 #120)
              exampleSeries_moderate eq_refl eq_refl
              ltac:(lra) ltac:(lra) ltac:(lra))
    as (g & Eg & Hg).
  exists g. split; [exact Eg |].
  intros p Hp. exact (proj1 (Hg p Hp)).
Defined.

Lemma alignToInterval_floors_witness :
  alignToInterval #(IZR 1700000000123) "W" = NaN
  \/ exists a,
       alignToInterval #(IZR 1700000000123) "W" = #(IZR a)
       /\ (a <= 1700000000123 < a + longestStep "W")%Z.
Proof.
  apply (alignToInterval_floors 1700000000123 "W").
  unfold DateObj.maxTime. lia.
Defined.

Lemma zoom_in_keeps_cursor_time_witness :
  exists x0' x1',
    domain (onWheel exampleSeries idleView (mkWheel #575 #0 #(-1)))
    = Some (mkDomain #x0' #x1')
    /\ x1' - x0' = (1070 - 0) * exp (-1 * 0.2)
    /\ 0 <= x0' /\ x1' <= 1070
    /\ x0' + (575 - 40) / 1070 * (x1' - x0')
       = 0 + (575 - 40) / 1070 * (1070 - 0).
Proof.
  pose proof exp_bounds as ((L1 & L2) & _ & _).
  apply (zoom_in_keeps_cursor_time exampleSeries 0 1070
           exampleSeries_nonempty exampleSeries_extent idleView
           (mkWheel #575 #0 #(-1)) 0 1070 575).
  - reflexivity.
  - lra.
  - lra.
  - lra.
  - apply offset_from_zero.
  - lra.
  - apply lt_Fin_false. lra.
  - lra.
Defined.

Lemma pan_follows_pointer_witness :
  domain (onPointerMove plainChart exampleSeries
            (onPointerDown exampleSeries
               (mkView (Some (mkDomain #100 #600)) false None None)
               (mkPointer #500 #0))
            (mkPointer #607 #0))
  = Some (mkDomain #(100 + - (607 - 500) / 1070 * (600 - 100))
                   #(600 + - (607 - 500) / 1070 * (600 - 100))).
Proof.
  apply (pan_follows_pointer exampleSeries 0 1070 exampleSeries_extent
           plainChart
           (onPointerDown exampleSeries
              (mkView (Some (mkDomain #100 #600)) false None None)
              (mkPointer #500 #0))
           (mkPointer #607 #0) 500 607 100 600).
  - reflexivity.
  - reflexivity.
  - reflexivity.
  - lra.
  - lra.
  - lra.
Defined.

End MoreInstances.
